(** * Interflow: the conversation tree engine

    A shallow embedding of the conversation store
    ([src/store/conversationStore.ts]), the context builder
    ([src/utils/contextBuilder.ts]) and the auto-layout
    ([src/utils/layout.ts]), followed by the properties of the
    specification that concern them.

    Conventions.
    - A JavaScript [Map] is an association list in insertion order:
      [set] on a key that is present replaces the value where it stands,
      [set] on a new key appends, [delete] removes.
    - JavaScript numbers are integers ([Z]): timestamps, indices and the
      coordinates the layout computes are integers.
    - [string | null] is [option string]; an optional field ([f?: T]) is
      [option T].  The truthiness tests of the source ([if (node.parentId)])
      are kept: [null] and the empty string are falsy.
    - The store is zustand's: [get()] reads the state the store holds,
      [set(partial)] merges [partial] into it.  The state is passed
      along explicitly, together with a count of the readings of the
      clock and of the random source ([World]); what those readings
      give, and the JSON codec, are an [Env].
    - The two recursions that JavaScript bounds by its stack
      ([deleteNode] over the children, [calculateDepth] over the
      parents) take a [fuel]; [None] is a recursion that did not come
      back within it. *)

From Stdlib Require Import List String Ascii ZArith Lia Bool Arith.
From Stdlib Require Import DecimalString Permutation Sorted.
Import ListNotations.

Set Warnings "-register-all".

Local Open Scope string_scope.
Local Open Scope Z_scope.
Local Open Scope list_scope.

Infix "+++" := String.append (right associativity, at level 60).

(* ------------------------------------------------------------------ *)
(** * JavaScript maps                                                  *)
(* ------------------------------------------------------------------ *)

(** Keys that a [Map] compares by value. *)
Class KeyEq (K : Type) := {
  keyb : K -> K -> bool;
  keyb_spec : forall a b, reflect (a = b) (keyb a b)
}.

#[export] Instance KeyEq_string : KeyEq string :=
  {| keyb := String.eqb; keyb_spec := String.eqb_spec |}.

#[export] Instance KeyEq_Z : KeyEq Z :=
  {| keyb := Z.eqb; keyb_spec := Z.eqb_spec |}.

Arguments keyb : simpl never.

(** Case analysis on the key comparisons in sight; of two equal keys the
    second is replaced by the first. *)
Ltac key_case a b :=
  destruct (keyb_spec a b) as [?same|?apart];
  [first [subst b | subst a | idtac]|].

Ltac key_cases :=
  repeat match goal with
         | H : context [keyb ?a ?b] |- _ => key_case a b
         | |- context [keyb ?a ?b] => key_case a b
         end.

Module JsMap.
Section Ops.
Context {K V : Type} `{KeyEq K}.

Definition t := list (K * V).

(** [new Map()] *)
Definition empty : t := [].

(** [m.get(k)] *)
Fixpoint get (m : t) (k : K) : option V :=
  match m with
  | [] => None
  | (k', v) :: rest => if keyb k' k then Some v else get rest k
  end.

(** [m.has(k)] *)
Definition has (m : t) (k : K) : bool :=
  match get m k with Some _ => true | None => false end.

(** [m.set(k, v)]: an existing key keeps its place. *)
Fixpoint set (m : t) (k : K) (v : V) : t :=
  match m with
  | [] => [(k, v)]
  | (k', v') :: rest =>
      if keyb k' k then (k, v) :: rest else (k', v') :: set rest k v
  end.

(** [m.delete(k)] *)
Fixpoint delete (m : t) (k : K) : t :=
  match m with
  | [] => []
  | (k', v') :: rest =>
      if keyb k' k then delete rest k else (k', v') :: delete rest k
  end.

(** [Array.from(m.keys())] *)
Definition keys (m : t) : list K := map fst m.

(** [m.size] *)
Definition size (m : t) : nat := List.length m.

End Ops.
#[global] Arguments t : clear implicits.
End JsMap.

(* ------------------------------------------------------------------ *)
(** * Data model ([src/types/conversation.ts])                         *)
(* ------------------------------------------------------------------ *)

Record AnswerSection := {
  sectionId : string;   (* [id] *)
  text : string;
  index : Z
}.

Record Position := { x : Z; y : Z }.

Record ConversationNode := {
  id : string;
  name : string;
  question : string;
  answer : string;
  answerSections : option (list AnswerSection);
  parentId : option string;
  childrenIds : list string;
  context : list string;
  timestamp : Z;
  position : Position;
  isCollapsed : bool;
  selectedSectionIndexFromParent : option Z
}.

Record ConversationTree := {
  nodes : JsMap.t string ConversationNode;
  rootIds : list string
}.

(** [Partial<ConversationNode>]: the fields an update carries. *)
Record NodeUpdates := {
  u_id : option string;
  u_name : option string;
  u_question : option string;
  u_answer : option string;
  u_answerSections : option (option (list AnswerSection));
  u_parentId : option (option string);
  u_childrenIds : option (list string);
  u_context : option (list string);
  u_timestamp : option Z;
  u_position : option Position;
  u_isCollapsed : option bool;
  u_selectedSectionIndexFromParent : option (option Z)
}.

(** Truthiness of a [string | null]: [Some p] when the value is a
    non-empty string, which is what [if (node.parentId)] lets through. *)
Definition truthyId (s : option string) : option string :=
  match s with
  | Some s => if String.eqb s EmptyString then None else Some s
  | None => None
  end.

Definition orElse {A} (o : option A) (d : A) : A :=
  match o with Some a => a | None => d end.

(** [{ ...node, childrenIds: c }] *)
Definition withChildren (n : ConversationNode) (c : list string) : ConversationNode :=
  {| id := id n; name := name n; question := question n; answer := answer n;
     answerSections := answerSections n; parentId := parentId n;
     childrenIds := c; context := context n; timestamp := timestamp n;
     position := position n; isCollapsed := isCollapsed n;
     selectedSectionIndexFromParent := selectedSectionIndexFromParent n |}.

(** [{ ...node, ...updates }] *)
Definition mergeNode (n : ConversationNode) (u : NodeUpdates) : ConversationNode :=
  {| id := orElse (u_id u) (id n);
     name := orElse (u_name u) (name n);
     question := orElse (u_question u) (question n);
     answer := orElse (u_answer u) (answer n);
     answerSections := orElse (u_answerSections u) (answerSections n);
     parentId := orElse (u_parentId u) (parentId n);
     childrenIds := orElse (u_childrenIds u) (childrenIds n);
     context := orElse (u_context u) (context n);
     timestamp := orElse (u_timestamp u) (timestamp n);
     position := orElse (u_position u) (position n);
     isCollapsed := orElse (u_isCollapsed u) (isCollapsed n);
     selectedSectionIndexFromParent :=
       orElse (u_selectedSectionIndexFromParent u)
              (selectedSectionIndexFromParent n) |}.

(** [ids.filter((other) => other !== id)] *)
Definition without (i : string) (ids : list string) : list string :=
  filter (fun other => negb (String.eqb other i)) ids.

(** [const initialTree = { nodes: new Map(), rootIds: [] }] *)
Definition initialTree : ConversationTree :=
  {| nodes := JsMap.empty; rootIds := [] |}.

(* ------------------------------------------------------------------ *)
(** * Tree updaters of the store                                       *)
(* ------------------------------------------------------------------ *)

(** The function [addNode] hands to [set]. *)
Definition addNodeTree (node : ConversationNode) (tree : ConversationTree)
  : ConversationTree :=
  let newNodes := JsMap.set (nodes tree) (id node) node in
  match truthyId (parentId node) with
  | Some p =>
      let newNodes :=
        match JsMap.get newNodes p with
        | Some parent =>
            JsMap.set newNodes p
              (withChildren parent (childrenIds parent ++ [id node]))
        | None => newNodes
        end in
      {| nodes := newNodes; rootIds := rootIds tree |}
  | None =>
      {| nodes := newNodes; rootIds := rootIds tree ++ [id node] |}
  end.

(** The function [updateNode] hands to [set]. *)
Definition updateNodeTree (i : string) (updates : NodeUpdates)
  (tree : ConversationTree) : ConversationTree :=
  match JsMap.get (nodes tree) i with
  | None => tree
  | Some node =>
      {| nodes := JsMap.set (nodes tree) i (mergeNode node updates);
         rootIds := rootIds tree |}
  end.

(** What the updater of [deleteNode] returns for a node that is present:
    the entry is removed, the parent's [childrenIds] and the root
    sequence are filtered. *)
Definition deleteNodeTree (i : string) (node : ConversationNode)
  (tree : ConversationTree) : ConversationTree :=
  let newNodes := JsMap.delete (nodes tree) i in
  let newNodes :=
    match truthyId (parentId node) with
    | Some p =>
        match JsMap.get newNodes p with
        | Some parent =>
            JsMap.set newNodes p
              (withChildren parent (without i (childrenIds parent)))
        | None => newNodes
        end
    | None => newNodes
    end in
  {| nodes := newNodes; rootIds := without i (rootIds tree) |}.

(* ------------------------------------------------------------------ *)
(** * Context builder ([src/utils/contextBuilder.ts])                  *)
(* ------------------------------------------------------------------ *)

(** [sections[i]] for a number [i]: [undefined] outside the array. *)
Definition sectionAt (sections : list AnswerSection) (i : Z) : option AnswerSection :=
  if i <? 0 then None else nth_error sections (Z.to_nat i).

(** The body of [chain.forEach((chainNode, index) => ...)]: the lines one
    chain node pushes onto [contextParts].  [segment] is the answer
    segmentation, [parseAnswerIntoSections]. *)
Definition chainNodeParts (segment : string -> list AnswerSection)
  (chainLength : nat) (selectedSectionIndex : option Z)
  (chainNode : ConversationNode) (index : nat) : list string :=
  let isLastNode := Nat.eqb index (chainLength - 1) in
  ("Q: " +++ question chainNode) ::
  match isLastNode, selectedSectionIndex with
  | true, Some sel =>
      let sections :=
        match answerSections chainNode with
        | None | Some [] => segment (answer chainNode)
        | Some sections => sections
        end in
      match sectionAt sections sel with
      | Some selectedSection => ["A (selected section): " +++ text selectedSection]
      | None => ["A: " +++ answer chainNode]
      end
  | _, _ => ["A: " +++ answer chainNode]
  end.

Fixpoint chainParts (segment : string -> list AnswerSection)
  (chainLength : nat) (selectedSectionIndex : option Z)
  (chain : list ConversationNode) (index : nat) : list string :=
  match chain with
  | [] => []
  | chainNode :: rest =>
      chainNodeParts segment chainLength selectedSectionIndex chainNode index
      ++ chainParts segment chainLength selectedSectionIndex rest (S index)
  end.

(** The two characters of [\n\n]. *)
Definition newline : string := String (ascii_of_nat 10) EmptyString.
Definition blankLine : string := newline +++ newline.

Definition buildContext (segment : string -> list AnswerSection)
  (parentNode : option ConversationNode) (chain : list ConversationNode)
  (selectedSectionIndex : option Z) : string :=
  match chain with
  | [] => EmptyString
  | first :: rest =>
      let isContinuingFromChild :=
        match parentNode, selectedSectionIndex with
        | Some p, None =>
            match parentId p with Some _ => true | None => false end
        | _, _ => false
        end in
      let contextParts :=
        if isContinuingFromChild then
          let immediateParent := List.last rest first in
          ["Q: " +++ question immediateParent; "A: " +++ answer immediateParent]
        else
          chainParts segment (List.length chain) selectedSectionIndex chain 0 in
      String.concat blankLine contextParts
  end.

(* ------------------------------------------------------------------ *)
(** * Auto-layout ([src/utils/layout.ts])                              *)
(* ------------------------------------------------------------------ *)

Definition NODE_WIDTH : Z := 400.
Definition HORIZONTAL_SPACING : Z := 500.
Definition VERTICAL_SPACING : Z := 350.

(** [calculateDepth], with its memo table [depthMap] passed along.  The
    recursion follows [parentId]; [fuel] bounds its depth, and [None] is
    a recursion that did not come back within it. *)
Fixpoint calculateDepth (fuel : nat) (tree : ConversationTree)
  (depthMap : JsMap.t string Z) (nodeId : string)
  : option (Z * JsMap.t string Z) :=
  match fuel with
  | O => None
  | S fuel =>
      match JsMap.get depthMap nodeId with
      | Some d => Some (d, depthMap)
      | None =>
          match JsMap.get (nodes tree) nodeId with
          | None => Some (0, JsMap.set depthMap nodeId 0)
          | Some node =>
              match truthyId (parentId node) with
              | None => Some (0, JsMap.set depthMap nodeId 0)
              | Some p =>
                  match calculateDepth fuel tree depthMap p with
                  | None => None
                  | Some (d, depthMap) =>
                      let depth := d + 1 in
                      Some (depth, JsMap.set depthMap nodeId depth)
                  end
              end
          end
      end
  end.

(** [tree.nodes.forEach((node) => ...)]: every node is filed under its
    depth, in the order the map yields them. *)
Fixpoint groupByDepth (fuel : nat) (tree : ConversationTree)
  (entries : list (string * ConversationNode))
  (nodesByDepth : JsMap.t Z (list string)) (depthMap : JsMap.t string Z)
  : option (JsMap.t Z (list string) * JsMap.t string Z) :=
  match entries with
  | [] => Some (nodesByDepth, depthMap)
  | (_, node) :: rest =>
      match calculateDepth fuel tree depthMap (id node) with
      | None => None
      | Some (depth, depthMap) =>
          let nodesByDepth :=
            if JsMap.has nodesByDepth depth then nodesByDepth
            else JsMap.set nodesByDepth depth [] in
          let nodesByDepth :=
            JsMap.set nodesByDepth depth
              (orElse (JsMap.get nodesByDepth depth) [] ++ [id node]) in
          groupByDepth fuel tree rest nodesByDepth depthMap
      end
  end.

(** [xs.sort((a, b) => a - b)] *)
Fixpoint insertSorted (a : Z) (xs : list Z) : list Z :=
  match xs with
  | [] => [a]
  | b :: rest => if a <=? b then a :: xs else b :: insertSorted a rest
  end.

Definition sortAscending (xs : list Z) : list Z :=
  fold_right insertSorted [] xs.

(** [nodesAtDepth.forEach((nodeId, index) => positions.set(...))] *)
Fixpoint placeLevel (depth : Z) (nodesAtDepth : list string) (index : Z)
  (positions : JsMap.t string Position) : JsMap.t string Position :=
  match nodesAtDepth with
  | [] => positions
  | nodeId :: rest =>
      let startY := 100 in
      let startX := 300 in
      let levelY := startY + depth * VERTICAL_SPACING in
      let horizontalOffset := depth * (NODE_WIDTH + 100) in
      placeLevel depth rest (index + 1)
        (JsMap.set positions nodeId
           {| x := startX + index * (NODE_WIDTH + HORIZONTAL_SPACING) + horizontalOffset;
              y := levelY |})
  end.

(** [sortedDepths.forEach((depth) => ...)] *)
Definition placeLevels (nodesByDepth : JsMap.t Z (list string))
  (sortedDepths : list Z) (positions : JsMap.t string Position)
  : JsMap.t string Position :=
  fold_left
    (fun positions depth =>
       placeLevel depth (orElse (JsMap.get nodesByDepth depth) []) 0 positions)
    sortedDepths positions.

Definition calculateSimpleLayout (fuel : nat) (tree : ConversationTree)
  : option (JsMap.t string Position) :=
  let positions := JsMap.empty in
  if Nat.eqb (JsMap.size (nodes tree)) 0 then Some positions
  else
    match groupByDepth fuel tree (nodes tree) JsMap.empty JsMap.empty with
    | None => None
    | Some (nodesByDepth, _) =>
        let sortedDepths := sortAscending (JsMap.keys nodesByDepth) in
        Some (placeLevels nodesByDepth sortedDepths positions)
    end.

Definition calculateAutoLayout (fuel : nat) (tree : ConversationTree)
  : option (JsMap.t string Position) :=
  if Nat.eqb (JsMap.size (nodes tree)) 0 then Some JsMap.empty
  else calculateSimpleLayout fuel tree.

(* ------------------------------------------------------------------ *)
(** * JavaScript values                                                *)
(* ------------------------------------------------------------------ *)

(** What a session holds is not what its TypeScript type says:
    [saveCurrentSession] stores the node map as an array of entries,
    [importSession] stores whatever the imported document carried.  The
    values a session can hold are therefore modelled as JavaScript
    values.  Objects and arrays list their own properties in order. *)
Inductive JsVal :=
| JUndefined
| JNull
| JBool (b : bool)
| JNum (n : Z)
| JStr (s : string)
| JArr (items : list JsVal)
| JObj (fields : list (string * JsVal))
| JMap (entries : list (JsVal * JsVal)).

(** [!!v] *)
Definition truthy (v : JsVal) : bool :=
  match v with
  | JUndefined | JNull => false
  | JBool b => b
  | JNum n => negb (n =? 0)
  | JStr s => negb (String.eqb s EmptyString)
  | JArr _ | JObj _ | JMap _ => true
  end.

(** [a || b] *)
Definition jsOr (a b : JsVal) : JsVal := if truthy a then a else b.

Fixpoint lookupField (fields : list (string * JsVal)) (k : string) : JsVal :=
  match fields with
  | [] => JUndefined
  | (k', v) :: rest => if String.eqb k' k then v else lookupField rest k
  end.

(** [o.k = v] on the own properties of an object. *)
Fixpoint assignField (fields : list (string * JsVal)) (k : string) (v : JsVal)
  : list (string * JsVal) :=
  match fields with
  | [] => [(k, v)]
  | (k', v') :: rest =>
      if String.eqb k' k then (k, v) :: rest else (k', v') :: assignField rest k v
  end.

(** [v.k] for a property name [k] that is neither an index nor [length]:
    [None] is the [TypeError] of reading a property of [undefined] or
    [null]; a primitive, an array or a map has no such property. *)
Definition getProp (v : JsVal) (k : string) : option JsVal :=
  match v with
  | JUndefined | JNull => None
  | JObj fields => Some (lookupField fields k)
  | _ => Some JUndefined
  end.

Definition decimal (n : Z) : string := NilZero.string_of_int (Z.to_int n).

(** [e[i]] on a value that is an object: an element of an array, the
    property named by the digits of [i] on a plain object. *)
Definition getIndex (e : JsVal) (i : nat) : JsVal :=
  match e with
  | JArr items => nth i items JUndefined
  | JObj fields => lookupField fields (decimal (Z.of_nat i))
  | _ => JUndefined
  end.

(** Equality of [Map] keys (SameValueZero): primitives by value; two
    objects are the same key only if they are the same object, which two
    values out of [JSON.parse] never are. *)
Definition sameValueZero (a b : JsVal) : bool :=
  match a, b with
  | JUndefined, JUndefined => true
  | JNull, JNull => true
  | JBool a, JBool b => Bool.eqb a b
  | JNum a, JNum b => a =? b
  | JStr a, JStr b => String.eqb a b
  | _, _ => false
  end.

Fixpoint mapSet (m : list (JsVal * JsVal)) (k v : JsVal) : list (JsVal * JsVal) :=
  match m with
  | [] => [(k, v)]
  | (k', v') :: rest =>
      if sameValueZero k' k then (k, v) :: rest else (k', v') :: mapSet rest k v
  end.

(** [new Map(iterable)]: [None] is the [TypeError] of an argument that is
    not iterable or of an item that is not an object.  A non-empty string
    iterates over its characters, which are not objects. *)
Fixpoint newMapFrom (items : list JsVal) (m : list (JsVal * JsVal))
  : option (list (JsVal * JsVal)) :=
  match items with
  | [] => Some m
  | e :: rest =>
      match e with
      | JArr _ | JObj _ | JMap _ =>
          newMapFrom rest (mapSet m (getIndex e 0) (getIndex e 1))
      | _ => None
      end
  end.

Definition newMap (iterable : JsVal) : option (list (JsVal * JsVal)) :=
  match iterable with
  | JUndefined | JNull => Some []
  | JArr items => newMapFrom items []
  | JMap entries => Some entries
  | JStr s => if String.eqb s EmptyString then Some [] else None
  | _ => None
  end.

(** [Array.from(v.entries())]: the entries of a map, the index/element
    pairs of an array; [None] is the [TypeError] of a value without
    [entries]. *)
Fixpoint indexed (i : Z) (items : list JsVal) : list JsVal :=
  match items with
  | [] => []
  | v :: rest => JArr [JNum i; v] :: indexed (i + 1) rest
  end.

Definition entriesArray (v : JsVal) : option JsVal :=
  match v with
  | JMap entries => Some (JArr (map (fun e => JArr [fst e; snd e]) entries))
  | JArr items => Some (JArr (indexed 0 items))
  | _ => None
  end.

(** ** Nodes as JavaScript objects *)

Definition jsOfStrings (l : list string) : JsVal := JArr (map JStr l).

Definition jsOfSection (s : AnswerSection) : JsVal :=
  JObj [("id", JStr (sectionId s)); ("text", JStr (text s)); ("index", JNum (index s))].

Definition optField {A} (k : string) (f : A -> JsVal) (o : option A)
  : list (string * JsVal) :=
  match o with Some a => [(k, f a)] | None => [] end.

(** The object a [ConversationNode] is; an optional field that is
    [undefined] is left out, as [JSON.stringify] does. *)
Definition jsOfNode (n : ConversationNode) : JsVal :=
  JObj ([("id", JStr (id n)); ("name", JStr (name n));
         ("question", JStr (question n)); ("answer", JStr (answer n))]
        ++ optField "answerSections" (fun l => JArr (map jsOfSection l)) (answerSections n)
        ++ [("parentId", match parentId n with Some p => JStr p | None => JNull end);
            ("childrenIds", jsOfStrings (childrenIds n));
            ("context", jsOfStrings (context n));
            ("timestamp", JNum (timestamp n));
            ("position", JObj [("x", JNum (x (position n))); ("y", JNum (y (position n)))]);
            ("isCollapsed", JBool (isCollapsed n))]
        ++ optField "selectedSectionIndexFromParent" JNum (selectedSectionIndexFromParent n)).

(* ------------------------------------------------------------------ *)
(** * Sessions and the store state                                     *)
(* ------------------------------------------------------------------ *)

(** [Session.tree] as it is held at run time. *)
Record StoredTree := {
  storedNodes : JsVal;
  storedRootIds : JsVal
}.

Record Session := {
  s_id : string;
  s_name : JsVal;
  createdAt : JsVal;
  updatedAt : Z;
  s_tree : StoredTree
}.

Record State := {
  tree : ConversationTree;
  currentSessionId : option string;
  sessions : JsMap.t string Session
}.

(** The object handed to zustand's [set]: the fields it carries. *)
Record PartialState := {
  p_tree : option ConversationTree;
  p_currentSessionId : option (option string);
  p_sessions : option (JsMap.t string Session)
}.

(** [Object.assign({}, state, nextState)] *)
Definition assign (state : State) (nextState : PartialState) : State :=
  {| tree := orElse (p_tree nextState) (tree state);
     currentSessionId := orElse (p_currentSessionId nextState) (currentSessionId state);
     sessions := orElse (p_sessions nextState) (sessions state) |}.

Definition onlyTree (t : ConversationTree) : PartialState :=
  {| p_tree := Some t; p_currentSessionId := None; p_sessions := None |}.

Definition onlySessions (s : JsMap.t string Session) : PartialState :=
  {| p_tree := None; p_currentSessionId := None; p_sessions := Some s |}.

(** [return state] from an updater. *)
Definition wholeState (s : State) : PartialState :=
  {| p_tree := Some (tree s); p_currentSessionId := Some (currentSessionId s);
     p_sessions := Some (sessions s) |}.

(** What the program reads from outside: the clock, the random suffix of
    an id ([Math.random().toString(36).slice(2, 11)]), the rendering of
    the date, and the JSON codec.  Readings are numbered: the [k]-th
    reading since the start is the one at [k]. *)
Record Env := {
  Date_now : nat -> Z;
  Math_random_id : nat -> string;
  toLocaleString : nat -> string;
  JSON_parse : string -> option JsVal;
  JSON_stringify : JsVal -> string
}.

(** The store, and how many readings of the outside were made. *)
Record World := {
  store : State;
  readings : nat
}.

Definition initialState : State :=
  {| tree := initialTree; currentSessionId := None; sessions := JsMap.empty |}.

Definition initialWorld : World := {| store := initialState; readings := 0 |}.

(** zustand's [set(partial)]: the fields are merged into the state the
    store holds at that moment. *)
Definition setState (nextState : PartialState) (w : World) : World :=
  {| store := assign (store w) nextState; readings := readings w |}.

(** A call that can throw. *)
Inductive Outcome (A : Type) :=
| Returned (a : A)
| Thrown (message : string).
Arguments Returned {A} a.
Arguments Thrown {A} message.

(* ------------------------------------------------------------------ *)
(** * The store ([src/store/conversationStore.ts])                     *)
(* ------------------------------------------------------------------ *)

Section Store.
Variable env : Env.

(** One reading of the outside. *)
Definition reading {A} (source : Env -> nat -> A) (w : World) : A * World :=
  (source env (readings w), {| store := store w; readings := S (readings w) |}).

(** [`session-${Date.now()}-${Math.random().toString(36).slice(2, 11)}`] *)
Definition newSessionIdentifier (w : World) : string * World :=
  let (now, w) := reading Date_now w in
  let (suffix, w) := reading Math_random_id w in
  ("session-" +++ decimal now +++ "-" +++ suffix, w).

Definition nodesArrayOf (t : ConversationTree) : JsVal :=
  JArr (map (fun e => JArr [JStr (fst e); jsOfNode (snd e)]) (nodes t)).

Definition saveCurrentSession (name : option string) (w : World) : string * World :=
  let state := store w in
  let (sessionId, w) :=
    match truthyId (currentSessionId state) with
    | Some current => (current, w)
    | None => newSessionIdentifier w
    end in
  let (sessionName, w) :=
    match truthyId name with
    | Some name => (name, w)
    | None => let (date, w) := reading toLocaleString w in ("Session " +++ date, w)
    end in
  let nodesArray := nodesArrayOf (tree state) in
  let (created, w) :=
    match JsMap.get (sessions state) sessionId with
    | Some previous =>
        if truthy (createdAt previous) then (createdAt previous, w)
        else let (now, w) := reading Date_now w in (JNum now, w)
    | None => let (now, w) := reading Date_now w in (JNum now, w)
    end in
  let (updated, w) := reading Date_now w in
  let session :=
    {| s_id := sessionId; s_name := JStr sessionName;
       createdAt := created; updatedAt := updated;
       s_tree := {| storedNodes := nodesArray;
                    storedRootIds := jsOfStrings (rootIds (tree state)) |} |} in
  let newSessions := JsMap.set (sessions state) sessionId session in
  let w := setState {| p_tree := None; p_currentSessionId := Some (Some sessionId);
                       p_sessions := Some newSessions |} w in
  (sessionId, w).

(** Both branches of [saveToStorage] call [saveCurrentSession()]. *)
Definition saveToStorage (w : World) : World := snd (saveCurrentSession None w).

Definition addNode (node : ConversationNode) (w : World) : World :=
  let w := setState (onlyTree (addNodeTree node (tree (store w)))) w in
  saveToStorage w.

Definition updateNode (i : string) (updates : NodeUpdates) (w : World) : World :=
  let state := store w in
  let w :=
    match JsMap.get (nodes (tree state)) i with
    | None => setState (wholeState state) w
    | Some _ => setState (onlyTree (updateNodeTree i updates (tree state))) w
    end in
  saveToStorage w.

(** [deleteNode].  The updater given to [set] reads the state [set]
    passes it, calls [deleteNode] on every child through [get()], and
    returns a tree computed from the state it was passed; [set] then
    merges that tree into the state the store holds after those calls.
    [fuel] bounds the nesting of the calls; [None] is a nesting that did
    not come back within it. *)
Fixpoint deleteNode (fuel : nat) (i : string) (w : World) : option World :=
  match fuel with
  | O => None
  | S fuel =>
      let state := store w in
      match JsMap.get (nodes (tree state)) i with
      | None => Some (saveToStorage (setState (wholeState state) w))
      | Some node =>
          let afterChildren :=
            fold_left
              (fun acc childId =>
                 match acc with
                 | Some w => deleteNode fuel childId w
                 | None => None
                 end)
              (childrenIds node) (Some w) in
          match afterChildren with
          | None => None
          | Some w =>
              Some (saveToStorage
                      (setState (onlyTree (deleteNodeTree i node (tree state))) w))
          end
      end
  end.

(** [generateNodeName(parentId)], on whatever value it is called with:
    the import calls it with the [parentId] property of an imported
    value. *)
Definition generateNodeName (parentId : JsVal) (state : State) : string :=
  match parentId with
  | JNull =>
      let rootCount := Z.of_nat (List.length (rootIds (tree state))) + 1 in
      "Question " +++ decimal rootCount
  | _ =>
      let parent :=
        match parentId with
        | JStr p => JsMap.get (nodes (tree state)) p
        | _ => None
        end in
      match parent with
      | Some parent =>
          let siblingCount := Z.of_nat (List.length (childrenIds parent)) + 1 in
          "Follow-up " +++ decimal siblingCount
      | None =>
          "Node " +++ decimal (Z.of_nat (JsMap.size (nodes (tree state))) + 1)
      end
  end.

Definition storedInitialTree : StoredTree :=
  {| storedNodes := JMap []; storedRootIds := JArr [] |}.

Definition createNewSession (w : World) : string * World :=
  let state := store w in
  let w :=
    match truthyId (currentSessionId state) with
    | Some _ =>
        if (0 <? JsMap.size (nodes (tree state)))%nat
        then snd (saveCurrentSession None w) else w
    | None => w
    end in
  let (newSessionId, w) := newSessionIdentifier w in
  let (date, w) := reading toLocaleString w in
  let (created, w) := reading Date_now w in
  let (updated, w) := reading Date_now w in
  let newSession :=
    {| s_id := newSessionId; s_name := JStr ("New Session " +++ date);
       createdAt := JNum created; updatedAt := updated;
       s_tree := storedInitialTree |} in
  let newSessions := JsMap.set (sessions state) newSessionId newSession in
  let w := setState {| p_tree := Some initialTree;
                       p_currentSessionId := Some (Some newSessionId);
                       p_sessions := Some newSessions |} w in
  (newSessionId, w).

Definition sameId (a : option string) (b : string) : bool :=
  match a with Some a => String.eqb a b | None => false end.

Definition deleteSession (sessionId : string) (w : World) : World :=
  let state := store w in
  let w :=
    if sameId (currentSessionId state) sessionId
    then snd (createNewSession w) else w in
  let newSessions := JsMap.delete (sessions state) sessionId in
  setState (onlySessions newSessions) w.

Definition exportSession (sessionId : string) (w : World) : Outcome string * World :=
  let state := store w in
  match JsMap.get (sessions state) sessionId with
  | None => (Thrown "Session not found", w)
  | Some session =>
      match entriesArray (storedNodes (s_tree session)) with
      | None => (Thrown "TypeError", w)
      | Some nodesArray =>
          let (exportedAt, w) := reading Date_now w in
          let exportData :=
            JObj [("version", JStr "1.0");
                  ("exportedAt", JNum exportedAt);
                  ("session",
                   JObj [("id", JStr (s_id session));
                         ("name", s_name session);
                         ("createdAt", createdAt session);
                         ("updatedAt", JNum (updatedAt session));
                         ("tree",
                          JObj [("nodes", nodesArray);
                                ("rootIds", storedRootIds (s_tree session))])])] in
          (Returned (JSON_stringify env exportData), w)
      end
  end.

(** The body of [nodes.forEach((node) => ...)] of the import on one value
    of the map: [None] is a [TypeError] (a property of [undefined] or
    [null] is read, or a property is created on a primitive, which
    module code, being strict, refuses).  A property set on an array
    stays outside its elements; nothing reads it back. *)
Definition backfillName (state : State) (node : JsVal) : option JsVal :=
  match getProp node "name" with
  | None => None
  | Some current =>
      if truthy current then Some node
      else
        match getProp node "parentId" with
        | None => None
        | Some parentId =>
            let name := generateNodeName parentId state in
            match node with
            | JObj fields => Some (JObj (assignField fields "name" (JStr name)))
            | JArr _ | JMap _ => Some node
            | _ => None
            end
        end
  end.

Fixpoint backfillNames (state : State) (entries : list (JsVal * JsVal))
  : option (list (JsVal * JsVal)) :=
  match entries with
  | [] => Some []
  | (k, node) :: rest =>
      match backfillName state node with
      | None => None
      | Some node =>
          match backfillNames state rest with
          | None => None
          | Some rest => Some ((k, node) :: rest)
          end
      end
  end.

Definition importSession (sessionData : string) (w : World) : Outcome string * World :=
  match JSON_parse env sessionData with
  | None => (Thrown "SyntaxError", w)
  | Some data =>
      match getProp data "session" with
      | None => (Thrown "TypeError", w)
      | Some importedSession =>
          if negb (truthy importedSession)
          then (Thrown "Invalid session file format", w)
          else
            match getProp importedSession "tree" with
            | None => (Thrown "TypeError", w)
            | Some importedTree =>
                if negb (truthy importedTree)
                then (Thrown "Invalid session file format", w)
                else
                  let nodesArray :=
                    jsOr (orElse (getProp importedTree "nodes") JUndefined) (JArr []) in
                  match newMap nodesArray with
                  | None => (Thrown "TypeError", w)
                  | Some nodes =>
                      match backfillNames (store w) nodes with
                      | None => (Thrown "TypeError", w)
                      | Some nodes =>
                          let (newSessionId, w1) := newSessionIdentifier w in
                          let importedName :=
                            orElse (getProp importedSession "name") JUndefined in
                          let (sessionName, w2) :=
                            if truthy importedName then (importedName, w1)
                            else
                              let (date, w2) := reading toLocaleString w1 in
                              (JStr ("Imported Session " +++ date), w2) in
                          let importedCreatedAt :=
                            orElse (getProp importedSession "createdAt") JUndefined in
                          let (created, w3) :=
                            if truthy importedCreatedAt then (importedCreatedAt, w2)
                            else
                              let (now, w3) := reading Date_now w2 in (JNum now, w3) in
                          let (updated, w4) := reading Date_now w3 in
                          let session :=
                            {| s_id := newSessionId; s_name := sessionName;
                               createdAt := created; updatedAt := updated;
                               s_tree :=
                                 {| storedNodes := JMap nodes;
                                    storedRootIds :=
                                      jsOr (orElse (getProp importedTree "rootIds") JUndefined)
                                           (JArr []) |} |} in
                          let state := store w4 in
                          let newSessions := JsMap.set (sessions state) newSessionId session in
                          (Returned newSessionId, setState (onlySessions newSessions) w4)
                      end
                  end
            end
      end
  end.

End Store.

(* ------------------------------------------------------------------ *)
(** * A JSON codec to run the store with                               *)
(* ------------------------------------------------------------------ *)

(** The store is stated over any [Env]; to run it on concrete inputs an
    [Env] is needed.  This one prints as [JSON.stringify(v, null, 2)]
    does and reads back JSON documents of ASCII characters whose numbers
    are integers. *)
Module Json.

Definition quote : ascii := ascii_of_nat 34.
Definition backslash : ascii := ascii_of_nat 92.
Definition lineFeed : ascii := ascii_of_nat 10.
Definition carriageReturn : ascii := ascii_of_nat 13.
Definition tab : ascii := ascii_of_nat 9.

Definition str (c : ascii) : string := String c EmptyString.

Definition hexDigit (n : nat) : ascii :=
  if (n <? 10)%nat then ascii_of_nat (48 + n) else ascii_of_nat (87 + n).

Definition escapeChar (c : ascii) : string :=
  if Ascii.eqb c quote then String backslash (str quote)
  else if Ascii.eqb c backslash then String backslash (str backslash)
  else if Ascii.eqb c lineFeed then String backslash "n"
  else if Ascii.eqb c carriageReturn then String backslash "r"
  else if Ascii.eqb c tab then String backslash "t"
  else if (nat_of_ascii c <? 32)%nat then
    String backslash
      ("u00" +++ String (hexDigit (nat_of_ascii c / 16))
                        (str (hexDigit (nat_of_ascii c mod 16))))
  else str c.

Fixpoint escape (s : string) : string :=
  match s with
  | EmptyString => EmptyString
  | String c rest => escapeChar c +++ escape rest
  end.

Definition quoted (s : string) : string :=
  String quote (escape s +++ str quote).

Fixpoint spaces (n : nat) : string :=
  match n with
  | O => EmptyString
  | S n => String " " (spaces n)
  end.

Definition lineAt (level : nat) : string := String lineFeed (spaces (2 * level)).

Definition isUndefined (v : JsVal) : bool :=
  match v with JUndefined => true | _ => false end.

(** [JSON.stringify(v, null, 2)] below the top: [undefined] in an array
    prints as [null], a property that is [undefined] is left out, a
    [Map] prints as an object without properties. *)
Fixpoint stringifyAt (level : nat) (v : JsVal) : string :=
  match v with
  | JUndefined | JNull => "null"
  | JBool true => "true"
  | JBool false => "false"
  | JNum n => decimal n
  | JStr s => quoted s
  | JArr items =>
      let texts :=
        (fix each (l : list JsVal) : list string :=
           match l with
           | [] => []
           | item :: rest => stringifyAt (S level) item :: each rest
           end) items in
      match texts with
      | [] => "[]"
      | _ =>
          "[" +++ lineAt (S level)
          +++ String.concat ("," +++ lineAt (S level)) texts
          +++ lineAt level +++ "]"
      end
  | JObj fields =>
      let texts :=
        (fix each (l : list (string * JsVal)) : list string :=
           match l with
           | [] => []
           | (k, item) :: rest =>
               if isUndefined item then each rest
               else (quoted k +++ ": " +++ stringifyAt (S level) item) :: each rest
           end) fields in
      match texts with
      | [] => "{}"
      | _ =>
          "{" +++ lineAt (S level)
          +++ String.concat ("," +++ lineAt (S level)) texts
          +++ lineAt level +++ "}"
      end
  | JMap _ => "{}"
  end.

Definition stringify (v : JsVal) : string := stringifyAt 0 v.

Definition isSpace (c : ascii) : bool :=
  Ascii.eqb c " " || Ascii.eqb c lineFeed || Ascii.eqb c carriageReturn
  || Ascii.eqb c tab.

Fixpoint skipSpaces (s : string) : string :=
  match s with
  | String c rest => if isSpace c then skipSpaces rest else s
  | EmptyString => s
  end.

Definition digitOf (c : ascii) : option Z :=
  let n := nat_of_ascii c in
  if ((48 <=? n) && (n <=? 57))%nat then Some (Z.of_nat (n - 48)) else None.

Definition hexOf (c : ascii) : option nat :=
  let n := nat_of_ascii c in
  if ((48 <=? n) && (n <=? 57))%nat then Some (n - 48)%nat
  else if ((97 <=? n) && (n <=? 102))%nat then Some (n - 87)%nat
  else if ((65 <=? n) && (n <=? 70))%nat then Some (n - 55)%nat
  else None.

(** The digits at the head of [s], as a number, and what follows. *)
Fixpoint readDigits (acc : Z) (s : string) : Z * string :=
  match s with
  | String c rest =>
      match digitOf c with
      | Some d => readDigits (10 * acc + d) rest
      | None => (acc, s)
      end
  | EmptyString => (acc, s)
  end.

Definition startsFraction (s : string) : bool :=
  match s with
  | String c _ => Ascii.eqb c "." || Ascii.eqb c "e" || Ascii.eqb c "E"
  | EmptyString => false
  end.

(** An integer numeral: no leading zero, no fraction, no exponent. *)
Definition readNumber (s : string) : option (Z * string) :=
  match s with
  | String c rest =>
      match digitOf c with
      | None => None
      | Some d =>
          let (n, after) := readDigits d rest in
          let leadingZero :=
            (d =? 0)
            && match rest with
               | String c' _ => match digitOf c' with Some _ => true | None => false end
               | EmptyString => false
               end in
          if leadingZero || startsFraction after then None else Some (n, after)
      end
  | EmptyString => None
  end.

(** The characters of a string literal after its opening quote. *)
Fixpoint readString (s : string) : option (string * string) :=
  match s with
  | EmptyString => None
  | String c rest =>
      if Ascii.eqb c quote then Some (EmptyString, rest)
      else if (nat_of_ascii c <? 32)%nat then None
      else if Ascii.eqb c backslash then
        match rest with
        | String e rest =>
            let continue (c : ascii) (rest : string) :=
              match readString rest with
              | Some (chars, after) => Some (String c chars, after)
              | None => None
              end in
            if Ascii.eqb e quote then continue quote rest
            else if Ascii.eqb e backslash then continue backslash rest
            else if Ascii.eqb e "/" then continue "/"%char rest
            else if Ascii.eqb e "n" then continue lineFeed rest
            else if Ascii.eqb e "r" then continue carriageReturn rest
            else if Ascii.eqb e "t" then continue tab rest
            else if Ascii.eqb e "b" then continue (ascii_of_nat 8) rest
            else if Ascii.eqb e "f" then continue (ascii_of_nat 12) rest
            else if Ascii.eqb e "u" then
              match rest with
              | String h1 (String h2 (String h3 (String h4 rest))) =>
                  match hexOf h1, hexOf h2, hexOf h3, hexOf h4 with
                  | Some O, Some O, Some a, Some b =>
                      continue (ascii_of_nat (16 * a + b)) rest
                  | _, _, _, _ => None
                  end
              | _ => None
              end
            else None
        | EmptyString => None
        end
      else
        match readString rest with
        | Some (chars, after) => Some (String c chars, after)
        | None => None
        end
  end.

Definition literal (word : string) (v : JsVal) (s : string) : option (JsVal * string) :=
  if String.prefix word s
  then Some (v, String.substring (String.length word)
                   (String.length s - String.length word) s)
  else None.

Definition headIs (c : ascii) (s : string) : option string :=
  match s with
  | String c' rest => if Ascii.eqb c c' then Some rest else None
  | EmptyString => None
  end.

(** Values, the elements of an array after its first, the members of an
    object after its first.  A repeated member name keeps its first
    place and its last value. *)
Fixpoint readValue (fuel : nat) (s : string) : option (JsVal * string) :=
  match fuel with
  | O => None
  | S fuel =>
      match skipSpaces s with
      | EmptyString => None
      | String c rest =>
          if Ascii.eqb c "{" then
            match skipSpaces rest with
            | String c' rest' =>
                if Ascii.eqb c' "}" then Some (JObj [], rest')
                else
                  match readMember fuel (skipSpaces rest) with
                  | Some (k, v, after) => readMembers fuel [(k, v)] after
                  | None => None
                  end
            | EmptyString => None
            end
          else if Ascii.eqb c "[" then
            match skipSpaces rest with
            | String c' rest' =>
                if Ascii.eqb c' "]" then Some (JArr [], rest')
                else
                  match readValue fuel rest with
                  | Some (v, after) => readElements fuel [v] after
                  | None => None
                  end
            | EmptyString => None
            end
          else if Ascii.eqb c quote then
            match readString rest with
            | Some (chars, after) => Some (JStr chars, after)
            | None => None
            end
          else if Ascii.eqb c "-" then
            match readNumber rest with
            | Some (n, after) => Some (JNum (- n), after)
            | None => None
            end
          else if Ascii.eqb c "t" then literal "true" (JBool true) (String c rest)
          else if Ascii.eqb c "f" then literal "false" (JBool false) (String c rest)
          else if Ascii.eqb c "n" then literal "null" JNull (String c rest)
          else
            match readNumber (String c rest) with
            | Some (n, after) => Some (JNum n, after)
            | None => None
            end
      end
  end
with readElements (fuel : nat) (seen : list JsVal) (s : string)
  : option (JsVal * string) :=
  match fuel with
  | O => None
  | S fuel =>
      match skipSpaces s with
      | String c rest =>
          if Ascii.eqb c "]" then Some (JArr (rev seen), rest)
          else if Ascii.eqb c "," then
            match readValue fuel rest with
            | Some (v, after) => readElements fuel (v :: seen) after
            | None => None
            end
          else None
      | EmptyString => None
      end
  end
with readMember (fuel : nat) (s : string) : option (string * JsVal * string) :=
  match fuel with
  | O => None
  | S fuel =>
      match headIs quote s with
      | None => None
      | Some rest =>
          match readString rest with
          | None => None
          | Some (k, after) =>
              match headIs ":" (skipSpaces after) with
              | None => None
              | Some after =>
                  match readValue fuel after with
                  | Some (v, after) => Some (k, v, after)
                  | None => None
                  end
              end
          end
      end
  end
with readMembers (fuel : nat) (seen : list (string * JsVal)) (s : string)
  : option (JsVal * string) :=
  match fuel with
  | O => None
  | S fuel =>
      match skipSpaces s with
      | String c rest =>
          if Ascii.eqb c "}" then Some (JObj seen, rest)
          else if Ascii.eqb c "," then
            match readMember fuel (skipSpaces rest) with
            | Some (k, v, after) => readMembers fuel (assignField seen k v) after
            | None => None
            end
          else None
      | EmptyString => None
      end
  end.

(** [JSON.parse(text)]; [None] is its [SyntaxError]. *)
Definition parse (s : string) : option JsVal :=
  match readValue (2 * String.length s + 2) s with
  | Some (v, rest) =>
      match skipSpaces rest with
      | EmptyString => Some v
      | _ => None
      end
  | None => None
  end.

End Json.

(** A sample outside: a clock that advances by one millisecond at each
    reading, suffixes and dates that name the reading, the codec above. *)
Definition sampleEnv : Env :=
  {| Date_now := fun k => 1700000000000 + Z.of_nat k;
     Math_random_id := fun k => "r" +++ decimal (Z.of_nat k);
     toLocaleString := fun k => "day " +++ decimal (Z.of_nat k);
     JSON_parse := Json.parse;
     JSON_stringify := Json.stringify |}.

(* ------------------------------------------------------------------ *)
(** * Vocabulary of the properties                                     *)
(* ------------------------------------------------------------------ *)

Definition treeOf (w : World) : ConversationTree := tree (store w).

Definition nodeAt (t : ConversationTree) (i : string) : option ConversationNode :=
  JsMap.get (nodes t) i.

(** ** The structural invariants of the specification *)

(** 1. A parent that is named exists and lists the child. *)
Definition invariant1 (t : ConversationTree) : Prop :=
  forall k n p, nodeAt t k = Some n -> parentId n = Some p ->
    exists pn, nodeAt t p = Some pn /\ In (id n) (childrenIds pn).

(** 2. The root sequence holds exactly the ids of the nodes without parent. *)
Definition invariant2 (t : ConversationTree) : Prop :=
  forall i, In i (rootIds t) <->
    exists n, nodeAt t i = Some n /\ parentId n = None.

(** Following [parentId] from [i] reaches a node without parent in at
    most [hops] steps. *)
Fixpoint reachesRoot (m : JsMap.t string ConversationNode) (hops : nat)
  (i : string) {struct hops} : bool :=
  match JsMap.get m i with
  | None => false
  | Some n =>
      match parentId n with
      | None => true
      | Some p =>
          match hops with
          | O => false
          | S hops => reachesRoot m hops p
          end
      end
  end.

(** 3. No cycles: a root is reached within the node count. *)
Definition invariant3 (t : ConversationTree) : Prop :=
  forall k n, nodeAt t k = Some n ->
    reachesRoot (nodes t) (JsMap.size (nodes t)) k = true.

(** 4. [childrenIds] has no duplicate and no dangling id. *)
Definition invariant4 (t : ConversationTree) : Prop :=
  forall k n, nodeAt t k = Some n ->
    NoDup (childrenIds n) /\
    forall c, In c (childrenIds n) -> exists cn, nodeAt t c = Some cn.

Definition invariants (t : ConversationTree) : Prop :=
  invariant1 t /\ invariant2 t /\ invariant3 t /\ invariant4 t.

(** ** Sequences of calls *)

Inductive Call :=
| CallAddNode (node : ConversationNode)
| CallUpdateNode (i : string) (updates : NodeUpdates)
| CallDeleteNode (i : string).

Definition call (env : Env) (fuel : nat) (c : Call) (w : World) : option World :=
  match c with
  | CallAddNode node => Some (addNode env node w)
  | CallUpdateNode i updates => Some (updateNode env i updates w)
  | CallDeleteNode i => deleteNode env fuel i w
  end.

Fixpoint calls (env : Env) (fuel : nat) (cs : list Call) (w : World) : option World :=
  match cs with
  | [] => Some w
  | c :: rest =>
      match call env fuel c w with
      | Some w => calls env fuel rest w
      | None => None
      end
  end.

(** The calls the user interface makes: a node is added under a fresh
    id, without children, as a root or under a node that exists; an
    update leaves [id], [parentId] and [childrenIds] alone; a node that
    is deleted has no children. *)
Definition plainCall (t : ConversationTree) (c : Call) : Prop :=
  match c with
  | CallAddNode node =>
      nodeAt t (id node) = None /\ childrenIds node = [] /\
      (parentId node = None \/
       exists p pn, parentId node = Some p /\ p <> EmptyString /\ nodeAt t p = Some pn)
  | CallUpdateNode _ updates =>
      u_id updates = None /\ u_parentId updates = None /\ u_childrenIds updates = None
  | CallDeleteNode i =>
      forall n, nodeAt t i = Some n -> childrenIds n = []
  end.

Fixpoint plainCalls (env : Env) (fuel : nat) (cs : list Call) (w : World) : Prop :=
  match cs with
  | [] => True
  | c :: rest =>
      plainCall (treeOf w) c /\
      match call env fuel c w with
      | Some w => plainCalls env fuel rest w
      | None => True
      end
  end.

(** [Hops m i h]: [h] steps along [parentId] lead from [i] to a node
    without parent. *)
Inductive Hops (m : JsMap.t string ConversationNode) : string -> nat -> Prop :=
| Hops_root i n :
    JsMap.get m i = Some n -> parentId n = None -> Hops m i 0
| Hops_child i n p h :
    JsMap.get m i = Some n -> parentId n = Some p -> Hops m p h ->
    Hops m i (S h).

(** What the plain calls maintain. *)
Record WellFormed (t : ConversationTree) : Prop := {
  wf_keys : NoDup (JsMap.keys (nodes t));
  wf_id : forall k n, nodeAt t k = Some n -> id n = k;
  wf_parent : forall k n p, nodeAt t k = Some n -> parentId n = Some p ->
    p <> EmptyString /\ exists pn, nodeAt t p = Some pn /\ In k (childrenIds pn);
  wf_child : forall p pn c, nodeAt t p = Some pn -> In c (childrenIds pn) ->
    exists cn, nodeAt t c = Some cn /\ parentId cn = Some p;
  wf_nodup : forall k n, nodeAt t k = Some n -> NoDup (childrenIds n);
  wf_roots : forall i, In i (rootIds t) <->
    exists n, nodeAt t i = Some n /\ parentId n = None;
  wf_rooted : forall k n, nodeAt t k = Some n -> exists h, Hops (nodes t) k h
}.

(** ** Depth, as the layout counts it *)

(** [Depth t i d]: [d] steps along [parentId] lead from [i] to a node
    without (truthy) parent, or to an id the tree does not hold. *)
Inductive Depth (t : ConversationTree) : string -> Z -> Prop :=
| Depth_absent i :
    nodeAt t i = None -> Depth t i 0
| Depth_root i n :
    nodeAt t i = Some n -> truthyId (parentId n) = None -> Depth t i 0
| Depth_child i n p d :
    nodeAt t i = Some n -> truthyId (parentId n) = Some p -> Depth t p d ->
    Depth t i (d + 1).

(** The memo table of [calculateDepth] holds depths only. *)
Definition memoOk (t : ConversationTree) (depthMap : JsMap.t string Z) : Prop :=
  forall k d, JsMap.get depthMap k = Some d -> Depth t k d.

(** The ids of [ids] at depth [d], in order. *)
Definition levelOf (depthOf : string -> Z) (ids : list string) (d : Z)
  : list string :=
  filter (fun k => depthOf k =? d) ids.

(** The table of the levels holds, under each depth, the ids of [seen]
    at that depth, in order, and no empty level. *)
Definition levelsOk (depthOf : string -> Z) (seen : list string)
  (nodesByDepth : JsMap.t Z (list string)) : Prop :=
  forall d,
    JsMap.get nodesByDepth d =
    match levelOf depthOf seen d with
    | [] => None
    | level => Some level
    end.

(** The ids of the nodes, in the order the map yields them. *)
Definition nodeIds (t : ConversationTree) : list string := JsMap.keys (nodes t).

(** The ids at the depth of [i], in that order. *)
Definition depthGroup (depthOf : string -> Z) (t : ConversationTree) (d : Z)
  : list string :=
  levelOf depthOf (nodeIds t) d.

Definition placed (d i : Z) : Position :=
  {| x := 300 + i * (400 + 500) + d * (400 + 100); y := 100 + d * 350 |}.

(** ** Rendering *)

(** The question/answer pair of a node, in full. *)
Definition fullExchange (n : ConversationNode) : list string :=
  ["Q: " +++ question n; "A: " +++ answer n].

(** The sections [buildContext] selects from: the cached ones unless
    there are none. *)
Definition sectionsOf (segment : string -> list AnswerSection)
  (n : ConversationNode) : list AnswerSection :=
  match answerSections n with
  | Some (s :: rest) => s :: rest
  | _ => segment (answer n)
  end.

(** The same with the segmentation consulted only when the cache is
    absent, as the specification words it. *)
Definition sectionsWhenAbsent (segment : string -> list AnswerSection)
  (n : ConversationNode) : list AnswerSection :=
  match answerSections n with
  | Some cached => cached
  | None => segment (answer n)
  end.

(** ** Stored trees *)

(** The ids a stored tree holds its nodes under: the keys of a map, the
    first components of an array of entries. *)
Definition storedNodeIds (t : StoredTree) : list JsVal :=
  match storedNodes t with
  | JMap entries => map fst entries
  | JArr items => map (fun e => getIndex e 0) items
  | _ => []
  end.

Definition sessionAt (w : World) (i : string) : option Session :=
  JsMap.get (sessions (store w)) i.

(** ** Sample data *)

Definition sampleNode (i q a : string) (parent : option string) : ConversationNode :=
  {| id := i; name := "Question"; question := q; answer := a;
     answerSections := None; parentId := parent; childrenIds := [];
     context := []; timestamp := 0; position := {| x := 0; y := 0 |};
     isCollapsed := false; selectedSectionIndexFromParent := None |}.

Definition nodeA : ConversationNode := sampleNode "a" "first" "hello" None.
Definition nodeB : ConversationNode := sampleNode "b" "second" "world" (Some "a").

(** The store after a root [a] and its child [b] were added. *)
Definition worldAB : World :=
  addNode sampleEnv nodeB (addNode sampleEnv nodeA initialWorld).

(** A segmentation that returns the answer as its only section, which
    is what [parseAnswerIntoSections] does with a one-line answer
    without header or list marker. *)
Definition oneSection (a : string) : list AnswerSection :=
  [{| sectionId := "section-0"; text := a; index := 0 |}].

(** An update that names another parent. *)
Definition reparent (p : string) : NodeUpdates :=
  {| u_id := None; u_name := None; u_question := None; u_answer := None;
     u_answerSections := None; u_parentId := Some (Some p); u_childrenIds := None;
     u_context := None; u_timestamp := None; u_position := None;
     u_isCollapsed := None; u_selectedSectionIndexFromParent := None |}.

(** An update of the display state only, as [toggleCollapse] makes. *)
Definition collapse (b : bool) : NodeUpdates :=
  {| u_id := None; u_name := None; u_question := None; u_answer := None;
     u_answerSections := None; u_parentId := None; u_childrenIds := None;
     u_context := None; u_timestamp := None; u_position := None;
     u_isCollapsed := Some b; u_selectedSectionIndexFromParent := None |}.

Definition withSections (n : ConversationNode) (cached : option (list AnswerSection))
  : ConversationNode :=
  {| id := id n; name := name n; question := question n; answer := answer n;
     answerSections := cached; parentId := parentId n;
     childrenIds := childrenIds n; context := context n; timestamp := timestamp n;
     position := position n; isCollapsed := isCollapsed n;
     selectedSectionIndexFromParent := selectedSectionIndexFromParent n |}.

(** A node whose answer is cached as the sections [foo], [bar], [baz]. *)
Definition nodeFooBarBaz : ConversationNode :=
  withSections (sampleNode "c" "third" "foo bar baz" (Some "a"))
    (Some [ {| sectionId := "section-0"; text := "foo"; index := 0 |};
            {| sectionId := "section-1"; text := "bar"; index := 1 |};
            {| sectionId := "section-2"; text := "baz"; index := 2 |} ]).

(** A node whose cache of sections is present and empty. *)
Definition nodeEmptyCache : ConversationNode := withSections nodeA (Some []).

(** ** Import and export *)

(** [data.session.tree] when both [data.session] and it are truthy, which
    is what the validation of the import asks for. *)
Definition sessionTree (data : JsVal) : option JsVal :=
  match getProp data "session" with
  | Some importedSession =>
      if truthy importedSession then
        match getProp importedSession "tree" with
        | Some importedTree => if truthy importedTree then Some importedTree else None
        | None => None
        end
      else None
  | None => None
  end.

(** [importedSession.tree.nodes || []] *)
Definition nodesArrayIn (importedTree : JsVal) : JsVal :=
  jsOr (orElse (getProp importedTree "nodes") JUndefined) (JArr []).

(** [importSession(exportSession(sessionId))] *)
Definition roundTrip (env : Env) (sessionId : string) (w : World)
  : Outcome string * World :=
  match exportSession env sessionId w with
  | (Returned exported, w) => importSession env exported w
  | (Thrown message, w) => (Thrown message, w)
  end.

(** The session the sample store saves its tree under. *)
Definition sessionAB : string := "session-1700000000000-r1".




(** A node added under a parent that does not exist. *)
Definition orphan : ConversationNode := sampleNode "o" "lost" "found" (Some "ghost").

(** A root, a child under it, a change of its display state, and its
    deletion. *)
Definition sampleCalls : list Call :=
  [CallAddNode nodeA; CallAddNode nodeB; CallUpdateNode "b" (collapse true);
   CallDeleteNode "b"].

(** A node that names itself as its parent, and the tree [addNode]
    makes of it. *)
Definition selfParent : ConversationNode := sampleNode "s" "loop" "loop" (Some "s").

Definition cyclicTree : ConversationTree :=
  treeOf (addNode sampleEnv selfParent initialWorld).

(** The depths in the sample tree: [a] is a root, [b] its child. *)
Definition depthAB (k : string) : Z := if String.eqb k "b" then 1 else 0.

(* ------------------------------------------------------------------ *)
(** * The rest of the store, and its callers                           *)
(* ------------------------------------------------------------------ *)

(** [{ ...node, position: p }] *)
Definition withPosition (n : ConversationNode) (p : Position) : ConversationNode :=
  {| id := id n; name := name n; question := question n; answer := answer n;
     answerSections := answerSections n; parentId := parentId n;
     childrenIds := childrenIds n; context := context n; timestamp := timestamp n;
     position := p; isCollapsed := isCollapsed n;
     selectedSectionIndexFromParent := selectedSectionIndexFromParent n |}.

(** [getNode(id)] *)
Definition getNode (i : string) (w : World) : option ConversationNode :=
  JsMap.get (nodes (tree (store w))) i.

(** The loop of [getNodeChain]: [while (currentNodeId)] looks the node
    up, stops if there is none, puts it at the front of [chain] and goes
    on with its [parentId].  [fuel] bounds the number of rounds; [None]
    is a loop that did not end within it. *)
Fixpoint getNodeChainFrom (fuel : nat) (t : ConversationTree)
  (currentNodeId : option string) (chain : list ConversationNode)
  : option (list ConversationNode) :=
  match fuel with
  | O => None
  | S fuel =>
      match truthyId currentNodeId with
      | None => Some chain
      | Some i =>
          match JsMap.get (nodes t) i with
          | None => Some chain
          | Some node => getNodeChainFrom fuel t (parentId node) (node :: chain)
          end
      end
  end.

Definition getNodeChain (fuel : nat) (nodeId : string) (w : World)
  : option (list ConversationNode) :=
  getNodeChainFrom fuel (tree (store w)) (Some nodeId) [].

(** [buildPrompt(question, context)] ([src/utils/contextBuilder.ts]) *)
Definition buildPrompt (question context : string) : string :=
  if String.eqb context EmptyString then question
  else "Context from previous conversation:" +++ newline +++ context
       +++ blankLine +++ "Current question: " +++ question.

(** [question.trim()]: white space and line terminators are taken off
    both ends.  A string is read as the sequence of its code units, each
    below 256; among those the tab, the line feed, the vertical tab, the
    form feed, the carriage return, the space and the no-break space are
    taken off. *)
Definition isWhiteSpace (c : ascii) : bool :=
  existsb (Nat.eqb (nat_of_ascii c)) [9; 10; 11; 12; 13; 32; 160]%nat.

Fixpoint trimStart (s : string) : string :=
  match s with
  | EmptyString => EmptyString
  | String c rest => if isWhiteSpace c then trimStart rest else s
  end.

Fixpoint trimEnd (s : string) : string :=
  match s with
  | EmptyString => EmptyString
  | String c rest =>
      match trimEnd rest with
      | EmptyString => if isWhiteSpace c then EmptyString else String c EmptyString
      | kept => String c kept
      end
  end.

Definition trim (s : string) : string := trimEnd (trimStart s).

(** How the inference window makes its prompt (its [handleSubmit]).
    [Some None]: the handler returned at its guard, for a blank
    question, while a request is loading or without a configuration,
    and no prompt was made.  [Some (Some prompt)]: the parent node and
    its chain were read from the store when a parent id is set, the
    context was built from them and the prompt from the context.
    [None]: the loop of [getNodeChain] did not come back. *)
Definition promptFor {Config : Type} (segment : string -> list AnswerSection)
  (fuel : nat) (parentNodeId : option string) (selectedSectionIndex : option Z)
  (question : string) (isLoading : bool) (llmConfig : option Config) (w : World)
  : option (option string) :=
  if String.eqb (trim question) EmptyString
     || isLoading
     || match llmConfig with Some _ => false | None => true end
  then Some None
  else
    let parentNode :=
      match truthyId parentNodeId with
      | Some p => getNode p w
      | None => None
      end in
    let chain :=
      match truthyId parentNodeId with
      | Some p => getNodeChain fuel p w
      | None => Some []
      end in
    match chain with
    | None => None
    | Some chain =>
        let context := buildContext segment parentNode chain selectedSectionIndex in
        Some (Some (buildPrompt question context))
    end.

(** ** The conversation chains of the summary view

    [chains] of [SummaryView]: for each root id that the tree holds, the
    nodes that a depth-first walk along [childrenIds] comes to first,
    in the order it comes to them.  The set [processed] is shared by all
    the walks; it is kept as the list of its members in the order they
    were added. *)
Record ConversationChain := {
  chainNodes : list ConversationNode;   (* [nodes] *)
  rootNode : ConversationNode
}.

(** [processed.has(nodeId)] *)
Definition isProcessed (processed : list string) (nodeId : string) : bool :=
  existsb (String.eqb nodeId) processed.

(** [items.forEach(f)] for an [f] that works on a state and may not
    come back. *)
Fixpoint forEachOpt {A S : Type} (f : A -> S -> option S) (items : list A) (s : S)
  : option S :=
  match items with
  | [] => Some s
  | a :: rest =>
      match f a s with
      | Some s => forEachOpt f rest s
      | None => None
      end
  end.

(** [traverse(nodeId)], on the state [(processed, chain)]; [fuel] bounds
    the depth of the recursion. *)
Fixpoint traverse (fuel : nat) (t : ConversationTree) (nodeId : string)
  (state : list string * list ConversationNode)
  : option (list string * list ConversationNode) :=
  match fuel with
  | O => None
  | S fuel =>
      let (processed, chain) := state in
      if isProcessed processed nodeId then Some state
      else
        let processed := processed ++ [nodeId] in
        match JsMap.get (nodes t) nodeId with
        | None => Some (processed, chain)
        | Some node =>
            forEachOpt (traverse fuel t) (childrenIds node) (processed, chain ++ [node])
        end
  end.

(** The body of [tree.rootIds.forEach((rootId) => ...)], on the state
    [(processed, chains)]. *)
Definition chainsFrom (fuel : nat) (t : ConversationTree) (rootId : string)
  (state : list string * list ConversationChain)
  : option (list string * list ConversationChain) :=
  let (processed, chains) := state in
  match JsMap.get (nodes t) rootId with
  | None => Some state
  | Some rootNode =>
      match traverse fuel t rootId (processed, []) with
      | None => None
      | Some (processed, chain) =>
          Some (processed,
                if (0 <? List.length chain)%nat
                then chains ++ [{| chainNodes := chain; rootNode := rootNode |}]
                else chains)
      end
  end.

Definition chains (fuel : nat) (t : ConversationTree) : option (list ConversationChain) :=
  match forEachOpt (chainsFrom fuel t) (rootIds t) ([], []) with
  | Some (_, chains) => Some chains
  | None => None
  end.

(** The children of a node by the section they were spawned from, as the
    node component computes them ([sectionsWithChildren]): the set of
    the section indices in use, and the map from an index to the ids of
    the children spawned from it. *)
Fixpoint sectionsWithChildren (t : ConversationTree) (childrenIds : list string)
  (usedSections : list Z) (sectionToChildMap : JsMap.t Z (list string))
  : list Z * JsMap.t Z (list string) :=
  match childrenIds with
  | [] => (usedSections, sectionToChildMap)
  | childId :: rest =>
      match JsMap.get (nodes t) childId with
      | Some childNode =>
          match selectedSectionIndexFromParent childNode with
          | Some sectionIndex =>
              let usedSections :=
                if existsb (Z.eqb sectionIndex) usedSections then usedSections
                else usedSections ++ [sectionIndex] in
              let sectionToChildMap :=
                if JsMap.has sectionToChildMap sectionIndex then sectionToChildMap
                else JsMap.set sectionToChildMap sectionIndex [] in
              let sectionToChildMap :=
                JsMap.set sectionToChildMap sectionIndex
                  (orElse (JsMap.get sectionToChildMap sectionIndex) [] ++ [childId]) in
              sectionsWithChildren t rest usedSections sectionToChildMap
          | None => sectionsWithChildren t rest usedSections sectionToChildMap
          end
      | None => sectionsWithChildren t rest usedSections sectionToChildMap
      end
  end.

(** [sessions.sort((a, b) => b.updatedAt - a.updatedAt)]: the sort is
    stable, so a session goes before the first one that is not more
    recent than it. *)
Fixpoint insertByUpdatedAt (a : Session) (sorted : list Session) : list Session :=
  match sorted with
  | [] => [a]
  | b :: rest =>
      if updatedAt b <=? updatedAt a then a :: sorted
      else b :: insertByUpdatedAt a rest
  end.

Definition getSessionList (w : World) : list Session :=
  fold_right insertByUpdatedAt [] (map snd (sessions (store w))).

(** ** Values as nodes *)

(** The live tree is typed; a session holds values.  [loadSession] puts
    the values of a session into the live tree as they are.  Where they
    are the objects of nodes ([jsOfNode]) under string keys, what it
    leaves is a typed tree: [typedNode] reads a node back from the
    object it is, and from no other value.  Where they are not, what it
    leaves is given as the values themselves. *)
Definition andThen {A B} (o : option A) (f : A -> option B) : option B :=
  match o with Some a => f a | None => None end.

Notation "x <- e ;; k" := (andThen e (fun x => k))
  (at level 61, e at next level, right associativity).

Definition asString (v : JsVal) : option string :=
  match v with JStr s => Some s | _ => None end.

Definition asNumber (v : JsVal) : option Z :=
  match v with JNum n => Some n | _ => None end.

Definition asBool (v : JsVal) : option bool :=
  match v with JBool b => Some b | _ => None end.

Fixpoint allOf {A} (l : list (option A)) : option (list A) :=
  match l with
  | [] => Some []
  | o :: rest => a <- o ;; more <- allOf rest ;; Some (a :: more)
  end.

Definition asArrayOf {A} (f : JsVal -> option A) (v : JsVal) : option (list A) :=
  match v with JArr items => allOf (map f items) | _ => None end.

(** An optional property: left out, or of the given kind. *)
Definition asOptional {A} (f : JsVal -> option A) (v : JsVal) : option (option A) :=
  match v with
  | JUndefined => Some None
  | _ => a <- f v ;; Some (Some a)
  end.

Definition sectionOfJs (v : JsVal) : option AnswerSection :=
  match v with
  | JObj fields =>
      i <- asString (lookupField fields "id") ;;
      t <- asString (lookupField fields "text") ;;
      n <- asNumber (lookupField fields "index") ;;
      Some {| sectionId := i; text := t; index := n |}
  | _ => None
  end.

Definition positionOfJs (v : JsVal) : option Position :=
  match v with
  | JObj fields =>
      px <- asNumber (lookupField fields "x") ;;
      py <- asNumber (lookupField fields "y") ;;
      Some {| x := px; y := py |}
  | _ => None
  end.

Definition parentIdOfJs (v : JsVal) : option (option string) :=
  match v with
  | JNull => Some None
  | JStr p => Some (Some p)
  | _ => None
  end.

Definition nodeOfJs (v : JsVal) : option ConversationNode :=
  match v with
  | JObj fields =>
      i <- asString (lookupField fields "id") ;;
      n <- asString (lookupField fields "name") ;;
      q <- asString (lookupField fields "question") ;;
      a <- asString (lookupField fields "answer") ;;
      sections <- asOptional (asArrayOf sectionOfJs) (lookupField fields "answerSections") ;;
      parent <- parentIdOfJs (lookupField fields "parentId") ;;
      children <- asArrayOf asString (lookupField fields "childrenIds") ;;
      ctx <- asArrayOf asString (lookupField fields "context") ;;
      ts <- asNumber (lookupField fields "timestamp") ;;
      pos <- positionOfJs (lookupField fields "position") ;;
      collapsed <- asBool (lookupField fields "isCollapsed") ;;
      selected <- asOptional asNumber (lookupField fields "selectedSectionIndexFromParent") ;;
      Some {| id := i; name := n; question := q; answer := a;
              answerSections := sections; parentId := parent;
              childrenIds := children; context := ctx; timestamp := ts;
              position := pos; isCollapsed := collapsed;
              selectedSectionIndexFromParent := selected |}
  | _ => None
  end.

(** Two values are the same value, property by property and in the same
    order. *)
Fixpoint jsEqb (a b : JsVal) : bool :=
  match a, b with
  | JUndefined, JUndefined => true
  | JNull, JNull => true
  | JBool x, JBool y => Bool.eqb x y
  | JNum x, JNum y => x =? y
  | JStr x, JStr y => String.eqb x y
  | JArr xs, JArr ys =>
      (fix each (xs ys : list JsVal) : bool :=
         match xs, ys with
         | [], [] => true
         | x :: xs, y :: ys => jsEqb x y && each xs ys
         | _, _ => false
         end) xs ys
  | JObj xs, JObj ys =>
      (fix each (xs ys : list (string * JsVal)) : bool :=
         match xs, ys with
         | [], [] => true
         | (k, x) :: xs, (k', y) :: ys => String.eqb k k' && jsEqb x y && each xs ys
         | _, _ => false
         end) xs ys
  | JMap xs, JMap ys =>
      (fix each (xs ys : list (JsVal * JsVal)) : bool :=
         match xs, ys with
         | [], [] => true
         | (k, x) :: xs, (k', y) :: ys => jsEqb k k' && jsEqb x y && each xs ys
         | _, _ => false
         end) xs ys
  | _, _ => false
  end.

(** The node a value is the object of, if it is one. *)
Definition typedNode (v : JsVal) : option ConversationNode :=
  node <- nodeOfJs v ;;
  if jsEqb (jsOfNode node) v then Some node else None.

(** The entries of a map of values as entries of the node map: string
    keys, objects of nodes as values. *)
Fixpoint nodeEntries (entries : list (JsVal * JsVal))
  : option (JsMap.t string ConversationNode) :=
  match entries with
  | [] => Some []
  | (k, v) :: rest =>
      key <- asString k ;;
      node <- typedNode v ;;
      more <- nodeEntries rest ;;
      Some ((key, node) :: more)
  end.

(** [[...v]]: the items of an array, the characters of a string, the
    entries of a map; [None] is the [TypeError] of a value that is not
    iterable. *)
Definition spread (v : JsVal) : option (list JsVal) :=
  match v with
  | JArr items => Some items
  | JStr s => Some (map (fun c => JStr (String c EmptyString)) (list_ascii_of_string s))
  | JMap entries => Some (map (fun e => JArr [fst e; snd e]) entries)
  | _ => None
  end.

(** What [loadSession] leaves behind.  [LoadedTree w]: it returned, and
    the store is [w].  [LoadedAsIs entries roots w]: it returned, and the
    store is [w] but for its tree, which now has the map [entries] as
    its [nodes] and the array [roots] as its [rootIds], values that are
    not those of a typed tree.  [LoadThrown w]: a [TypeError] was thrown
    (the stored nodes cannot be made a map, or the stored root ids
    cannot be spread), and the store is [w]. *)
Inductive Loaded :=
| LoadedTree (w : World)
| LoadedAsIs (entries : list (JsVal * JsVal)) (roots : list JsVal) (w : World)
| LoadThrown (w : World).

(** The active id and the sessions after [loadSession], whatever it left. *)
Definition storeAfter (l : Loaded) : World :=
  match l with
  | LoadedTree w | LoadedAsIs _ _ w | LoadThrown w => w
  end.

(** What [saveCurrentSession] stores for a tree. *)
Definition storedImage (t : ConversationTree) : StoredTree :=
  {| storedNodes := JArr (map (fun e => JArr [JStr (fst e); jsOfNode (snd e)]) (nodes t));
     storedRootIds := jsOfStrings (rootIds t) |}.

(** The document [exportSession] serializes. *)
Definition exportDocument (session : Session) (nodesArray : JsVal) (exportedAt : Z)
  : JsVal :=
  JObj [("version", JStr "1.0");
        ("exportedAt", JNum exportedAt);
        ("session",
         JObj [("id", JStr (s_id session));
               ("name", s_name session);
               ("createdAt", createdAt session);
               ("updatedAt", JNum (updatedAt session));
               ("tree",
                JObj [("nodes", nodesArray);
                      ("rootIds", storedRootIds (s_tree session))])])].

Section StoreRest.
Variable env : Env.

(** [toggleCollapse(id)] *)
Definition toggleCollapse (i : string) (w : World) : World :=
  match JsMap.get (nodes (tree (store w))) i with
  | Some node => updateNode env i (collapse (negb (isCollapsed node))) w
  | None => w
  end.

(** [clearAll()] *)
Definition clearAll (w : World) : World :=
  saveToStorage env
    (setState (onlyTree {| nodes := JsMap.empty; rootIds := [] |}) w).

(** [renameSession(sessionId, newName)] *)
Definition renameSession (sessionId newName : string) (w : World) : World :=
  let state := store w in
  match JsMap.get (sessions state) sessionId with
  | Some session =>
      let (now, w) := reading env Date_now w in
      let updatedSession :=
        {| s_id := s_id session; s_name := JStr newName;
           createdAt := createdAt session; updatedAt := now;
           s_tree := s_tree session |} in
      let newSessions := JsMap.set (sessions state) sessionId updatedSession in
      setState (onlySessions newSessions) w
  | None => w
  end.

(** [positions.forEach((position, nodeId) => ...)] of [applyAutoLayout] *)
Definition applyPositions (positions : JsMap.t string Position)
  (newNodes : JsMap.t string ConversationNode) : JsMap.t string ConversationNode :=
  fold_left
    (fun newNodes entry =>
       match JsMap.get newNodes (fst entry) with
       | Some node => JsMap.set newNodes (fst entry) (withPosition node (snd entry))
       | None => newNodes
       end)
    positions newNodes.

(** [applyAutoLayout()]; [fuel] is the one of [calculateAutoLayout]. *)
Definition applyAutoLayout (fuel : nat) (w : World) : option World :=
  let state := store w in
  match calculateAutoLayout fuel (tree state) with
  | None => None
  | Some positions =>
      let newNodes := applyPositions positions (nodes (tree state)) in
      let w := setState (onlyTree {| nodes := newNodes; rootIds := rootIds (tree state) |}) w in
      Some (saveToStorage env w)
  end.

(** [loadSession(sessionId)].  Both branches of its [instanceof Map] test
    make a new map of the stored nodes; the root ids are spread into a
    new array; then the tree and the active id are set.  For an id that
    is not stored nothing is done.  The write of the active id to the
    browser's storage is left out, as all the writes to it are. *)
Definition loadSession (sessionId : string) (w : World) : Loaded :=
  let state := store w in
  match JsMap.get (sessions state) sessionId with
  | None => LoadedTree w
  | Some session =>
      let w :=
        match truthyId (currentSessionId state) with
        | Some _ =>
            if (0 <? JsMap.size (nodes (tree state)))%nat
            then snd (saveCurrentSession env None w) else w
        | None => w
        end in
      match newMap (storedNodes (s_tree session)) with
      | None => LoadThrown w
      | Some entries =>
          match spread (storedRootIds (s_tree session)) with
          | None => LoadThrown w
          | Some roots =>
              match nodeEntries entries, allOf (map asString roots) with
              | Some loaded, Some rootIds =>
                  LoadedTree
                    (setState {| p_tree := Some {| nodes := loaded; rootIds := rootIds |};
                                 p_currentSessionId := Some (Some sessionId);
                                 p_sessions := None |} w)
              | _, _ =>
                  LoadedAsIs entries roots
                    (setState {| p_tree := None;
                                 p_currentSessionId := Some (Some sessionId);
                                 p_sessions := None |} w)
              end
          end
      end
  end.

End StoreRest.

(** ** More vocabulary *)

(** [linked parent chain]: the first node of [chain] has [parent] as its
    [parentId], and each further node the id of the one before it. *)
Fixpoint linked (parent : option string) (chain : list ConversationNode) : Prop :=
  match chain with
  | [] => True
  | a :: rest => parentId a = parent /\ linked (Some (id a)) rest
  end.

(** The session that is active is stored, and holds the live tree. *)
Definition mirrored (w : World) : Prop :=
  exists sessionId session,
    currentSessionId (store w) = Some sessionId /\
    sessionAt w sessionId = Some session /\
    s_tree session = storedImage (treeOf w).

(** The session that is active is stored. *)
Definition activeRegistered (w : World) : Prop :=
  exists sessionId session,
    currentSessionId (store w) = Some sessionId /\
    sessionAt w sessionId = Some session.

(** No two keys of the entries are the same key of a [Map]. *)
Fixpoint distinctKeys (entries : list (JsVal * JsVal)) : Prop :=
  match entries with
  | [] => True
  | (k, _) :: rest =>
      (forall k' v', In (k', v') rest -> sameValueZero k k' = false) /\
      distinctKeys rest
  end.

(** An object with a name. *)
Definition namedObject (v : JsVal) : Prop :=
  exists fields, v = JObj fields /\ truthy (lookupField fields "name") = true.

(** The children of [childrenIds] that the tree holds and that were
    spawned from the section [sectionIndex]. *)
Definition spawnedFrom (t : ConversationTree) (childrenIds : list string)
  (sectionIndex : Z) : list string :=
  filter
    (fun childId =>
       match nodeAt t childId with
       | Some childNode =>
           match selectedSectionIndexFromParent childNode with
           | Some i => i =? sectionIndex
           | None => false
           end
       | None => false
       end)
    childrenIds.

(** What the loop of [sectionsWithChildren] has after the children
    [seen]: every section index in use once, and under each index the
    children spawned from it, in order, and no empty entry. *)
Definition sectionsOk (t : ConversationTree) (seen : list string)
  (usedSections : list Z) (sectionToChildMap : JsMap.t Z (list string)) : Prop :=
  NoDup usedSections /\
  forall i,
    JsMap.get sectionToChildMap i =
      match spawnedFrom t seen i with
      | [] => None
      | spawned => Some spawned
      end /\
    (In i usedSections <-> spawnedFrom t seen i <> []).

(** How [backfillNames] leaves an entry: the key and every property but
    [name] are as before, a value that had a name is as before, and an
    object has a name. *)
Definition backfilled (before after : JsVal * JsVal) : Prop :=
  fst after = fst before /\
  (forall p, p <> "name" -> getProp (snd after) p = getProp (snd before) p) /\
  (forall current, getProp (snd before) "name" = Some current -> truthy current = true ->
     snd after = snd before) /\
  (forall fields, snd after = JObj fields -> truthy (lookupField fields "name") = true).

(** A document whose session has one node, a root without a name. *)
Definition documentUnnamed : JsVal :=
  JObj [("session",
         JObj [("tree",
                JObj [("nodes",
                       JArr [JArr [JStr "a";
                                   JObj [("id", JStr "a"); ("parentId", JNull)]]])])])].

(** The nodes the tree holds under the ids, in their order. *)
Definition nodesOf (t : ConversationTree) (ids : list string) : list ConversationNode :=
  flat_map (fun k => match nodeAt t k with Some n => [n] | None => [] end) ids.

(** The children of every processed node are processed, but for the
    nodes of [pending], whose children the walk is still at. *)
Definition closedExcept (t : ConversationTree) (pending processed : list string) : Prop :=
  forall p pn c,
    In p processed -> ~ In p pending -> nodeAt t p = Some pn -> In c (childrenIds pn) ->
    In c processed.

(** The number of the ids of the tree that are not processed. *)
Definition unseen (t : ConversationTree) (processed : list string) : nat :=
  List.length (filter (fun k => negb (isProcessed processed k)) (nodeIds t)).

(** The sample store after its session was exported and the export
    imported, and the id the import registered. *)
Definition worldRoundTrip : World := snd (roundTrip sampleEnv sessionAB worldAB).

Definition sessionRoundTrip : string := "session-1700000000008-r9".

(** A store with a session that holds its nodes as a map: the sample
    store, into which an empty document was imported. *)
Definition sessionOfMap : Session :=
  {| s_id := "stored"; s_name := JStr "kept"; createdAt := JNum 1; updatedAt := 2;
     s_tree := {| storedNodes := JMap [(JStr "a", jsOfNode nodeA)];
                  storedRootIds := JArr [JStr "a"] |} |}.

Definition worldWithMap : World :=
  {| store := {| tree := initialTree; currentSessionId := None;
                 sessions := [("stored", sessionOfMap)] |};
     readings := 0 |}.

(* ------------------------------------------------------------------ *)
(** * Facts about maps                                                 *)
(* ------------------------------------------------------------------ *)

Section MapFacts.
Context {K V : Type} `{KeyEq K}.
Implicit Types (m : JsMap.t K V) (k : K) (v : V).

Lemma keyb_true a b : keyb a b = true <-> a = b.
Proof. destruct (keyb_spec a b); split; congruence. Qed.

Lemma keyb_false a b : keyb a b = false <-> a <> b.
Proof. destruct (keyb_spec a b); split; congruence. Qed.

Lemma keyb_same a : keyb a a = true.
Proof. now apply keyb_true. Qed.

Lemma get_set_same m k v : JsMap.get (JsMap.set m k v) k = Some v.
Proof.
  induction m as [|[k' v'] m IH]; simpl.
  - now rewrite keyb_same.
  - destruct (keyb_spec k' k) as [->|ne]; simpl.
    + now rewrite keyb_same.
    + apply keyb_false in ne. now rewrite ne.
Qed.

Lemma get_set_other m k v k' :
  k <> k' -> JsMap.get (JsMap.set m k v) k' = JsMap.get m k'.
Proof.
  intros ne. induction m as [|[k0 v0] m IH]; simpl.
  - apply keyb_false in ne. now rewrite ne.
  - destruct (keyb_spec k0 k) as [->|ne0]; simpl.
    + apply keyb_false in ne. now rewrite ne.
    + now rewrite IH.
Qed.

Lemma get_set m k v k' :
  JsMap.get (JsMap.set m k v) k' = if keyb k k' then Some v else JsMap.get m k'.
Proof.
  destruct (keyb_spec k k') as [<-|ne].
  - apply get_set_same.
  - now apply get_set_other.
Qed.

Lemma get_delete_same m k : JsMap.get (JsMap.delete m k) k = None.
Proof.
  induction m as [|[k' v'] m IH]; simpl; [reflexivity|].
  destruct (keyb k' k) eqn:e; simpl; [assumption|]. now rewrite e.
Qed.

Lemma get_delete_other m k k' :
  k <> k' -> JsMap.get (JsMap.delete m k) k' = JsMap.get m k'.
Proof.
  intros ne. induction m as [|[k0 v0] m IH]; simpl; [reflexivity|].
  destruct (keyb_spec k0 k) as [->|ne0]; simpl.
  - apply keyb_false in ne. now rewrite ne.
  - now rewrite IH.
Qed.

Lemma get_delete m k k' :
  JsMap.get (JsMap.delete m k) k' = if keyb k k' then None else JsMap.get m k'.
Proof.
  destruct (keyb_spec k k') as [<-|ne].
  - apply get_delete_same.
  - now apply get_delete_other.
Qed.

Lemma get_some_in_keys m k v : JsMap.get m k = Some v -> In k (JsMap.keys m).
Proof.
  induction m as [|[k' v'] m IH]; simpl; [discriminate|].
  destruct (keyb_spec k' k) as [->|ne]; intros e; [now left | right; auto].
Qed.

Lemma in_keys_get m k : In k (JsMap.keys m) -> exists v, JsMap.get m k = Some v.
Proof.
  induction m as [|[k' v'] m IH]; simpl; [contradiction|].
  intros [->|i].
  - rewrite keyb_same. eauto.
  - destruct (keyb k' k); eauto.
Qed.

Lemma get_none_not_in_keys m k : JsMap.get m k = None <-> ~ In k (JsMap.keys m).
Proof.
  split.
  - intros e i. apply in_keys_get in i as [v e']. congruence.
  - intros ni. destruct (JsMap.get m k) eqn:e; [|reflexivity].
    apply get_some_in_keys in e. contradiction.
Qed.

Lemma keys_set_present m k v :
  In k (JsMap.keys m) -> JsMap.keys (JsMap.set m k v) = JsMap.keys m.
Proof.
  induction m as [|[k' v'] m IH]; simpl; [contradiction|].
  destruct (keyb_spec k' k) as [->|ne]; simpl; [reflexivity|].
  intros [e|i]; [contradiction|]. f_equal. now apply IH.
Qed.

Lemma keys_set_absent m k v :
  ~ In k (JsMap.keys m) -> JsMap.keys (JsMap.set m k v) = JsMap.keys m ++ [k].
Proof.
  induction m as [|[k' v'] m IH]; simpl; [reflexivity|].
  intros ni. destruct (keyb_spec k' k) as [->|ne]; simpl.
  - exfalso. apply ni. now left.
  - f_equal. apply IH. intros i. apply ni. now right.
Qed.

Lemma keys_set m k v :
  JsMap.keys (JsMap.set m k v) =
  if JsMap.has m k then JsMap.keys m else JsMap.keys m ++ [k].
Proof.
  unfold JsMap.has. destruct (JsMap.get m k) eqn:e.
  - apply keys_set_present. eapply get_some_in_keys; eauto.
  - apply keys_set_absent. now apply get_none_not_in_keys.
Qed.

Lemma in_keys_set m k v k' :
  In k' (JsMap.keys (JsMap.set m k v)) <-> k' = k \/ In k' (JsMap.keys m).
Proof.
  rewrite keys_set. unfold JsMap.has.
  destruct (JsMap.get m k) eqn:e.
  - apply get_some_in_keys in e. split; [auto|]. intros [->|i]; auto.
  - rewrite in_app_iff. simpl. intuition.
Qed.

Lemma NoDup_keys_set m k v :
  NoDup (JsMap.keys m) -> NoDup (JsMap.keys (JsMap.set m k v)).
Proof.
  intros nd. rewrite keys_set. unfold JsMap.has.
  destruct (JsMap.get m k) eqn:e; [assumption|].
  apply get_none_not_in_keys in e.
  apply NoDup_app; [assumption| repeat constructor; auto |].
  intros a ia [<-|[]]. contradiction.
Qed.

Lemma keys_delete m k :
  JsMap.keys (JsMap.delete m k) = filter (fun k' => negb (keyb k' k)) (JsMap.keys m).
Proof.
  induction m as [|[k' v'] m IH]; simpl; [reflexivity|].
  destruct (keyb k' k); simpl; [assumption|]. now f_equal.
Qed.

Lemma NoDup_keys_delete m k :
  NoDup (JsMap.keys m) -> NoDup (JsMap.keys (JsMap.delete m k)).
Proof. intros nd. rewrite keys_delete. now apply NoDup_filter. Qed.

Lemma in_keys_delete m k k' :
  In k' (JsMap.keys (JsMap.delete m k)) <-> k' <> k /\ In k' (JsMap.keys m).
Proof.
  rewrite keys_delete, filter_In, negb_true_iff, keyb_false. tauto.
Qed.

End MapFacts.

(* ------------------------------------------------------------------ *)
(** * What each call does to the tree                                  *)
(* ------------------------------------------------------------------ *)

Section TreeOfCalls.
Variable env : Env.

Lemma tree_saveCurrentSession name w :
  treeOf (snd (saveCurrentSession env name w)) = treeOf w.
Proof.
  unfold saveCurrentSession, newSessionIdentifier, reading, treeOf.
  destruct (truthyId (currentSessionId (store w)));
    destruct (truthyId name); simpl;
    repeat match goal with
           | |- context [match ?o with Some _ => _ | None => _ end] => destruct o; simpl
           | |- context [if ?b then _ else _] => destruct b; simpl
           end; reflexivity.
Qed.

Lemma tree_saveToStorage w : treeOf (saveToStorage env w) = treeOf w.
Proof. apply tree_saveCurrentSession. Qed.

Lemma tree_addNode node w :
  treeOf (addNode env node w) = addNodeTree node (treeOf w).
Proof. unfold addNode. now rewrite tree_saveToStorage. Qed.

Lemma tree_updateNode i updates w :
  treeOf (updateNode env i updates w) = updateNodeTree i updates (treeOf w).
Proof.
  unfold updateNode, updateNodeTree. rewrite tree_saveToStorage.
  unfold treeOf. now destruct (JsMap.get (nodes (tree (store w))) i).
Qed.

(** The tree [deleteNode] leaves is the one its updater computed from
    the state it started in: what the nested calls did to the tree is
    overwritten. *)
Lemma tree_deleteNode fuel i w w' :
  deleteNode env fuel i w = Some w' ->
  treeOf w' =
  match nodeAt (treeOf w) i with
  | Some node => deleteNodeTree i node (treeOf w)
  | None => treeOf w
  end.
Proof.
  destruct fuel as [|fuel]; simpl; [discriminate|].
  unfold nodeAt. change (tree (store w)) with (treeOf w).
  destruct (JsMap.get (nodes (treeOf w)) i) as [node|].
  - destruct (fold_left _ (childrenIds node) (Some w)) as [w1|]; [|discriminate].
    intros [= <-]. now rewrite tree_saveToStorage.
  - intros [= <-]. rewrite tree_saveToStorage. reflexivity.
Qed.

(** A node without children is deleted with one unit of fuel. *)
Lemma deleteNode_leaf fuel i w :
  (forall n, nodeAt (treeOf w) i = Some n -> childrenIds n = []) ->
  exists w', deleteNode env (S fuel) i w = Some w'.
Proof.
  intros leaf. simpl. unfold nodeAt, treeOf in leaf.
  destruct (JsMap.get (nodes (tree (store w))) i) as [node|]; [|eauto].
  rewrite (leaf node eq_refl). simpl. eauto.
Qed.

End TreeOfCalls.

(* ------------------------------------------------------------------ *)
(** * Tree store                                                       *)
(* ------------------------------------------------------------------ *)

Lemma nodeAt_addNodeTree_self node t :
  exists stored,
    nodeAt (addNodeTree node t) (id node) = Some stored /\
    (stored = node \/
     stored = withChildren node (childrenIds node ++ [id node])).
Proof.
  unfold addNodeTree, nodeAt.
  destruct (truthyId (parentId node)) as [p|]; simpl.
  - destruct (String.eqb_spec (id node) p) as [<-|ne].
    + rewrite get_set_same. rewrite get_set_same. eauto.
    + rewrite get_set_other by exact ne.
      destruct (JsMap.get (nodes t) p) as [parent|].
      * rewrite get_set_other by congruence. rewrite get_set_same. eauto.
      * rewrite get_set_same. eauto.
  - rewrite get_set_same. eauto.
Qed.

Lemma keys_addNodeTree_existing node t old :
  nodeAt t (id node) = Some old ->
  JsMap.keys (nodes (addNodeTree node t)) = JsMap.keys (nodes t).
Proof.
  unfold addNodeTree, nodeAt. intros present.
  assert (keys1 : JsMap.keys (JsMap.set (nodes t) (id node) node) = JsMap.keys (nodes t)).
  { apply keys_set_present. eapply get_some_in_keys; eauto. }
  destruct (truthyId (parentId node)) as [p|]; simpl; [|assumption].
  destruct (JsMap.get (JsMap.set (nodes t) (id node) node) p) eqn:e; [|assumption].
  rewrite keys_set_present; [assumption|]. eapply get_some_in_keys; eauto.
Qed.

(** C10. When [addNode] is called with a node whose id the tree already
    holds, the node mapping keeps its keys and now holds the new node
    under that id (with its own id among its children if it names itself
    as its parent); when the new node has no parent ([null]) its id is
    appended to the root sequence once more, so that an id that was a
    root is in the sequence twice. *)
Theorem addNode_existing_id env node w old :
  nodeAt (treeOf w) (id node) = Some old ->
  let t' := treeOf (addNode env node w) in
  JsMap.keys (nodes t') = JsMap.keys (nodes (treeOf w)) /\
  (exists stored,
     nodeAt t' (id node) = Some stored /\
     (stored = node \/
      stored = withChildren node (childrenIds node ++ [id node]))) /\
  (parentId node = None ->
     nodeAt t' (id node) = Some node /\
     rootIds t' = rootIds (treeOf w) ++ [id node] /\
     (In (id node) (rootIds (treeOf w)) -> ~ NoDup (rootIds t'))).
Proof.
  intros present t'. subst t'. rewrite tree_addNode.
  split; [eapply keys_addNodeTree_existing; eauto|].
  split; [apply nodeAt_addNodeTree_self|].
  intros root. unfold addNodeTree, nodeAt. rewrite root. simpl.
  rewrite get_set_same. repeat split.
  intros already nd. apply NoDup_remove_2 in nd. rewrite app_nil_r in nd.
  contradiction.
Qed.

Lemma addNode_existing_id_witness :
  nodeAt (treeOf (addNode sampleEnv nodeA initialWorld)) (id nodeA) = Some nodeA /\
  rootIds (treeOf (addNode sampleEnv nodeA (addNode sampleEnv nodeA initialWorld)))
  = ["a"; "a"].
Proof.
  split; [reflexivity|].
  destruct (addNode_existing_id sampleEnv nodeA
              (addNode sampleEnv nodeA initialWorld) nodeA eq_refl)
    as (_ & _ & roots).
  destruct (roots eq_refl) as (_ & appended & _).
  rewrite appended. reflexivity.
Defined.

(** C3 (as the code has it). [updateNode] merges every field the update
    carries into the node, the structural ones included: the node's
    [id], [parentId] and [childrenIds] keep their values when the update
    does not carry them, and take the carried value when it does, as
    every other field does; every other node and the root sequence are
    left as they were; for an unknown id the whole tree is unchanged. *)
Theorem updateNode_structural_fields env i updates w :
  let t := treeOf w in
  let t' := treeOf (updateNode env i updates w) in
  (forall node, nodeAt t i = Some node ->
     nodeAt t' i = Some (mergeNode node updates) /\
     (u_id updates = None -> id (mergeNode node updates) = id node) /\
     (u_parentId updates = None -> parentId (mergeNode node updates) = parentId node) /\
     (u_childrenIds updates = None ->
        childrenIds (mergeNode node updates) = childrenIds node) /\
     (forall k, k <> i -> nodeAt t' k = nodeAt t k) /\
     rootIds t' = rootIds t /\
     (forall carried, u_id updates = Some carried ->
        id (mergeNode node updates) = carried) /\
     (forall carried, u_parentId updates = Some carried ->
        parentId (mergeNode node updates) = carried) /\
     (forall carried, u_childrenIds updates = Some carried ->
        childrenIds (mergeNode node updates) = carried) /\
     exists node',
       nodeAt t' i = Some node' /\
       id node' = orElse (u_id updates) (id node) /\
       parentId node' = orElse (u_parentId updates) (parentId node) /\
       childrenIds node' = orElse (u_childrenIds updates) (childrenIds node) /\
       name node' = orElse (u_name updates) (name node) /\
       question node' = orElse (u_question updates) (question node) /\
       answer node' = orElse (u_answer updates) (answer node) /\
       answerSections node' = orElse (u_answerSections updates) (answerSections node) /\
       context node' = orElse (u_context updates) (context node) /\
       timestamp node' = orElse (u_timestamp updates) (timestamp node) /\
       position node' = orElse (u_position updates) (position node) /\
       isCollapsed node' = orElse (u_isCollapsed updates) (isCollapsed node) /\
       selectedSectionIndexFromParent node' =
         orElse (u_selectedSectionIndexFromParent updates)
                (selectedSectionIndexFromParent node)) /\
  (nodeAt t i = None -> t' = t).
Proof.
  intros t t'. subst t t'. rewrite tree_updateNode. unfold updateNodeTree, nodeAt.
  split.
  - intros node present. rewrite present. simpl. rewrite get_set_same.
    split; [reflexivity|].
    split; [intros e; now rewrite e|].
    split; [intros e; now rewrite e|].
    split; [intros e; now rewrite e|].
    split; [intros k ne; apply get_set_other; congruence|].
    split; [reflexivity|].
    split; [intros carried e; now rewrite e|].
    split; [intros carried e; now rewrite e|].
    split; [intros carried e; now rewrite e|].
    exists (mergeNode node updates). repeat split.
  - intros absent. now rewrite absent.
Qed.

Lemma updateNode_structural_fields_witness :
  nodeAt (treeOf worldAB) "b" = Some (withChildren nodeB []) /\
  parentId (mergeNode (withChildren nodeB []) (collapse true)) = Some "a" /\
  (exists collapsed,
     nodeAt (treeOf (updateNode sampleEnv "b" (collapse true) worldAB)) "b"
       = Some collapsed /\
     isCollapsed collapsed = true /\ parentId collapsed = Some "a" /\
     id collapsed = "b" /\ childrenIds collapsed = []) /\
  (exists moved,
     nodeAt (treeOf (updateNode sampleEnv "b" (reparent "ghost") worldAB)) "b"
       = Some moved /\
     parentId moved = Some "ghost" /\ id moved = "b" /\ isCollapsed moved = false).
Proof.
  split; [reflexivity|].
  destruct (updateNode_structural_fields sampleEnv "b" (collapse true) worldAB)
    as (known & _).
  destruct (known (withChildren nodeB []) eq_refl)
    as (_ & _ & same & _ & _ & _ & _ & _ & _ & collapsed & held & sameId & sameParent &
        sameChildren & _ & _ & _ & _ & _ & _ & _ & flag & _).
  split; [rewrite (same eq_refl); reflexivity|]. split.
  - exists collapsed. split; [exact held|]. split; [exact flag|].
    split; [exact sameParent|]. split; [exact sameId | exact sameChildren].
  - destruct (updateNode_structural_fields sampleEnv "b" (reparent "ghost") worldAB)
      as (known' & _).
    destruct (known' (withChildren nodeB []) eq_refl)
      as (_ & _ & _ & _ & _ & _ & _ & _ & _ & moved & held' & sameId' & newParent &
          _ & _ & _ & _ & _ & _ & _ & _ & flag' & _).
    exists moved. split; [exact held'|]. split; [exact newParent|].
    split; [exact sameId' | exact flag'].
Defined.

(** C3 as the specification states it fails: an update that carries
    [parentId] changes the parent of the node. *)
Lemma updateNode_changes_parentId :
  exists before after,
    nodeAt (treeOf worldAB) "b" = Some before /\
    nodeAt (treeOf (updateNode sampleEnv "b" (reparent "ghost") worldAB)) "b"
      = Some after /\
    parentId before = Some "a" /\ parentId after = Some "ghost" /\
    parentId after <> parentId before.
Proof.
  eexists; eexists. repeat split; try reflexivity. discriminate.
Qed.

(** C1 (what the code does instead). [deleteNode] removes the node
    itself and nothing below it: a child of the deleted node that the
    tree held is still held afterwards, and its [parentId] still names
    the id that was removed. *)
Theorem deleteNode_keeps_children env fuel i w w' node c child :
  deleteNode env fuel i w = Some w' ->
  nodeAt (treeOf w) i = Some node ->
  In c (childrenIds node) -> c <> i ->
  nodeAt (treeOf w) c = Some child -> parentId child = Some i ->
  nodeAt (treeOf w') i = None /\
  exists child', nodeAt (treeOf w') c = Some child' /\ parentId child' = Some i.
Proof.
  intros run present _ ne held link.
  rewrite (tree_deleteNode _ _ _ _ _ run), present.
  unfold deleteNodeTree, nodeAt in *. simpl.
  destruct (truthyId (parentId node)) as [p|].
  - destruct (JsMap.get (JsMap.delete (nodes (treeOf w)) i) p) as [parent|] eqn:e.
    + assert (p <> i).
      { intros ->. rewrite get_delete_same in e. discriminate. }
      split.
      * rewrite get_set_other by assumption. apply get_delete_same.
      * destruct (String.eqb_spec p c) as [->|pc].
        -- rewrite get_set_same. rewrite get_delete_other in e by congruence.
           rewrite held in e. injection e as <-. eexists. split; [reflexivity|].
           exact link.
        -- rewrite get_set_other by assumption.
           rewrite get_delete_other by congruence. eauto.
    + split; [apply get_delete_same|].
      rewrite get_delete_other by congruence. eauto.
  - split; [apply get_delete_same|].
    rewrite get_delete_other by congruence. eauto.
Qed.

Lemma deleteNode_keeps_children_witness :
  exists w',
    deleteNode sampleEnv 2 "a" worldAB = Some w' /\
    nodeAt (treeOf w') "a" = None /\
    exists child', nodeAt (treeOf w') "b" = Some child' /\ parentId child' = Some "a".
Proof.
  destruct (deleteNode sampleEnv 2 "a" worldAB) as [w'|] eqn:run;
    [|vm_compute in run; discriminate].
  exists w'. split; [reflexivity|].
  apply (deleteNode_keeps_children sampleEnv 2 "a" worldAB w'
           (withChildren nodeA ["b"]) "b" (withChildren nodeB []) run).
  - reflexivity.
  - simpl. auto.
  - discriminate.
  - reflexivity.
  - reflexivity.
Defined.

(* ------------------------------------------------------------------ *)
(** * Context builder                                                  *)
(* ------------------------------------------------------------------ *)

Section Context.
Variable segment : string -> list AnswerSection.

Lemma chainNodeParts_earlier len sel n i :
  (S i < len)%nat -> chainNodeParts segment len sel n i = fullExchange n.
Proof.
  intros lt. unfold chainNodeParts.
  replace (Nat.eqb i (len - 1)) with false; [reflexivity|].
  symmetry. apply Nat.eqb_neq. lia.
Qed.

Lemma chainNodeParts_no_selection len n i :
  chainNodeParts segment len None n i = fullExchange n.
Proof. unfold chainNodeParts. now destruct (Nat.eqb i (len - 1)). Qed.

Lemma chainParts_split len sel earlier lastNode i :
  len = (i + List.length earlier + 1)%nat ->
  chainParts segment len sel (earlier ++ [lastNode]) i =
  flat_map fullExchange earlier
  ++ chainNodeParts segment len sel lastNode (len - 1).
Proof.
  revert i. induction earlier as [|n earlier IH]; intros i e;
    cbn [app chainParts flat_map]; simpl List.length in e.
  - rewrite app_nil_r. replace (len - 1)%nat with i by lia. reflexivity.
  - rewrite chainNodeParts_earlier by lia.
    rewrite IH by lia. now rewrite app_assoc.
Qed.

Lemma chainParts_no_selection len chain i :
  chainParts segment len None chain i = flat_map fullExchange chain.
Proof.
  revert i. induction chain as [|n chain IH]; intros i;
    cbn [chainParts flat_map]; [reflexivity|].
  now rewrite chainNodeParts_no_selection, IH.
Qed.

Lemma buildContext_full_chain parentNode earlier lastNode sel :
  buildContext segment parentNode (earlier ++ [lastNode]) (Some sel) =
  String.concat blankLine
    (flat_map fullExchange earlier
     ++ chainNodeParts segment (List.length earlier + 1) (Some sel) lastNode
          (List.length earlier)).
Proof.
  unfold buildContext.
  destruct (earlier ++ [lastNode]) as [|first rest] eqn:e.
  - now destruct earlier.
  - replace (match parentNode with Some _ => false | None => false end) with false
      by now destruct parentNode.
    rewrite <- e, length_app. simpl List.length.
    rewrite chainParts_split by lia.
    do 3 f_equal. lia.
Qed.

(** C4. For a parent node that has a parent itself, a chain that is not
    empty and no selected section, the context is the question/answer
    pair of the last node of the chain, whatever precedes it; for a
    parent node without parent and the chain [[A]] it is the
    question and the answer of [A] in full; for the empty chain it is
    the empty string. *)
Theorem buildContext_restriction :
  (forall parentNode earlier lastNode,
     parentId parentNode <> None ->
     buildContext segment (Some parentNode) (earlier ++ [lastNode]) None =
     "Q: " +++ question lastNode +++ blankLine +++ "A: " +++ answer lastNode) /\
  (forall parentNode A,
     parentId parentNode = None ->
     buildContext segment (Some parentNode) [A] None =
     "Q: " +++ question A +++ blankLine +++ "A: " +++ answer A) /\
  (forall parentNode sel, buildContext segment parentNode [] sel = EmptyString).
Proof.
  split; [|split].
  - intros parentNode earlier lastNode hasParent. unfold buildContext.
    destruct (earlier ++ [lastNode]) as [|first rest] eqn:e.
    + now destruct earlier.
    + destruct (parentId parentNode); [|contradiction].
      assert (lastIs : List.last rest first = lastNode).
      { destruct earlier as [|n earlier]; simpl in e.
        - now injection e as <- <-.
        - injection e as <- <-. apply last_last. }
      rewrite lastIs. reflexivity.
  - intros parentNode A root. unfold buildContext. rewrite root. reflexivity.
  - reflexivity.
Qed.

(** C5 (as the code has it). With a selected section index the whole
    chain is rendered: every node before the last contributes its
    question and answer in full, in the order of the chain; for the last
    node the index is looked up in its cached sections, or in the
    segmentation of its answer when the cache is absent or empty: an
    index within range puts the text of that section in place of the
    answer, an index out of range leaves the answer in full. *)
Theorem buildContext_section_selection parentNode earlier lastNode sel :
  let rendered := buildContext segment parentNode (earlier ++ [lastNode]) (Some sel) in
  let sections := sectionsOf segment lastNode in
  (forall s,
     0 <= sel < Z.of_nat (List.length sections) ->
     nth_error sections (Z.to_nat sel) = Some s ->
     rendered =
     String.concat blankLine
       (flat_map fullExchange earlier
        ++ ["Q: " +++ question lastNode; "A (selected section): " +++ text s])) /\
  (sel < 0 \/ Z.of_nat (List.length sections) <= sel ->
     rendered =
     String.concat blankLine (flat_map fullExchange (earlier ++ [lastNode]))).
Proof.
  intros rendered sections. subst rendered.
  rewrite buildContext_full_chain.
  assert (partsOf :
    chainNodeParts segment (List.length earlier + 1) (Some sel) lastNode
      (List.length earlier) =
    ("Q: " +++ question lastNode) ::
    match sectionAt sections sel with
    | Some s => ["A (selected section): " +++ text s]
    | None => ["A: " +++ answer lastNode]
    end).
  { unfold chainNodeParts.
    replace (Nat.eqb (List.length earlier) (List.length earlier + 1 - 1)) with true
      by (symmetry; apply Nat.eqb_eq; lia).
    subst sections. unfold sectionsOf.
    destruct (answerSections lastNode) as [[|s0 cached]|]; reflexivity. }
  rewrite partsOf. unfold sectionAt. split.
  - intros s range found.
    replace (sel <? 0) with false by (symmetry; apply Z.ltb_ge; lia).
    now rewrite found.
  - intros out. rewrite flat_map_app. cbn [flat_map]. rewrite app_nil_r.
    destruct (Z.ltb_spec sel 0) as [neg|pos]; [reflexivity|].
    replace (nth_error sections (Z.to_nat sel)) with (@None AnswerSection);
      [reflexivity|].
    symmetry. apply nth_error_None. lia.
Qed.

End Context.

Lemma buildContext_restriction_witness :
  parentId nodeB <> None /\
  buildContext oneSection (Some nodeB) ([nodeA] ++ [nodeB]) None =
  "Q: second" +++ blankLine +++ "A: world".
Proof.
  split; [discriminate|].
  apply (proj1 (buildContext_restriction oneSection) nodeB [nodeA] nodeB).
  discriminate.
Defined.

Lemma buildContext_section_selection_witness :
  buildContext oneSection (Some nodeFooBarBaz) ([nodeA] ++ [nodeFooBarBaz]) (Some 1) =
  "Q: first" +++ blankLine +++ "A: hello" +++ blankLine
  +++ "Q: third" +++ blankLine +++ "A (selected section): bar"
  /\
  buildContext oneSection (Some nodeFooBarBaz) ([nodeA] ++ [nodeFooBarBaz]) (Some 5) =
  "Q: first" +++ blankLine +++ "A: hello" +++ blankLine
  +++ "Q: third" +++ blankLine +++ "A: foo bar baz".
Proof.
  destruct (buildContext_section_selection oneSection (Some nodeFooBarBaz)
              [nodeA] nodeFooBarBaz 1) as (inRange & _).
  destruct (buildContext_section_selection oneSection (Some nodeFooBarBaz)
              [nodeA] nodeFooBarBaz 5) as (_ & outOfRange).
  split.
  - rewrite (inRange {| sectionId := "section-1"; text := "bar"; index := 1 |});
      [reflexivity | simpl; lia | reflexivity].
  - rewrite outOfRange; [reflexivity | right; simpl; lia].
Defined.

(** C5 as the specification states it fails: a node whose cached
    sections are present and empty has no section at index 0, so the
    answer in full is expected; the code consults the segmentation and
    renders its first section. *)
Lemma buildContext_empty_cache_resegments :
  answerSections nodeEmptyCache = Some [] /\
  Z.of_nat (List.length (sectionsWhenAbsent oneSection nodeEmptyCache)) <= 0 /\
  buildContext oneSection None [nodeEmptyCache] (Some 0) =
  "Q: first" +++ blankLine +++ "A (selected section): hello" /\
  buildContext oneSection None [nodeEmptyCache] (Some 0) <>
  "Q: first" +++ blankLine +++ "A: hello".
Proof.
  repeat split; try reflexivity; try (simpl; lia). discriminate.
Qed.

(* ------------------------------------------------------------------ *)
(** * Session manager                                                  *)
(* ------------------------------------------------------------------ *)

Section Sessions.
Variable env : Env.

Lemma createNewSession_current w :
  currentSessionId (store (snd (createNewSession env w)))
  = Some (fst (createNewSession env w)).
Proof.
  unfold createNewSession, newSessionIdentifier, reading.
  destruct (truthyId (currentSessionId (store w)));
    [destruct (0 <? JsMap.size (nodes (tree (store w))))%nat|]; reflexivity.
Qed.

Lemma deleteSession_sessions sessionId w :
  sessions (store (deleteSession env sessionId w))
  = JsMap.delete (sessions (store w)) sessionId.
Proof. reflexivity. Qed.

(** C9 (what the code does instead). When the session that is deleted
    is the active one, a replacement is created and made active, and
    then the mapping is replaced by the one read before the
    replacement was created, less the deleted id: the deleted id is
    absent, the active id is the replacement's, and the replacement is
    not in the mapping (unless a session was already stored under its
    id). *)
Theorem deleteSession_active_dangles sessionId w :
  currentSessionId (store w) = Some sessionId ->
  let replacement := fst (createNewSession env w) in
  let w' := deleteSession env sessionId w in
  sessionAt w' sessionId = None /\
  currentSessionId (store w') = Some replacement /\
  (sessionAt w replacement = None -> sessionAt w' replacement = None).
Proof.
  intros active replacement w'. subst replacement w'.
  unfold sessionAt. rewrite deleteSession_sessions.
  split; [apply get_delete_same|]. split.
  - unfold deleteSession. rewrite active. simpl. rewrite String.eqb_refl.
    apply createNewSession_current.
  - intros fresh. rewrite get_delete. now destruct (keyb sessionId _).
Qed.

(** What an import that throws leaves behind: the world it was given. *)
Lemma importSession_thrown sessionData w message w' :
  importSession env sessionData w = (Thrown message, w') -> w' = w.
Proof.
  unfold importSession, newSessionIdentifier, reading.
  repeat match goal with
         | |- context [match ?o with Some _ => _ | None => _ end] => destruct o
         | |- context [if ?b then _ else _] => destruct b
         end; simpl; intros e; inversion e; reflexivity.
Qed.



End Sessions.

Lemma deleteSession_active_dangles_witness :
  currentSessionId (store worldAB) = Some sessionAB /\
  sessionAt (deleteSession sampleEnv sessionAB worldAB) sessionAB = None /\
  currentSessionId (store (deleteSession sampleEnv sessionAB worldAB))
  = Some (fst (createNewSession sampleEnv worldAB)) /\
  sessionAt (deleteSession sampleEnv sessionAB worldAB)
    (fst (createNewSession sampleEnv worldAB)) = None.
Proof.
  split; [reflexivity|].
  destruct (deleteSession_active_dangles sampleEnv sessionAB worldAB eq_refl)
    as (gone & active & dangling).
  split; [exact gone|]. split; [exact active|]. apply dangling. reflexivity.
Defined.



(** C7 (what the code does instead). The session the store saved holds
    its nodes as an array of entries; [exportSession] takes the entries
    of that array, which pair each index with an entry, and the import
    builds its map from those: the session it registers holds its nodes
    under the indices 0 and 1, not under the ids [a] and [b]. *)
Theorem roundTrip_loses_node_ids :
  exists saved imported newSessionId w',
    sessionAt worldAB sessionAB = Some saved /\
    roundTrip sampleEnv sessionAB worldAB = (Returned newSessionId, w') /\
    sessionAt w' newSessionId = Some imported /\
    storedNodeIds (s_tree saved) = [JStr "a"; JStr "b"] /\
    storedNodeIds (s_tree imported) = [JNum 0; JNum 1].
Proof.
  eexists; eexists; eexists; eexists.
  split; [reflexivity|]. split; [reflexivity|]. split; [reflexivity|].
  split; reflexivity.
Qed.

(* ------------------------------------------------------------------ *)
(** * The invariants under the plain calls                             *)
(* ------------------------------------------------------------------ *)

Lemma truthyId_nonempty p : p <> EmptyString -> truthyId (Some p) = Some p.
Proof.
  intros ne. unfold truthyId. now destruct (String.eqb_spec p EmptyString).
Qed.

Lemma in_without i j ids : In j (without i ids) <-> j <> i /\ In j ids.
Proof.
  unfold without. rewrite filter_In, negb_true_iff, String.eqb_neq. tauto.
Qed.

Lemma nodeAt_add_root node t k :
  truthyId (parentId node) = None ->
  nodeAt (addNodeTree node t) k =
  if keyb (id node) k then Some node else nodeAt t k.
Proof.
  intros root. unfold addNodeTree, nodeAt. rewrite root. simpl. apply get_set.
Qed.

Lemma nodeAt_add_child node t p pn k :
  truthyId (parentId node) = Some p -> nodeAt t p = Some pn -> p <> id node ->
  nodeAt (addNodeTree node t) k =
  if keyb p k then Some (withChildren pn (childrenIds pn ++ [id node]))
  else if keyb (id node) k then Some node else nodeAt t k.
Proof.
  intros child held ne. unfold addNodeTree, nodeAt in *. rewrite child.
  rewrite get_set_other by congruence. rewrite held. simpl.
  now rewrite !get_set.
Qed.

Lemma nodeAt_delete_root i node t k :
  truthyId (parentId node) = None ->
  nodeAt (deleteNodeTree i node t) k = if keyb i k then None else nodeAt t k.
Proof.
  intros root. unfold deleteNodeTree, nodeAt. rewrite root. simpl. apply get_delete.
Qed.

Lemma nodeAt_delete_child i node t p pn k :
  truthyId (parentId node) = Some p -> nodeAt t p = Some pn -> p <> i ->
  nodeAt (deleteNodeTree i node t) k =
  if keyb p k then Some (withChildren pn (without i (childrenIds pn)))
  else if keyb i k then None else nodeAt t k.
Proof.
  intros child held ne. unfold deleteNodeTree, nodeAt in *. rewrite child.
  rewrite get_delete_other by congruence. rewrite held. simpl.
  now rewrite get_set, get_delete.
Qed.

(** Steps along [parentId] only read the parent of each node. *)
Lemma Hops_transfer (m m' : JsMap.t string ConversationNode) (keep : string -> Prop) :
  (forall k n, keep k -> JsMap.get m k = Some n ->
     exists n', JsMap.get m' k = Some n' /\ parentId n' = parentId n /\
                forall p, parentId n = Some p -> keep p) ->
  forall k h, Hops m k h -> keep k -> Hops m' k h.
Proof.
  intros same k h hops. induction hops as [i n held root|i n p h held link hops IH];
    intros kept.
  - destruct (same i n kept held) as (n' & held' & parent' & _).
    apply Hops_root with n'; congruence.
  - destruct (same i n kept held) as (n' & held' & parent' & next).
    apply Hops_child with n' p; [assumption | congruence | auto].
Qed.

Lemma Hops_functional m k h h' : Hops m k h -> Hops m k h' -> h = h'.
Proof.
  intros hops. revert h'.
  induction hops as [i n held root|i n p h held link hops IH]; intros h' hops';
    inversion hops'; subst; try congruence.
  f_equal. apply IH. congruence.
Qed.

(** The nodes on the way to the root are all different and all in the
    map, so the way is shorter than the map is large. *)
Lemma Hops_path m k h :
  Hops m k h ->
  exists path, List.length path = S h /\ NoDup path /\
    forall j, In j path -> In j (JsMap.keys m) /\ exists g, (g <= h)%nat /\ Hops m j g.
Proof.
  induction 1 as [i n held root|i n p h held link hops (path & len & nd & each)].
  - exists [i]. split; [reflexivity|]. split; [repeat constructor; auto|].
    intros j [<-|[]]. split; [eapply get_some_in_keys; eauto|].
    exists 0%nat. split; [lia|]. eapply Hops_root; eauto.
  - exists (i :: path). split; [simpl; lia|]. split.
    + constructor; [|assumption]. intros inPath.
      destruct (each i inPath) as (_ & g & le & hops').
      assert (S h = g) by (eapply Hops_functional; [eapply Hops_child|]; eauto).
      lia.
    + intros j [<-|inPath].
      * split; [eapply get_some_in_keys; eauto|].
        exists (S h). split; [lia|]. eapply Hops_child; eauto.
      * destruct (each j inPath) as (inKeys & g & le & hops').
        split; [assumption|]. exists g. split; [lia|assumption].
Qed.

Lemma Hops_bound m k h : Hops m k h -> (h < JsMap.size m)%nat.
Proof.
  intros hops. destruct (Hops_path m k h hops) as (path & len & nd & each).
  assert (le : (List.length path <= List.length (JsMap.keys m))%nat).
  { apply NoDup_incl_length; [assumption|]. intros j inPath. now apply each. }
  unfold JsMap.keys in le. rewrite length_map in le. unfold JsMap.size. lia.
Qed.

Lemma Hops_reachesRoot m k h hops :
  Hops m k h -> (h <= hops)%nat -> reachesRoot m hops k = true.
Proof.
  intros reach. revert hops.
  induction reach as [i n held root|i n p h held link reach IH]; intros hops le.
  - destruct hops; simpl; now rewrite held, root.
  - destruct hops as [|hops]; [lia|]. simpl. rewrite held, link. apply IH. lia.
Qed.

Lemma WellFormed_initialTree : WellFormed initialTree.
Proof.
  constructor; unfold nodeAt; simpl; try discriminate.
  - constructor.
  - intros i. split; [contradiction|]. intros (n & held & _). discriminate.
Qed.

Lemma WellFormed_invariants t : WellFormed t -> invariants t.
Proof.
  intros wf. split; [|split; [|split]].
  - intros k n p held link.
    destruct (wf_parent t wf k n p held link) as (_ & pn & heldp & listed).
    exists pn. rewrite (wf_id t wf k n held). auto.
  - exact (wf_roots t wf).
  - intros k n held. destruct (wf_rooted t wf k n held) as (h & hops).
    apply Hops_reachesRoot with h; [assumption|].
    apply Hops_bound in hops. lia.
  - intros k n held. split; [apply (wf_nodup t wf k n held)|].
    intros c listed. destruct (wf_child t wf k n c held listed) as (cn & heldc & _).
    eauto.
Qed.

Lemma WellFormed_add_root node t :
  WellFormed t -> nodeAt t (id node) = None -> childrenIds node = [] ->
  parentId node = None -> WellFormed (addNodeTree node t).
Proof.
  intros wf fresh leaf root.
  assert (at' : forall k, nodeAt (addNodeTree node t) k =
                          if keyb (id node) k then Some node else nodeAt t k).
  { intros k. apply nodeAt_add_root. now rewrite root. }
  constructor.
  - unfold addNodeTree. rewrite root. simpl. apply NoDup_keys_set, wf.
  - intros k n. rewrite at'. key_cases; [now intros [= <-] | apply wf].
  - intros k n p. rewrite at'. key_cases; [intros [= <-]; congruence|].
    intros held link.
    destruct (wf_parent t wf k n p held link) as (ne & pn & heldp & listed).
    split; [assumption|]. exists pn. rewrite at'. key_cases; [congruence|auto].
  - intros p pn c. rewrite at'. key_cases.
    + intros [= <-]. rewrite leaf. contradiction.
    + intros held listed.
      destruct (wf_child t wf p pn c held listed) as (cn & heldc & link).
      exists cn. rewrite at'. key_cases; [congruence|auto].
  - intros k n. rewrite at'. key_cases.
    + intros [= <-]. rewrite leaf. constructor.
    + apply wf.
  - intros i. unfold addNodeTree. rewrite root. simpl rootIds.
    change (JsMap.get (JsMap.set (nodes t) (id node) node) i)
      with (nodeAt {| nodes := JsMap.set (nodes t) (id node) node;
                      rootIds := rootIds t ++ [id node] |} i).
    rewrite in_app_iff, (wf_roots t wf). simpl. split.
    + intros [(n & held & isRoot)|[<-|[]]].
      * exists n. unfold nodeAt in *. simpl. rewrite get_set. key_cases; [congruence|auto].
      * exists node. unfold nodeAt. simpl. rewrite get_set_same. auto.
    + intros (n & held & isRoot). unfold nodeAt in held. simpl in held.
      rewrite get_set in held. key_cases; [auto|]. left. exists n. auto.
  - intros k n. rewrite at'. key_cases.
    + intros [= <-]. exists 0%nat. apply Hops_root with node; [|assumption].
      specialize (at' (id node)). rewrite keyb_same in at'. exact at'.
    + intros held. destruct (wf_rooted t wf k n held) as (h & hops). exists h.
      apply Hops_transfer with (m := nodes t) (keep := fun j => j <> id node);
        [|assumption|congruence].
      intros j nj kept heldj. exists nj. split; [|split; [reflexivity|]].
      * specialize (at' j). unfold nodeAt in at'. rewrite at'. key_cases; [congruence|auto].
      * intros p link ->.
        destruct (wf_parent t wf j nj (id node) heldj link) as (_ & pn & heldp & _).
        congruence.
Qed.

Lemma WellFormed_add_child node t p pn :
  WellFormed t -> nodeAt t (id node) = None -> childrenIds node = [] ->
  parentId node = Some p -> p <> EmptyString -> nodeAt t p = Some pn ->
  WellFormed (addNodeTree node t).
Proof.
  intros wf fresh leaf child nonempty heldp.
  assert (apart : p <> id node) by congruence.
  set (pn' := withChildren pn (childrenIds pn ++ [id node])).
  assert (at' : forall k, nodeAt (addNodeTree node t) k =
                          if keyb p k then Some pn'
                          else if keyb (id node) k then Some node else nodeAt t k).
  { intros k. apply nodeAt_add_child; [|assumption|assumption].
    rewrite child. now apply truthyId_nonempty. }
  assert (old : forall k n, nodeAt t k = Some n ->
                exists n', nodeAt (addNodeTree node t) k = Some n' /\
                           id n' = id n /\ parentId n' = parentId n /\
                           incl (childrenIds n) (childrenIds n')).
  { intros k n held. rewrite at'. key_cases.
    - exists pn'. replace n with pn by congruence.
      split; [reflexivity|]. split; [reflexivity|]. split; [reflexivity|].
      intros c. simpl. rewrite in_app_iff. auto.
    - congruence.
    - exists n. split; [assumption|]. split; [reflexivity|].
      split; [reflexivity|apply incl_refl]. }
  constructor.
  - unfold addNodeTree. rewrite child, (truthyId_nonempty p nonempty).
    unfold nodeAt in heldp. rewrite get_set_other by congruence. rewrite heldp.
    simpl. apply NoDup_keys_set, NoDup_keys_set, wf.
  - intros k n. rewrite at'. key_cases.
    + intros [= <-]. simpl. apply (wf_id t wf p pn heldp).
    + now intros [= <-].
    + apply wf.
  - intros k n q. rewrite at'. key_cases.
    + intros [= <-]. simpl. intros link.
      destruct (wf_parent t wf p pn q heldp link) as (ne & qn & heldq & listed).
      split; [assumption|]. destruct (old q qn heldq) as (qn' & heldq' & _ & _ & more).
      exists qn'. auto.
    + intros [= <-] link. replace q with p by congruence.
      split; [assumption|]. exists pn'. rewrite at', keyb_same.
      split; [reflexivity|]. simpl. rewrite in_app_iff. simpl. auto.
    + intros held link.
      destruct (wf_parent t wf k n q held link) as (ne & qn & heldq & listed).
      split; [assumption|]. destruct (old q qn heldq) as (qn' & heldq' & _ & _ & more).
      exists qn'. auto.
  - intros q qn c. rewrite at'. key_cases.
    + intros [= <-]. simpl. rewrite in_app_iff. intros [listed|[<-|[]]].
      * destruct (wf_child t wf p pn c heldp listed) as (cn & heldc & link).
        destruct (old c cn heldc) as (cn' & heldc' & _ & link' & _).
        exists cn'. split; [assumption|congruence].
      * exists node. rewrite at'. key_cases; try congruence; auto.
    + intros [= <-]. rewrite leaf. contradiction.
    + intros held listed.
      destruct (wf_child t wf q qn c held listed) as (cn & heldc & link).
      destruct (old c cn heldc) as (cn' & heldc' & _ & link' & _).
      exists cn'. split; [assumption|congruence].
  - intros k n. rewrite at'. key_cases.
    + intros [= <-]. simpl. apply NoDup_app.
      * apply (wf_nodup t wf p pn heldp).
      * repeat constructor. auto.
      * intros c listed [<-|[]].
        destruct (wf_child t wf p pn (id node) heldp listed) as (cn & heldc & _).
        congruence.
    + intros [= <-]. rewrite leaf. constructor.
    + apply wf.
  - intros i. unfold addNodeTree at 1. rewrite child, (truthyId_nonempty p nonempty).
    simpl rootIds. rewrite (wf_roots t wf). split.
    + intros (n & held & isRoot).
      destruct (old i n held) as (n' & held' & _ & link' & _).
      exists n'. split; [assumption|congruence].
    + intros (n & held & isRoot). rewrite at' in held. key_cases.
      * injection held as <-. exists pn. auto.
      * congruence.
      * eauto.
  - assert (keepHops : forall k h, Hops (nodes t) k h ->
                                   Hops (nodes (addNodeTree node t)) k h).
    { intros k h hops.
      apply Hops_transfer with (m := nodes t) (keep := fun _ => True);
        [|assumption|exact I].
      intros j nj _ heldj. destruct (old j nj heldj) as (nj' & heldj' & _ & link' & _).
      exists nj'. auto. }
    intros k n. rewrite at'. key_cases.
    + intros _. destruct (wf_rooted t wf p pn heldp) as (h & hops). eauto.
    + intros [= <-]. destruct (wf_rooted t wf p pn heldp) as (h & hops).
      exists (S h). apply Hops_child with node p; [|assumption|auto].
      specialize (at' (id node)). unfold nodeAt in at'. rewrite at'.
      key_cases; congruence.
    + intros held. destruct (wf_rooted t wf k n held) as (h & hops). eauto.
Qed.

(** Two trees whose nodes agree on [id], [parentId] and [childrenIds]
    under every key, and whose root sequences are the same, are
    well-formed together. *)
Lemma WellFormed_same_shape t t' :
  WellFormed t ->
  NoDup (JsMap.keys (nodes t')) -> rootIds t' = rootIds t ->
  (forall k n, nodeAt t k = Some n ->
     exists n', nodeAt t' k = Some n' /\ id n' = id n /\
                parentId n' = parentId n /\ childrenIds n' = childrenIds n) ->
  (forall k n', nodeAt t' k = Some n' ->
     exists n, nodeAt t k = Some n /\ id n' = id n /\
               parentId n' = parentId n /\ childrenIds n' = childrenIds n) ->
  WellFormed t'.
Proof.
  intros wf nd roots fwd bwd. constructor.
  - assumption.
  - intros k n' held'. destruct (bwd k n' held') as (n & held & e & _).
    rewrite e. apply (wf_id t wf k n held).
  - intros k n' p held' link'.
    destruct (bwd k n' held') as (n & held & _ & e & _). rewrite e in link'.
    destruct (wf_parent t wf k n p held link') as (ne & pn & heldp & listed).
    split; [assumption|].
    destruct (fwd p pn heldp) as (pn' & heldp' & _ & _ & e').
    exists pn'. rewrite e'. auto.
  - intros p pn' c heldp' listed'.
    destruct (bwd p pn' heldp') as (pn & heldp & _ & _ & e). rewrite e in listed'.
    destruct (wf_child t wf p pn c heldp listed') as (cn & heldc & link).
    destruct (fwd c cn heldc) as (cn' & heldc' & _ & e' & _).
    exists cn'. split; [assumption|congruence].
  - intros k n' held'. destruct (bwd k n' held') as (n & held & _ & _ & e).
    rewrite e. apply (wf_nodup t wf k n held).
  - intros i. rewrite roots, (wf_roots t wf). split.
    + intros (n & held & isRoot). destruct (fwd i n held) as (n' & held' & _ & e & _).
      exists n'. split; [assumption|congruence].
    + intros (n' & held' & isRoot). destruct (bwd i n' held') as (n & held & _ & e & _).
      exists n. split; [assumption|congruence].
  - intros k n' held'. destruct (bwd k n' held') as (n & held & _).
    destruct (wf_rooted t wf k n held) as (h & hops). exists h.
    apply Hops_transfer with (m := nodes t) (keep := fun _ => True);
      [|assumption|exact I].
    intros j nj _ heldj. destruct (fwd j nj heldj) as (nj' & heldj' & _ & e & _).
    exists nj'. auto.
Qed.

Lemma WellFormed_update i updates t :
  WellFormed t ->
  u_id updates = None -> u_parentId updates = None -> u_childrenIds updates = None ->
  WellFormed (updateNodeTree i updates t).
Proof.
  intros wf sameId sameParent sameChildren. unfold updateNodeTree.
  destruct (JsMap.get (nodes t) i) as [node|] eqn:held; [|assumption].
  assert (shape : id (mergeNode node updates) = id node /\
                  parentId (mergeNode node updates) = parentId node /\
                  childrenIds (mergeNode node updates) = childrenIds node).
  { simpl. now rewrite sameId, sameParent, sameChildren. }
  apply WellFormed_same_shape with t; [assumption| | reflexivity | |].
  - simpl. apply NoDup_keys_set, wf.
  - intros k n heldk. unfold nodeAt in *. simpl. rewrite get_set. key_cases.
    + exists (mergeNode node updates). replace n with node by congruence. auto.
    + exists n. auto.
  - intros k n' heldk. unfold nodeAt in *. simpl in heldk. rewrite get_set in heldk.
    key_cases.
    + exists node. injection heldk as <-. auto.
    + exists n'. auto.
Qed.

Lemma WellFormed_delete_leaf i node t :
  WellFormed t -> nodeAt t i = Some node -> childrenIds node = [] ->
  WellFormed (deleteNodeTree i node t).
Proof.
  intros wf held leaf.
  (* no node names [i] as its parent *)
  assert (childless : forall k n, nodeAt t k = Some n -> parentId n <> Some i).
  { intros k n heldk link.
    destruct (wf_parent t wf k n i heldk link) as (_ & pn & heldi & listed).
    replace pn with node in listed by congruence. rewrite leaf in listed.
    contradiction. }
  (* no node lists [i] but its parent *)
  assert (listedBy : forall q qn, nodeAt t q = Some qn -> In i (childrenIds qn) ->
                                  parentId node = Some q).
  { intros q qn heldq listed.
    destruct (wf_child t wf q qn i heldq listed) as (cn & heldc & link). congruence. }
  assert (at' : exists touched : string -> option ConversationNode,
             (forall k, nodeAt (deleteNodeTree i node t) k =
                        if keyb i k then None else touched k) /\
             (forall k, k <> i ->
                match nodeAt t k with
                | Some n =>
                    exists n', touched k = Some n' /\ id n' = id n /\
                               parentId n' = parentId n /\
                               childrenIds n' = without i (childrenIds n)
                | None => touched k = None
                end)).
  { destruct (parentId node) as [p|] eqn:link.
    - destruct (wf_parent t wf i node p held link) as (nonempty & pn & heldp & listed).
      assert (apart : p <> i).
      { intros ->. apply (childless i node held). assumption. }
      exists (fun k => if keyb p k
                       then Some (withChildren pn (without i (childrenIds pn)))
                       else nodeAt t k).
      split.
      + intros k. rewrite nodeAt_delete_child with (p := p) (pn := pn);
          [|rewrite link; now apply truthyId_nonempty|assumption|assumption].
        key_cases; congruence.
      + intros k ne. key_cases.
        * rewrite heldp. eexists. split; [reflexivity|]. auto.
        * destruct (nodeAt t k) as [n|] eqn:heldk; [|reflexivity].
          exists n. repeat split.
          symmetry. apply forallb_filter_id.
          apply forallb_forall. intros c listedc.
          apply negb_true_iff, String.eqb_neq. intros ->.
          specialize (listedBy k n heldk listedc). congruence.
    - exists (nodeAt t). split.
      + intros k. apply nodeAt_delete_root. now rewrite link.
      + intros k ne. destruct (nodeAt t k) as [n|] eqn:heldk; [|reflexivity].
        exists n. repeat split.
        symmetry. apply forallb_filter_id.
        apply forallb_forall. intros c listedc.
        apply negb_true_iff, String.eqb_neq. intros ->.
        specialize (listedBy k n heldk listedc). congruence. }
  destruct at' as (touched & at' & rest).
  assert (bwd : forall k n', nodeAt (deleteNodeTree i node t) k = Some n' ->
                  k <> i /\ exists n, nodeAt t k = Some n /\ id n' = id n /\
                    parentId n' = parentId n /\
                    childrenIds n' = without i (childrenIds n)).
  { intros k n'. rewrite at'. key_cases; [discriminate|]. intros heldk.
    split; [congruence|]. assert (ne : k <> i) by congruence.
    specialize (rest k ne). destruct (nodeAt t k) as [n|]; [|congruence].
    destruct rest as (n'' & heldk' & shape). exists n.
    replace n' with n'' by congruence. auto. }
  assert (fwd : forall k n, nodeAt t k = Some n -> k <> i ->
                  exists n', nodeAt (deleteNodeTree i node t) k = Some n' /\
                    id n' = id n /\ parentId n' = parentId n /\
                    childrenIds n' = without i (childrenIds n)).
  { intros k n heldk ne. rewrite at'. key_cases; [congruence|].
    specialize (rest k ne). now rewrite heldk in rest. }
  constructor.
  - unfold deleteNodeTree. simpl.
    destruct (truthyId (parentId node)) as [p|];
      [destruct (JsMap.get (JsMap.delete (nodes t) i) p)|];
      try apply NoDup_keys_set; apply NoDup_keys_delete, wf.
  - intros k n' held'. destruct (bwd k n' held') as (_ & n & heldk & e & _).
    rewrite e. apply (wf_id t wf k n heldk).
  - intros k n' p held' link'.
    destruct (bwd k n' held') as (ne & n & heldk & _ & e & _). rewrite e in link'.
    destruct (wf_parent t wf k n p heldk link') as (nonempty & pn & heldp & listed).
    split; [assumption|].
    assert (p <> i). { intros ->. apply (childless k n heldk). assumption. }
    destruct (fwd p pn heldp H) as (pn' & heldp' & _ & _ & e').
    exists pn'. rewrite e', in_without. auto.
  - intros p pn' c heldp' listed'.
    destruct (bwd p pn' heldp') as (ne & pn & heldp & _ & _ & e).
    rewrite e, in_without in listed'. destruct listed' as (nec & listed).
    destruct (wf_child t wf p pn c heldp listed) as (cn & heldc & link).
    destruct (fwd c cn heldc nec) as (cn' & heldc' & _ & e' & _).
    exists cn'. split; [assumption|congruence].
  - intros k n' held'. destruct (bwd k n' held') as (_ & n & heldk & _ & _ & e).
    rewrite e. apply NoDup_filter, (wf_nodup t wf k n heldk).
  - intros r. unfold deleteNodeTree at 1. simpl rootIds.
    rewrite in_without, (wf_roots t wf). split.
    + intros (ne & n & heldr & isRoot).
      destruct (fwd r n heldr ne) as (n' & heldr' & _ & e & _).
      exists n'. split; [assumption|congruence].
    + intros (n' & heldr' & isRoot).
      destruct (bwd r n' heldr') as (ne & n & heldr & _ & e & _).
      split; [assumption|]. exists n. split; [assumption|congruence].
  - intros k n' held'. destruct (bwd k n' held') as (ne & n & heldk & _).
    destruct (wf_rooted t wf k n heldk) as (h & hops). exists h.
    apply Hops_transfer with (m := nodes t) (keep := fun j => j <> i);
      [|assumption|assumption].
    intros j nj kept heldj.
    destruct (fwd j nj heldj kept) as (nj' & heldj' & _ & e & _).
    exists nj'. split; [assumption|]. split; [assumption|].
    intros p link ->. apply (childless j nj heldj). assumption.
Qed.

Lemma WellFormed_call env fuel c w :
  (1 <= fuel)%nat -> WellFormed (treeOf w) -> plainCall (treeOf w) c ->
  exists w', call env fuel c w = Some w' /\ WellFormed (treeOf w').
Proof.
  intros enough wf plain. destruct c as [node|i updates|i]; simpl in *.
  - eexists. split; [reflexivity|]. rewrite tree_addNode.
    destruct plain as (fresh & leaf & [root|(p & pn & child & nonempty & held)]).
    + now apply WellFormed_add_root.
    + now apply WellFormed_add_child with p pn.
  - eexists. split; [reflexivity|]. rewrite tree_updateNode.
    destruct plain as (sameId & sameParent & sameChildren).
    now apply WellFormed_update.
  - destruct fuel as [|fuel]; [lia|].
    destruct (deleteNode_leaf env fuel i w plain) as (w' & run).
    exists w'. split; [assumption|].
    rewrite (tree_deleteNode _ _ _ _ _ run).
    destruct (nodeAt (treeOf w) i) as [node|] eqn:held; [|assumption].
    apply WellFormed_delete_leaf; auto.
Qed.

Lemma WellFormed_calls env fuel cs :
  (1 <= fuel)%nat ->
  forall w, WellFormed (treeOf w) -> plainCalls env fuel cs w ->
  exists w', calls env fuel cs w = Some w' /\ WellFormed (treeOf w').
Proof.
  intros enough. induction cs as [|c cs IH]; intros w wf plain; simpl in *.
  - eauto.
  - destruct plain as (plain & rest).
    destruct (WellFormed_call env fuel c w enough wf plain) as (w1 & run & wf1).
    rewrite run in *. now apply IH.
Qed.

(** C2 (as the code has it). Starting from the empty tree, after any
    sequence of calls in which every [addNode] adds a node under an id
    the tree does not hold, without children, and either without parent
    or under the non-empty id of a node the tree holds, every
    [updateNode] carries none of [id], [parentId], [childrenIds], and
    every [deleteNode] names a node without children (or no node), the
    calls return and the four structural invariants hold. *)
Theorem plainCalls_keep_invariants env fuel cs :
  (1 <= fuel)%nat ->
  plainCalls env fuel cs initialWorld ->
  exists w, calls env fuel cs initialWorld = Some w /\ invariants (treeOf w).
Proof.
  intros enough plain.
  destruct (WellFormed_calls env fuel cs enough initialWorld
              WellFormed_initialTree plain) as (w & run & wf).
  exists w. split; [assumption|]. now apply WellFormed_invariants.
Qed.

Lemma plainCalls_keep_invariants_witness :
  plainCalls sampleEnv 1 sampleCalls initialWorld /\
  exists w, calls sampleEnv 1 sampleCalls initialWorld = Some w /\
            invariants (treeOf w).
Proof.
  assert (plain : plainCalls sampleEnv 1 sampleCalls initialWorld).
  { vm_compute. repeat split.
    - left. reflexivity.
    - right. exists "a", nodeA. repeat split. discriminate.
    - intros n [= <-]. reflexivity. }
  split; [exact plain|].
  apply (plainCalls_keep_invariants sampleEnv 1 sampleCalls); [lia | exact plain].
Defined.

(** C2 as the specification states it fails: a node added under a parent
    the tree does not hold is kept, with its [parentId] naming no
    node. *)
Lemma addNode_orphan_breaks_invariants :
  exists w,
    calls sampleEnv 1 [CallAddNode orphan] initialWorld = Some w /\
    nodeAt (treeOf w) "o" = Some orphan /\
    nodeAt (treeOf w) "ghost" = None /\
    ~ invariants (treeOf w).
Proof.
  eexists. split; [reflexivity|]. split; [reflexivity|]. split; [reflexivity|].
  intros (parents & _).
  destruct (parents "o" orphan "ghost" eq_refl eq_refl) as (pn & held & _).
  discriminate.
Qed.

(* ------------------------------------------------------------------ *)
(** * Auto-layout                                                      *)
(* ------------------------------------------------------------------ *)

Section Layout.
Variable t : ConversationTree.

Lemma Depth_functional i d d' : Depth t i d -> Depth t i d' -> d = d'.
Proof.
  intros depth. revert d'.
  induction depth as [i absent|i n held root|i n p d held child depth IH];
    intros d' depth'; inversion depth'; subst; try congruence.
  f_equal. apply IH. congruence.
Qed.

Lemma Depth_nonneg i d : Depth t i d -> 0 <= d.
Proof. induction 1; lia. Qed.

Lemma memoOk_set depthMap k d :
  memoOk t depthMap -> Depth t k d -> memoOk t (JsMap.set depthMap k d).
Proof.
  intros ok depth j e. rewrite get_set. key_cases.
  - now intros [= <-].
  - apply ok.
Qed.

Lemma calculateDepth_Depth i d :
  Depth t i d ->
  forall fuel depthMap,
    memoOk t depthMap -> (Z.to_nat d < fuel)%nat ->
    exists depthMap',
      calculateDepth fuel t depthMap i = Some (d, depthMap') /\ memoOk t depthMap'.
Proof.
  induction 1 as [i absent|i n held root|i n p d held child depth IH];
    intros fuel depthMap ok enough;
    (destruct fuel as [|fuel]; [lia|]); simpl;
    (destruct (JsMap.get depthMap i) as [known|] eqn:memo;
     [ exists depthMap; split; [|assumption];
       do 2 f_equal; eapply Depth_functional; [apply ok; eassumption|]
     | unfold nodeAt in *]).
  - now apply Depth_absent.
  - rewrite absent. eexists. split; [reflexivity|].
    apply memoOk_set; [assumption|]. now apply Depth_absent.
  - eapply Depth_root; eauto.
  - rewrite held, root. eexists. split; [reflexivity|].
    apply memoOk_set; [assumption|]. eapply Depth_root; eauto.
  - eapply Depth_child; eauto.
  - rewrite held, child.
    assert (0 <= d) by (eapply Depth_nonneg; eauto).
    destruct (IH fuel depthMap ok) as (depthMap1 & run & ok1); [lia|].
    rewrite run. eexists. split; [reflexivity|].
    apply memoOk_set; [assumption|]. eapply Depth_child; eauto.
Qed.

Lemma calculateDepth_more_fuel fuel :
  forall fuel' depthMap i result,
    calculateDepth fuel t depthMap i = Some result -> (fuel <= fuel')%nat ->
    calculateDepth fuel' t depthMap i = Some result.
Proof.
  induction fuel as [|fuel IH]; intros fuel' depthMap i result; simpl;
    [discriminate|].
  intros run le. destruct fuel' as [|fuel']; [lia|]. simpl.
  destruct (JsMap.get depthMap i); [assumption|].
  destruct (JsMap.get (nodes t) i) as [n|]; [|assumption].
  destruct (truthyId (parentId n)) as [p|]; [|assumption].
  destruct (calculateDepth fuel t depthMap p) as [[d depthMap1]|] eqn:inner;
    [|discriminate].
  rewrite (IH fuel' depthMap p (d, depthMap1) inner) by lia. assumption.
Qed.

Lemma groupByDepth_more_fuel fuel fuel' entries :
  (fuel <= fuel')%nat ->
  forall nodesByDepth depthMap result,
    groupByDepth fuel t entries nodesByDepth depthMap = Some result ->
    groupByDepth fuel' t entries nodesByDepth depthMap = Some result.
Proof.
  intros le. induction entries as [|[k n] entries IH];
    intros nodesByDepth depthMap result; simpl; [trivial|].
  destruct (calculateDepth fuel t depthMap (id n)) as [[d depthMap1]|] eqn:run;
    [|discriminate].
  rewrite (calculateDepth_more_fuel fuel fuel' depthMap (id n) (d, depthMap1) run le).
  apply IH.
Qed.

End Layout.

Section Levels.
Variable t : ConversationTree.
Variable depthOf : string -> Z.

Lemma levelOf_app seen k d :
  levelOf depthOf (seen ++ [k]) d =
  levelOf depthOf seen d ++ (if depthOf k =? d then [k] else []).
Proof. unfold levelOf. rewrite filter_app. simpl. now destruct (depthOf k =? d). Qed.

Lemma in_levelOf ids d k : In k (levelOf depthOf ids d) <-> In k ids /\ depthOf k = d.
Proof. unfold levelOf. now rewrite filter_In, Z.eqb_eq. Qed.

Lemma levelsOk_level seen nodesByDepth d :
  levelsOk depthOf seen nodesByDepth ->
  orElse (JsMap.get nodesByDepth d) [] = levelOf depthOf seen d.
Proof.
  intros ok. rewrite (ok d). now destruct (levelOf depthOf seen d).
Qed.

Lemma levelsOk_file seen nodesByDepth k :
  levelsOk depthOf seen nodesByDepth ->
  let depth := depthOf k in
  let filed :=
    if JsMap.has nodesByDepth depth then nodesByDepth
    else JsMap.set nodesByDepth depth [] in
  levelsOk depthOf (seen ++ [k])
    (JsMap.set filed depth (orElse (JsMap.get filed depth) [] ++ [k])).
Proof.
  intros ok depth filed d.
  assert (level : orElse (JsMap.get filed depth) [] = levelOf depthOf seen depth).
  { subst filed. unfold JsMap.has.
    destruct (JsMap.get nodesByDepth depth) as [g|] eqn:e.
    - rewrite <- (levelsOk_level seen nodesByDepth depth ok). now rewrite e.
    - rewrite get_set_same. simpl. rewrite (ok depth) in e.
      now destruct (levelOf depthOf seen depth). }
  rewrite get_set, level, levelOf_app. fold depth. key_cases.
  - rewrite Z.eqb_refl. now destruct (levelOf depthOf seen depth).
  - replace (depth =? d) with false by (symmetry; now apply Z.eqb_neq).
    rewrite app_nil_r, <- (ok d). subst filed. unfold JsMap.has.
    destruct (JsMap.get nodesByDepth depth); [reflexivity|].
    now apply get_set_other.
Qed.

Lemma groupByDepth_levels fuel entries :
  (forall k n, In (k, n) entries ->
     id n = k /\ Depth t k (depthOf k) /\ (Z.to_nat (depthOf k) < fuel)%nat) ->
  forall seen nodesByDepth depthMap,
    levelsOk depthOf seen nodesByDepth -> memoOk t depthMap ->
    exists nodesByDepth' depthMap',
      groupByDepth fuel t entries nodesByDepth depthMap
      = Some (nodesByDepth', depthMap') /\
      levelsOk depthOf (seen ++ map fst entries) nodesByDepth'.
Proof.
  induction entries as [|[k n] entries IH]; intros each seen nodesByDepth depthMap ok memo.
  - simpl. rewrite app_nil_r. eauto.
  - destruct (each k n (or_introl eq_refl)) as (keyed & depth & enough).
    destruct (calculateDepth_Depth t k (depthOf k) depth fuel depthMap memo enough)
      as (depthMap1 & run & memo1).
    simpl. rewrite keyed, run.
    replace (seen ++ k :: map fst entries) with ((seen ++ [k]) ++ map fst entries)
      by now rewrite <- app_assoc.
    apply IH; [|apply levelsOk_file|]; auto.
    intros k' n' listed. apply each. now right.
Qed.

Lemma placeLevel_other depth ids : forall index positions k,
  ~ In k ids ->
  JsMap.get (placeLevel depth ids index positions) k = JsMap.get positions k.
Proof.
  induction ids as [|a ids IH]; intros index positions k out;
    cbn [placeLevel]; [reflexivity|].
  rewrite IH by (intros listed; apply out; now right).
  apply get_set_other. intros ->. apply out. now left.
Qed.

Lemma placeLevel_placed depth ids : forall index positions k j,
  NoDup ids -> nth_error ids j = Some k ->
  JsMap.get (placeLevel depth ids index positions) k
  = Some (placed depth (index + Z.of_nat j)).
Proof.
  induction ids as [|a ids IH]; intros index positions k j nd found.
  - now destruct j.
  - inversion nd as [|? ? fresh nd']; subst.
    destruct j as [|j]; cbn [placeLevel nth_error] in *.
    + injection found as ->. rewrite placeLevel_other by assumption.
      rewrite get_set_same. unfold placed, NODE_WIDTH, HORIZONTAL_SPACING,
        VERTICAL_SPACING. do 2 f_equal; lia.
    + rewrite (IH (index + 1) _ k j nd' found). do 2 f_equal. lia.
Qed.

Lemma placeLevel_keys depth ids : forall index positions k,
  In k (JsMap.keys (placeLevel depth ids index positions))
  <-> In k ids \/ In k (JsMap.keys positions).
Proof.
  induction ids as [|a ids IH]; intros index positions k;
    cbn [placeLevel In]; [tauto|].
  rewrite IH, in_keys_set. intuition.
Qed.

Section Placing.
Variable ids : list string.
Variable nodesByDepth : JsMap.t Z (list string).
Hypothesis once : NoDup ids.
Hypothesis levels : levelsOk depthOf ids nodesByDepth.

Lemma placeLevels_other depths : forall positions k,
  (forall d, In d depths -> ~ In k (levelOf depthOf ids d)) ->
  JsMap.get (placeLevels nodesByDepth depths positions) k = JsMap.get positions k.
Proof.
  induction depths as [|d depths IH]; intros positions k out; [reflexivity|].
  unfold placeLevels in *. simpl. rewrite IH by (intros d' listed; apply out; now right).
  rewrite (levelsOk_level ids nodesByDepth d levels).
  apply placeLevel_other. apply out. now left.
Qed.

Lemma placeLevels_placed depths : forall positions k j,
  In (depthOf k) depths -> nth_error (levelOf depthOf ids (depthOf k)) j = Some k ->
  JsMap.get (placeLevels nodesByDepth depths positions) k
  = Some (placed (depthOf k) (Z.of_nat j)).
Proof.
  induction depths as [|d depths IH]; intros positions k j listed found;
    [contradiction|].
  unfold placeLevels in *. simpl.
  destruct (in_dec Z.eq_dec (depthOf k) depths) as [later|notLater].
  - now apply IH.
  - destruct listed as [->|]; [|contradiction].
    change (fold_left _ depths ?p) with (placeLevels nodesByDepth depths p).
    rewrite placeLevels_other.
    + rewrite (levelsOk_level ids nodesByDepth (depthOf k) levels).
      apply (placeLevel_placed (depthOf k) _ 0 positions k j); [|assumption].
      now apply NoDup_filter.
    + intros d' listed inLevel. apply in_levelOf in inLevel as (_ & <-).
      contradiction.
Qed.

Lemma placeLevels_keys depths : forall positions k,
  In k (JsMap.keys (placeLevels nodesByDepth depths positions))
  <-> (exists d, In d depths /\ In k (levelOf depthOf ids d))
      \/ In k (JsMap.keys positions).
Proof.
  induction depths as [|d depths IH]; intros positions k.
  - simpl. split; [auto|]. intros [(d & [] & _)|]; assumption.
  - unfold placeLevels in *. simpl. rewrite IH, placeLevel_keys.
    rewrite (levelsOk_level ids nodesByDepth d levels). split.
    + intros [(d' & listed & inLevel)|[inLevel|held]]; eauto 6.
    + intros [(d' & [<-|listed] & inLevel)|held]; eauto 6.
Qed.

End Placing.
End Levels.

Lemma insertSorted_permutation a xs : Permutation (a :: xs) (insertSorted a xs).
Proof.
  induction xs as [|b xs IH]; simpl; [reflexivity|].
  destruct (a <=? b); [reflexivity|].
  rewrite perm_swap. now apply perm_skip.
Qed.

Lemma sortAscending_permutation xs : Permutation xs (sortAscending xs).
Proof.
  induction xs as [|a xs IH]; simpl; [constructor|].
  rewrite <- insertSorted_permutation. now apply perm_skip.
Qed.

Lemma in_entries_get {V : Type} (m : JsMap.t string V) k v :
  NoDup (JsMap.keys m) -> In (k, v) m -> JsMap.get m k = Some v.
Proof.
  induction m as [|[k' v'] m IH]; simpl; [contradiction|].
  intros nd listed. inversion nd as [|? ? fresh nd']; subst.
  destruct listed as [[= -> ->]|listed].
  - now rewrite keyb_same.
  - key_cases; [|auto]. exfalso. apply fresh.
    change (In k' (map fst m)). apply in_map_iff. now exists (k', v).
Qed.

Lemma calculateAutoLayout_more_fuel fuel fuel' t positions :
  calculateAutoLayout fuel t = Some positions -> (fuel <= fuel')%nat ->
  calculateAutoLayout fuel' t = Some positions.
Proof.
  unfold calculateAutoLayout, calculateSimpleLayout. intros run le.
  destruct (Nat.eqb (JsMap.size (nodes t)) 0); [assumption|].
  destruct (groupByDepth fuel t (nodes t) JsMap.empty JsMap.empty)
    as [[nodesByDepth depthMap]|] eqn:grouped; [|discriminate].
  now rewrite (groupByDepth_more_fuel t fuel fuel' (nodes t) le _ _ _ grouped).
Qed.

(** C6 (as the code has it). For every tree (a map, which holds each
    key once) that holds each node under the node's own id and in which
    the [parentId] links lead from every node, in finitely many steps,
    to a node without parent or to an id the tree does not hold,
    [calculateAutoLayout] returns, whatever the recursion depth it is
    allowed beyond a bound, one and the same mapping: it has a position
    for exactly the ids of the tree, and the node at depth [d] that
    stands at index [i] among the ids of that depth (in the order of the
    map) has [x = 300 + i * (400 + 500) + d * (400 + 100)] and
    [y = 100 + d * 350]. *)
Theorem calculateAutoLayout_positions t depthOf :
  NoDup (nodeIds t) ->
  (forall k n, nodeAt t k = Some n -> id n = k) ->
  (forall k, In k (nodeIds t) -> Depth t k (depthOf k)) ->
  exists fuel0 positions,
    (forall fuel, (fuel0 <= fuel)%nat ->
       calculateAutoLayout fuel t = Some positions) /\
    (forall k, In k (JsMap.keys positions) <-> In k (nodeIds t)) /\
    (forall k i,
       nth_error (depthGroup depthOf t (depthOf k)) i = Some k ->
       JsMap.get positions k = Some (placed (depthOf k) (Z.of_nat i))).
Proof.
  intros once keyed depths.
  set (fuel0 := S (list_max (map (fun k => Z.to_nat (depthOf k)) (nodeIds t)))).
  assert (enough : forall k, In k (nodeIds t) -> (Z.to_nat (depthOf k) < fuel0)%nat).
  { intros k listed.
    assert (le : (list_max (map (fun k => Z.to_nat (depthOf k)) (nodeIds t))
                  <= list_max (map (fun k => Z.to_nat (depthOf k)) (nodeIds t)))%nat)
      by lia.
    rewrite list_max_le, Forall_forall in le.
    specialize (le (Z.to_nat (depthOf k))). subst fuel0.
    apply Nat.lt_succ_r, le, in_map_iff. eauto. }
  destruct (groupByDepth_levels t depthOf fuel0 (nodes t)) with
    (seen := @nil string) (nodesByDepth := @JsMap.empty Z (list string))
    (depthMap := @JsMap.empty string Z)
    as (nodesByDepth & depthMap & grouped & levels).
  { intros k n listed.
    assert (inIds : In k (nodeIds t)).
    { unfold nodeIds, JsMap.keys. apply in_map_iff. now exists (k, n). }
    split; [|split; auto]. apply keyed. unfold nodeAt.
    now apply in_entries_get. }
  { intros d. reflexivity. }
  { intros k d. discriminate. }
  simpl in levels. change (map fst (nodes t)) with (nodeIds t) in levels.
  assert (filed : forall k, In k (nodeIds t) ->
            In (depthOf k) (sortAscending (JsMap.keys nodesByDepth))).
  { intros k listed.
    apply (Permutation_in _ (sortAscending_permutation _)).
    destruct (JsMap.get nodesByDepth (depthOf k)) as [level|] eqn:e.
    - eapply get_some_in_keys; eauto.
    - rewrite (levels (depthOf k)) in e.
      assert (inLevel : In k (levelOf depthOf (nodeIds t) (depthOf k)))
        by (apply in_levelOf; auto).
      destruct (levelOf depthOf (nodeIds t) (depthOf k)); [contradiction|discriminate]. }
  exists fuel0.
  exists (if Nat.eqb (JsMap.size (nodes t)) 0 then JsMap.empty
          else placeLevels nodesByDepth (sortAscending (JsMap.keys nodesByDepth))
                 JsMap.empty).
  split; [|split].
  - intros fuel le. apply calculateAutoLayout_more_fuel with fuel0; [|assumption].
    unfold calculateAutoLayout, calculateSimpleLayout.
    destruct (Nat.eqb (JsMap.size (nodes t)) 0); [reflexivity|].
    now rewrite grouped.
  - intros k. destruct (Nat.eqb (JsMap.size (nodes t)) 0) eqn:none.
    + apply Nat.eqb_eq in none. unfold nodeIds, JsMap.keys.
      destruct (nodes t); [tauto|discriminate].
    + rewrite (placeLevels_keys depthOf (nodeIds t) nodesByDepth levels). split.
      * intros [(d & _ & inLevel)|[]]. now apply in_levelOf in inLevel.
      * intros listed. left. exists (depthOf k). split; [auto|].
        apply in_levelOf. auto.
  - intros k i found.
    assert (listed : In k (nodeIds t)).
    { apply nth_error_In in found. now apply in_levelOf in found. }
    destruct (Nat.eqb (JsMap.size (nodes t)) 0) eqn:none.
    + apply Nat.eqb_eq in none. unfold nodeIds, JsMap.keys in listed.
      destruct (nodes t); [contradiction|discriminate].
    + apply (placeLevels_placed depthOf (nodeIds t) nodesByDepth once levels); auto.
Qed.

Lemma calculateAutoLayout_positions_witness :
  NoDup (nodeIds (treeOf worldAB)) /\
  (forall k n, nodeAt (treeOf worldAB) k = Some n -> id n = k) /\
  (forall k, In k (nodeIds (treeOf worldAB)) -> Depth (treeOf worldAB) k (depthAB k)) /\
  exists fuel0 positions,
    (forall fuel, (fuel0 <= fuel)%nat ->
       calculateAutoLayout fuel (treeOf worldAB) = Some positions) /\
    JsMap.get positions "a" = Some {| x := 300; y := 100 |} /\
    JsMap.get positions "b" = Some {| x := 800; y := 450 |}.
Proof.
  assert (once : NoDup (nodeIds (treeOf worldAB))).
  { repeat constructor; simpl; intuition discriminate. }
  assert (keyed : forall k n, nodeAt (treeOf worldAB) k = Some n -> id n = k).
  { intros k n. unfold nodeAt. change (nodes (treeOf worldAB)) with
      [("a", withChildren nodeA ["b"]); ("b", withChildren nodeB [])].
    simpl. key_cases; intros e; inversion e; reflexivity. }
  assert (depthA : Depth (treeOf worldAB) "a" 0).
  { apply Depth_root with (withChildren nodeA ["b"]); reflexivity. }
  assert (depths : forall k, In k (nodeIds (treeOf worldAB)) ->
                             Depth (treeOf worldAB) k (depthAB k)).
  { intros k [<-|[<-|[]]]; [exact depthA|].
    apply (Depth_child (treeOf worldAB) "b" (withChildren nodeB []) "a" 0);
      [reflexivity | reflexivity | exact depthA]. }
  split; [exact once|]. split; [exact keyed|]. split; [exact depths|].
  destruct (calculateAutoLayout_positions (treeOf worldAB) depthAB once keyed depths)
    as (fuel0 & positions & returns & _ & places).
  exists fuel0, positions. split; [exact returns|]. split.
  - apply (places "a" 0%nat). reflexivity.
  - apply (places "b" 0%nat). reflexivity.
Defined.

Lemma calculateDepth_cyclicTree fuel :
  forall depthMap, JsMap.get depthMap "s" = None ->
    calculateDepth fuel cyclicTree depthMap "s" = None.
Proof.
  induction fuel as [|fuel IH]; intros depthMap unknown; [reflexivity|].
  simpl. rewrite unknown.
  change (JsMap.get (nodes cyclicTree) "s") with (Some (withChildren selfParent ["s"])).
  cbn [parentId withChildren selfParent sampleNode truthyId].
  change (String.eqb "s" EmptyString) with false. cbv iota.
  now rewrite IH.
Qed.

(** C6 as the specification states it fails: [addNode] accepts a node
    that names itself as its parent, and on the tree it makes the
    recursion of [calculateDepth] does not come back, whatever depth it
    is allowed: there is no mapping that [calculateAutoLayout]
    returns. *)
Lemma calculateAutoLayout_cyclicTree_diverges :
  nodeAt cyclicTree "s" = Some (withChildren selfParent ["s"]) /\
  ~ exists fuel positions, calculateAutoLayout fuel cyclicTree = Some positions.
Proof.
  split; [reflexivity|].
  intros (fuel & positions & run).
  unfold calculateAutoLayout, calculateSimpleLayout in run.
  change (nodes cyclicTree) with [("s", withChildren selfParent ["s"])] in run.
  cbn [JsMap.size List.length Nat.eqb groupByDepth id withChildren selfParent sampleNode]
    in run.
  rewrite calculateDepth_cyclicTree in run by reflexivity. discriminate.
Qed.

(* ------------------------------------------------------------------ *)
(** * Chains and prompts                                               *)
(* ------------------------------------------------------------------ *)

Lemma linked_snoc parent chain a n :
  linked parent (chain ++ [a]) -> parentId n = Some (id a) ->
  linked parent ((chain ++ [a]) ++ [n]).
Proof.
  revert parent. induction chain as [|b chain IH]; intros parent; simpl.
  - intros (first & _) link. auto.
  - intros (first & rest) link. split; [assumption|]. now apply IH.
Qed.

Lemma linked_root_alone chain n :
  linked None (chain ++ [n]) -> parentId n = None -> chain = [].
Proof.
  destruct chain as [|a chain]; [reflexivity|]. simpl. intros (_ & rest) root.
  exfalso. revert rest. generalize (id a). induction chain as [|b chain IH]; simpl.
  - intros i (link & _). congruence.
  - intros i (_ & rest). now apply (IH (id b)).
Qed.

(** The loop of [getNodeChain] climbs to the root. *)
Lemma getNodeChainFrom_Hops t :
  WellFormed t ->
  forall i h, Hops (nodes t) i h -> i <> EmptyString ->
  exists ancestors n,
    nodeAt t i = Some n /\ List.length ancestors = h /\
    linked None (ancestors ++ [n]) /\
    Forall (fun a => nodeAt t (id a) = Some a) (ancestors ++ [n]) /\
    forall chain fuel, (h + 2 <= fuel)%nat ->
      getNodeChainFrom fuel t (Some i) chain = Some ((ancestors ++ [n]) ++ chain).
Proof.
  intros wf i h hops.
  induction hops as [i n held root|i n p h held link hops IH]; intros nonempty.
  - exists [], n. split; [exact held|]. split; [reflexivity|].
    split; [simpl; auto|]. split.
    + repeat constructor. now rewrite (wf_id t wf i n held).
    + intros chain fuel enough. destruct fuel as [|[|fuel]]; try lia.
      cbn [getNodeChainFrom]. unfold nodeAt in held.
      rewrite (truthyId_nonempty i nonempty), held, root. reflexivity.
  - destruct (wf_parent t wf i n p held link) as (pne & _).
    destruct (IH pne) as (ancestors & pn & heldp & len & links & each & run).
    exists (ancestors ++ [pn]), n. split; [exact held|].
    split; [rewrite length_app; simpl; lia|].
    assert (idp : id pn = p) by (apply (wf_id t wf p pn heldp)).
    split; [apply linked_snoc; [assumption|congruence]|]. split.
    + apply Forall_app. split; [assumption|]. repeat constructor.
      now rewrite (wf_id t wf i n held).
    + intros chain fuel enough. destruct fuel as [|fuel]; [lia|].
      cbn [getNodeChainFrom]. rewrite (truthyId_nonempty i nonempty).
      unfold nodeAt in held. rewrite held, link.
      rewrite run by lia. now rewrite <- !app_assoc.
Qed.

(** X1. [getNodeChain] of an id the tree does not hold is the empty
    chain.  On a well-formed tree, for the non-empty id of a node, the
    loop ends and the chain ends with that node, starts with a node
    without parent, links each node to the one before it by [parentId],
    and holds nodes of the tree only. *)
Theorem getNodeChain_root_to_node i w :
  (getNode i w = None ->
   forall fuel, (2 <= fuel)%nat -> getNodeChain fuel i w = Some []) /\
  (forall n,
     WellFormed (treeOf w) -> i <> EmptyString -> getNode i w = Some n ->
     exists ancestors fuel0,
       (forall fuel, (fuel0 <= fuel)%nat ->
          getNodeChain fuel i w = Some (ancestors ++ [n])) /\
       linked None (ancestors ++ [n]) /\
       Forall (fun a => getNode (id a) w = Some a) (ancestors ++ [n])).
Proof.
  split.
  - intros absent fuel enough. destruct fuel as [|[|fuel]]; try lia.
    unfold getNodeChain, getNode in *. cbn [getNodeChainFrom].
    destruct (truthyId (Some i)) as [j|] eqn:truthy; [|reflexivity].
    assert (j = i).
    { unfold truthyId in truthy. destruct (String.eqb i EmptyString); congruence. }
    subst j. now rewrite absent.
  - intros n wf nonempty held.
    destruct (wf_rooted (treeOf w) wf i n held) as (h & hops).
    destruct (getNodeChainFrom_Hops (treeOf w) wf i h hops nonempty)
      as (ancestors & n' & held' & _ & links & each & run).
    assert (n' = n) by (unfold getNode, nodeAt, treeOf in *; congruence). subst n'.
    exists ancestors, (h + 2)%nat. split; [|split; assumption].
    intros fuel enough. unfold getNodeChain.
    change (tree (store w)) with (treeOf w). rewrite run by assumption.
    now rewrite app_nil_r.
Qed.

Lemma WellFormed_worldAB : WellFormed (treeOf worldAB).
Proof.
  unfold worldAB. rewrite !tree_addNode.
  apply WellFormed_add_child with "a" nodeA; try reflexivity; [|discriminate].
  apply WellFormed_add_root; try reflexivity. apply WellFormed_initialTree.
Qed.

Lemma getNodeChain_root_to_node_witness :
  WellFormed (treeOf worldAB) /\
  getNode "b" worldAB = Some (withChildren nodeB []) /\
  exists ancestors fuel0,
    (forall fuel, (fuel0 <= fuel)%nat ->
       getNodeChain fuel "b" worldAB = Some (ancestors ++ [withChildren nodeB []])) /\
    linked None (ancestors ++ [withChildren nodeB []]) /\
    Forall (fun a => getNode (id a) worldAB = Some a)
      (ancestors ++ [withChildren nodeB []]).
Proof.
  split; [exact WellFormed_worldAB|]. split; [reflexivity|].
  apply (proj2 (getNodeChain_root_to_node "b" worldAB) (withChildren nodeB [])
           WellFormed_worldAB).
  - discriminate.
  - reflexivity.
Defined.

(** With no section selected, the context of a chain that ends with the
    parent node is the exchange of that node. *)
Lemma buildContext_last_exchange segment ancestors pn :
  linked None (ancestors ++ [pn]) ->
  buildContext segment (Some pn) (ancestors ++ [pn]) None =
  "Q: " +++ question pn +++ blankLine +++ "A: " +++ answer pn.
Proof.
  intros links. destruct (parentId pn) as [p|] eqn:parent.
  - unfold buildContext. destruct (ancestors ++ [pn]) as [|first rest] eqn:e.
    + now destruct ancestors.
    + rewrite parent.
      assert (lastIs : List.last rest first = pn).
      { destruct ancestors as [|a ancestors]; simpl in e.
        - now injection e as <- <-.
        - injection e as <- <-. apply last_last. }
      now rewrite lastIs.
  - rewrite (linked_root_alone ancestors pn links parent).
    simpl. rewrite parent. reflexivity.
Qed.

(** X2. The prompt of the inference window.  For a question that is
    blank once trimmed, while a request is loading, or without a
    configuration, the handler makes no prompt.  Otherwise: without
    parent id the prompt is the question as typed (untrimmed); with the
    non-empty id of a node of a well-formed tree and no section
    selected, it is the labelled text whose context is the question and
    the answer of that node alone, whether the node is a root or not. *)
Theorem promptFor_parent_exchange (Config : Type) segment asked w :
  (forall fuel parentNodeId sel isLoading (llmConfig : option Config),
     trim asked = EmptyString \/ isLoading = true \/ llmConfig = None ->
     promptFor segment fuel parentNodeId sel asked isLoading llmConfig w = Some None) /\
  (forall fuel sel (config : Config),
     trim asked <> EmptyString ->
     promptFor segment fuel None sel asked false (Some config) w = Some (Some asked)) /\
  (forall p pn (config : Config),
     WellFormed (treeOf w) -> p <> EmptyString -> getNode p w = Some pn ->
     trim asked <> EmptyString ->
     exists fuel0, forall fuel, (fuel0 <= fuel)%nat ->
       promptFor segment fuel (Some p) None asked false (Some config) w =
       Some (Some ("Context from previous conversation:" +++ newline
                   +++ ("Q: " +++ question pn +++ blankLine +++ "A: " +++ answer pn)
                   +++ blankLine +++ "Current question: " +++ asked))).
Proof.
  assert (passes : trim asked <> EmptyString ->
                   String.eqb (trim asked) EmptyString = false)
    by (intros typed; now apply String.eqb_neq).
  split; [|split].
  - intros fuel parentNodeId sel isLoading llmConfig guard. unfold promptFor.
    destruct guard as [blank|[loading|unset]].
    + now rewrite blank.
    + rewrite loading. now destruct (String.eqb (trim asked) EmptyString).
    + rewrite unset.
      now destruct (String.eqb (trim asked) EmptyString), isLoading.
  - intros fuel sel config typed. unfold promptFor. now rewrite (passes typed).
  - intros p pn config wf nonempty held typed.
    destruct (wf_rooted (treeOf w) wf p pn held) as (h & hops).
    destruct (getNodeChainFrom_Hops (treeOf w) wf p h hops nonempty)
      as (ancestors & pn' & held' & _ & links & _ & run).
    assert (pn' = pn) by (unfold getNode, nodeAt, treeOf in *; congruence). subst pn'.
    exists (h + 2)%nat. intros fuel enough.
    unfold promptFor, getNodeChain. rewrite (passes typed). cbn [orb].
    rewrite (truthyId_nonempty p nonempty), held.
    change (tree (store w)) with (treeOf w). rewrite run by assumption.
    rewrite app_nil_r, buildContext_last_exchange by assumption.
    reflexivity.
Qed.

Lemma promptFor_parent_exchange_witness :
  WellFormed (treeOf worldAB) /\
  getNode "b" worldAB = Some (withChildren nodeB []) /\
  trim "  third " = "third" /\
  promptFor oneSection 0 (Some "b") None "   " false (Some tt) worldAB = Some None /\
  exists fuel0, forall fuel, (fuel0 <= fuel)%nat ->
    promptFor oneSection fuel (Some "b") None "  third " false (Some tt) worldAB =
    Some (Some ("Context from previous conversation:" +++ newline
                +++ ("Q: second" +++ blankLine +++ "A: world")
                +++ blankLine +++ "Current question:   third ")).
Proof.
  split; [exact WellFormed_worldAB|]. split; [reflexivity|]. split; [reflexivity|].
  split.
  - apply (proj1 (promptFor_parent_exchange unit oneSection "   " worldAB)).
    left. reflexivity.
  - apply (proj2 (proj2 (promptFor_parent_exchange unit oneSection "  third " worldAB)) "b"
             (withChildren nodeB []) tt WellFormed_worldAB).
    + discriminate.
    + reflexivity.
    + discriminate.
Defined.

(* ------------------------------------------------------------------ *)
(** * Saving                                                           *)
(* ------------------------------------------------------------------ *)

Section Saving.
Variable env : Env.

(** What [saveCurrentSession] leaves: the id it returns is the active
    one, the session stored under it holds the tree, every other
    session is as it was. *)
Lemma saveCurrentSession_stores name w :
  let sessionId := fst (saveCurrentSession env name w) in
  let w' := snd (saveCurrentSession env name w) in
  currentSessionId (store w') = Some sessionId /\
  (exists session,
     sessionAt w' sessionId = Some session /\ s_id session = sessionId /\
     s_tree session = storedImage (treeOf w)) /\
  (forall k, k <> sessionId -> sessionAt w' k = sessionAt w k).
Proof.
  unfold saveCurrentSession, newSessionIdentifier, reading, sessionAt, treeOf.
  destruct (truthyId (currentSessionId (store w))) as [current|];
    destruct (truthyId name); simpl;
    repeat match goal with
           | |- context [match ?o with Some _ => _ | None => _ end] => destruct o; simpl
           | |- context [if ?b then _ else _] => destruct b; simpl
           end;
    (split; [reflexivity|]; split;
     [eexists; rewrite get_set_same; repeat split
     | intros k apart; apply get_set_other; congruence]).
Qed.

Lemma saveToStorage_mirrored w : mirrored (saveToStorage env w).
Proof.
  destruct (saveCurrentSession_stores None w) as (active & (session & held & _ & image) & _).
  exists (fst (saveCurrentSession env None w)), session.
  unfold saveToStorage. rewrite tree_saveCurrentSession. auto.
Qed.

(** X3. Every mutation of the tree is saved: after [addNode],
    [updateNode], [deleteNode], [clearAll], [toggleCollapse] of a node
    and [applyAutoLayout], a session is active, it is stored, and what
    it holds is the tree as the call left it. *)
Theorem mutations_are_saved :
  (forall node w, mirrored (addNode env node w)) /\
  (forall i updates w, mirrored (updateNode env i updates w)) /\
  (forall fuel i w w', deleteNode env fuel i w = Some w' -> mirrored w') /\
  (forall w, mirrored (clearAll env w)) /\
  (forall i w n, getNode i w = Some n -> mirrored (toggleCollapse env i w)) /\
  (forall fuel w w', applyAutoLayout env fuel w = Some w' -> mirrored w').
Proof.
  repeat split.
  - intros node w. apply saveToStorage_mirrored.
  - intros i updates w. apply saveToStorage_mirrored.
  - intros fuel i w w'. destruct fuel as [|fuel]; simpl; [discriminate|].
    destruct (JsMap.get (nodes (tree (store w))) i) as [node|].
    + destruct (fold_left _ (childrenIds node) (Some w)); [|discriminate].
      intros [= <-]. apply saveToStorage_mirrored.
    + intros [= <-]. apply saveToStorage_mirrored.
  - intros w. apply saveToStorage_mirrored.
  - intros i w n held. unfold toggleCollapse, getNode in *. rewrite held.
    apply saveToStorage_mirrored.
  - intros fuel w w'. unfold applyAutoLayout.
    destruct (calculateAutoLayout fuel (tree (store w))); [|discriminate].
    intros [= <-]. apply saveToStorage_mirrored.
Qed.

End Saving.

Lemma mutations_are_saved_witness :
  getNode "b" worldAB = Some (withChildren nodeB []) /\
  mirrored (toggleCollapse sampleEnv "b" worldAB).
Proof.
  split; [reflexivity|].
  destruct (mutations_are_saved sampleEnv) as (_ & _ & _ & _ & toggled & _).
  apply (toggled "b" worldAB (withChildren nodeB [])). reflexivity.
Defined.

(* ------------------------------------------------------------------ *)
(** * Session list and names                                           *)
(* ------------------------------------------------------------------ *)

Lemma insertByUpdatedAt_permutation a l : Permutation (a :: l) (insertByUpdatedAt a l).
Proof.
  induction l as [|b l IH]; simpl; [reflexivity|].
  destruct (updatedAt b <=? updatedAt a); [reflexivity|].
  rewrite perm_swap. now apply perm_skip.
Qed.

Lemma insertByUpdatedAt_descending a l :
  StronglySorted (fun s s' => updatedAt s' <= updatedAt s) l ->
  StronglySorted (fun s s' => updatedAt s' <= updatedAt s) (insertByUpdatedAt a l).
Proof.
  induction 1 as [|b l sorted IH above]; simpl.
  - repeat constructor.
  - destruct (Z.leb_spec (updatedAt b) (updatedAt a)) as [le|gt].
    + constructor; [now constructor|]. constructor; [assumption|].
      rewrite Forall_forall in *. intros s listed. specialize (above s listed). lia.
    + constructor; [assumption|].
      apply (Permutation_Forall (insertByUpdatedAt_permutation a l)).
      constructor; [lia|assumption].
Qed.

(** X4. [getSessionList] returns the stored sessions, each as often as
    it is stored, the most recently updated first. *)
Theorem getSessionList_recent_first w :
  Permutation (map snd (sessions (store w))) (getSessionList w) /\
  StronglySorted (fun s s' => updatedAt s' <= updatedAt s) (getSessionList w).
Proof.
  unfold getSessionList. induction (map snd (sessions (store w))) as [|a l (perm & sorted)];
    simpl.
  - split; constructor.
  - split.
    + rewrite <- insertByUpdatedAt_permutation. now apply perm_skip.
    + now apply insertByUpdatedAt_descending.
Qed.

Section Names.
Variable env : Env.

Lemma renameSession_renames sessionId newName w session :
  sessionAt w sessionId = Some session ->
  let w' := renameSession env sessionId newName w in
  sessionAt w' sessionId =
    Some {| s_id := s_id session; s_name := JStr newName;
            createdAt := createdAt session;
            updatedAt := Date_now env (readings w);
            s_tree := s_tree session |} /\
  (forall k, k <> sessionId -> sessionAt w' k = sessionAt w k) /\
  treeOf w' = treeOf w /\
  currentSessionId (store w') = currentSessionId (store w) /\
  readings w' = S (readings w).
Proof.
  unfold renameSession, sessionAt, treeOf. intros held. rewrite held. simpl.
  rewrite get_set_same. repeat split.
  intros k apart. apply get_set_other. congruence.
Qed.

Lemma saveToStorage_names sessionId w :
  currentSessionId (store w) = Some sessionId -> sessionId <> EmptyString ->
  exists saved,
    sessionAt (saveToStorage env w) sessionId = Some saved /\
    s_name saved = JStr ("Session " +++ toLocaleString env (readings w)) /\
    s_tree saved = storedImage (treeOf w).
Proof.
  intros active nonempty.
  unfold saveToStorage, saveCurrentSession, newSessionIdentifier, reading, sessionAt, treeOf.
  rewrite active, (truthyId_nonempty sessionId nonempty). simpl.
  repeat match goal with
         | |- context [match ?o with Some _ => _ | None => _ end] => destruct o; simpl
         | |- context [if ?b then _ else _] => destruct b; simpl
         end;
    rewrite get_set_same; eexists; repeat split.
Qed.

(** X5. The name [renameSession] gives to the active session is the
    name it has until the tree is next changed: the save that follows
    every change is made without a name, and names the session
    [Session <date>] again. *)
Theorem renameSession_until_next_save sessionId newName node w session :
  currentSessionId (store w) = Some sessionId -> sessionId <> EmptyString ->
  sessionAt w sessionId = Some session ->
  let w1 := renameSession env sessionId newName w in
  let w2 := addNode env node w1 in
  (exists renamed,
     sessionAt w1 sessionId = Some renamed /\ s_name renamed = JStr newName /\
     s_tree renamed = s_tree session) /\
  (exists saved,
     sessionAt w2 sessionId = Some saved /\
     s_name saved = JStr ("Session " +++ toLocaleString env (S (readings w))) /\
     s_tree saved = storedImage (treeOf w2)).
Proof.
  intros active nonempty held w1 w2.
  destruct (renameSession_renames sessionId newName w session held)
    as (renamed & _ & _ & active1 & readings1).
  fold w1 in renamed, active1, readings1.
  split; [eexists; split; [exact renamed|]; split; reflexivity|].
  subst w2. unfold addNode.
  set (w1' := setState (onlyTree (addNodeTree node (tree (store w1)))) w1).
  assert (active' : currentSessionId (store w1') = Some sessionId)
    by (unfold w1'; simpl; congruence).
  assert (readings' : readings w1' = S (readings w)) by (unfold w1'; simpl; congruence).
  destruct (saveToStorage_names sessionId w1' active' nonempty)
    as (saved & stored & named & image).
  exists saved. rewrite <- readings'. repeat split; try assumption.
  rewrite image. unfold saveToStorage. now rewrite tree_saveCurrentSession.
Qed.

End Names.

Lemma renameSession_until_next_save_witness :
  currentSessionId (store worldAB) = Some sessionAB /\
  exists saved,
    sessionAt (addNode sampleEnv orphan (renameSession sampleEnv sessionAB "mine" worldAB))
      sessionAB = Some saved /\
    s_name saved = JStr ("Session " +++ toLocaleString sampleEnv (S (readings worldAB))).
Proof.
  split; [reflexivity|].
  destruct (sessionAt worldAB sessionAB) as [session|] eqn:held;
    [|vm_compute in held; discriminate].
  destruct (renameSession_until_next_save sampleEnv sessionAB "mine" orphan worldAB
              session eq_refl) as (_ & saved & stored & named & _).
  - discriminate.
  - exact held.
  - exists saved. split; [exact stored | exact named].
Defined.

(* ------------------------------------------------------------------ *)
(** * Collapsing                                                       *)
(* ------------------------------------------------------------------ *)

Section MapReplace.
Context {K V : Type} `{KeyEq K}.

Lemma set_held (m : JsMap.t K V) k v : JsMap.get m k = Some v -> JsMap.set m k v = m.
Proof.
  induction m as [|[k' v'] m IH]; simpl; [discriminate|].
  destruct (keyb_spec k' k) as [->|apart].
  - now intros [= ->].
  - intros held. now rewrite IH.
Qed.

Lemma set_set (m : JsMap.t K V) k v v' :
  JsMap.set (JsMap.set m k v) k v' = JsMap.set m k v'.
Proof.
  induction m as [|[k' u] m IH]; simpl.
  - now rewrite keyb_same.
  - destruct (keyb_spec k' k) as [->|apart]; simpl.
    + now rewrite keyb_same.
    + destruct (keyb_spec k' k); [contradiction|]. now rewrite IH.
Qed.

End MapReplace.

Lemma mergeNode_collapse_twice n :
  mergeNode (mergeNode n (collapse (negb (isCollapsed n))))
            (collapse (negb (negb (isCollapsed n)))) = n.
Proof. destruct n as [? ? ? ? ? ? ? ? ? ? collapsed ?]. simpl. now rewrite negb_involutive. Qed.

(** X6. [toggleCollapse] of a node of the tree negates the
    [isCollapsed] flag of that node and changes nothing else: every
    other field of the node, every other node, the order of the ids and
    the roots are as before, and a second [toggleCollapse] of the same
    node gives the tree back. *)
Theorem toggleCollapse_twice env i w n :
  getNode i w = Some n ->
  let w1 := toggleCollapse env i w in
  getNode i w1 =
    Some {| id := id n; name := name n; question := question n; answer := answer n;
            answerSections := answerSections n; parentId := parentId n;
            childrenIds := childrenIds n; context := context n;
            timestamp := timestamp n; position := position n;
            isCollapsed := negb (isCollapsed n);
            selectedSectionIndexFromParent := selectedSectionIndexFromParent n |} /\
  (forall k, k <> i -> getNode k w1 = getNode k w) /\
  JsMap.keys (nodes (treeOf w1)) = JsMap.keys (nodes (treeOf w)) /\
  rootIds (treeOf w1) = rootIds (treeOf w) /\
  treeOf (toggleCollapse env i w1) = treeOf w.
Proof.
  intros held w1.
  assert (tree1 : treeOf w1 =
                  {| nodes := JsMap.set (nodes (treeOf w)) i
                                (mergeNode n (collapse (negb (isCollapsed n))));
                     rootIds := rootIds (treeOf w) |}).
  { unfold w1, toggleCollapse. unfold getNode in held. rewrite held.
    rewrite tree_updateNode. unfold updateNodeTree, treeOf. now rewrite held. }
  unfold getNode in *. fold (treeOf w) in *. fold (treeOf w1).
  assert (held1 : JsMap.get (nodes (treeOf w1)) i =
                  Some (mergeNode n (collapse (negb (isCollapsed n)))))
    by (rewrite tree1; simpl; apply get_set_same).
  split; [exact held1|]. split; [|split; [|split]].
  - intros k apart. fold (treeOf w1). rewrite tree1. simpl. apply get_set_other. congruence.
  - rewrite tree1. simpl. apply keys_set_present. exact (get_some_in_keys _ _ _ held).
  - now rewrite tree1.
  - unfold toggleCollapse. fold (treeOf w1). rewrite held1.
    rewrite tree_updateNode. unfold updateNodeTree. rewrite held1.
    change (isCollapsed (mergeNode n (collapse (negb (isCollapsed n)))))
      with (negb (isCollapsed n)).
    rewrite mergeNode_collapse_twice, tree1. simpl.
    rewrite set_set, (set_held _ _ _ held). now destruct (treeOf w).
Qed.

Lemma toggleCollapse_twice_witness :
  getNode "a" worldAB <> None /\
  (exists before after,
     getNode "a" worldAB = Some before /\
     getNode "a" (toggleCollapse sampleEnv "a" worldAB) = Some after /\
     isCollapsed before = false /\ isCollapsed after = true /\
     question after = "first" /\ childrenIds after = ["b"]) /\
  treeOf (toggleCollapse sampleEnv "a" (toggleCollapse sampleEnv "a" worldAB)) =
  treeOf worldAB.
Proof.
  split; [vm_compute; discriminate|].
  destruct (getNode "a" worldAB) as [n|] eqn:held; [|vm_compute in held; discriminate].
  destruct (toggleCollapse_twice sampleEnv "a" worldAB n held)
    as (toggled & _ & _ & _ & back).
  split; [|exact back].
  eexists. eexists. split; [reflexivity|]. split; [exact toggled|].
  vm_compute in held. injection held as <-. repeat split.
Defined.

(* ------------------------------------------------------------------ *)
(** * Loading a session                                                *)
(* ------------------------------------------------------------------ *)

Lemma allOf_map {A B} (f : B -> option A) (g : A -> B) l :
  (forall a, f (g a) = Some a) -> allOf (map f (map g l)) = Some l.
Proof.
  intros inverse. induction l as [|a l IH]; simpl; [reflexivity|].
  now rewrite inverse, IH.
Qed.

Lemma asArrayOf_strings l : asArrayOf asString (jsOfStrings l) = Some l.
Proof. apply allOf_map. reflexivity. Qed.

Lemma sectionOfJs_jsOfSection s : sectionOfJs (jsOfSection s) = Some s.
Proof. now destruct s. Qed.

Lemma nodeOfJs_jsOfNode n : nodeOfJs (jsOfNode n) = Some n.
Proof.
  destruct n as [i nm q a sections parent children ctx ts [px py] collapsed selected].
  unfold jsOfNode, nodeOfJs.
  destruct sections as [sections|], selected as [selected|], parent as [parent|];
    cbn -[asArrayOf jsOfStrings];
    rewrite ?asArrayOf_strings;
    cbn -[allOf];
    rewrite ?(allOf_map sectionOfJs jsOfSection sections sectionOfJs_jsOfSection);
    reflexivity.
Qed.

Lemma JsVal_induction (P : JsVal -> Prop) :
  P JUndefined -> P JNull -> (forall b, P (JBool b)) -> (forall n, P (JNum n)) ->
  (forall s, P (JStr s)) ->
  (forall items, Forall P items -> P (JArr items)) ->
  (forall fields, Forall (fun f => P (snd f)) fields -> P (JObj fields)) ->
  (forall entries, Forall (fun e => P (fst e) /\ P (snd e)) entries -> P (JMap entries)) ->
  forall v, P v.
Proof.
  intros undefined null bools nums strs arrs objs maps.
  fix IH 1. intros [| |b|n|s|items|fields|entries];
    [exact undefined | exact null | apply bools | apply nums | apply strs | | |].
  - apply arrs. induction items as [|v items each]; constructor; [apply IH | exact each].
  - apply objs. induction fields as [|[k v] fields each]; constructor;
      [apply IH | exact each].
  - apply maps. induction entries as [|[k v] entries each]; constructor;
      [split; apply IH | exact each].
Qed.

Lemma jsEqb_eq a : forall b, jsEqb a b = true <-> a = b.
Proof.
  induction a as [| |x|x|x|xs each|xs each|xs each] using JsVal_induction;
    intros [| |y|y|y|ys|ys|ys]; simpl; try (split; [discriminate|congruence]);
    try tauto.
  - rewrite Bool.eqb_true_iff. split; congruence.
  - rewrite Z.eqb_eq. split; congruence.
  - rewrite String.eqb_eq. split; congruence.
  - revert ys. induction each as [|x xs same _ IH]; intros [|y ys];
      try (split; [discriminate|congruence]); [tauto|].
    rewrite andb_true_iff, same. specialize (IH ys). split.
    + intros (-> & rest). apply IH in rest. congruence.
    + intros [= -> ->]. split; [reflexivity|]. now apply IH.
  - revert ys. induction each as [|[k x] xs same _ IH]; intros [|[k' y] ys];
      try (split; [discriminate|congruence]); [tauto|].
    simpl in same. rewrite !andb_true_iff, same, String.eqb_eq. specialize (IH ys). split.
    + intros ((-> & ->) & rest). apply IH in rest. congruence.
    + intros [= -> -> ->]. split; [split; reflexivity|]. now apply IH.
  - revert ys. induction each as [|[k x] xs (sameKey & same) _ IH]; intros [|[k' y] ys];
      try (split; [discriminate|congruence]); [tauto|].
    simpl in sameKey, same. rewrite !andb_true_iff, sameKey, same. specialize (IH ys). split.
    + intros ((-> & ->) & rest). apply IH in rest. congruence.
    + intros [= -> -> ->]. split; [split; reflexivity|]. now apply IH.
Qed.

Lemma typedNode_jsOfNode n : typedNode (jsOfNode n) = Some n.
Proof.
  unfold typedNode. rewrite nodeOfJs_jsOfNode. cbn [andThen].
  now rewrite (proj2 (jsEqb_eq (jsOfNode n) (jsOfNode n)) eq_refl).
Qed.

(** A value that [typedNode] reads as a node is the object of that node. *)
Lemma typedNode_image v n : typedNode v = Some n -> v = jsOfNode n.
Proof.
  unfold typedNode. destruct (nodeOfJs v) as [node|]; [|discriminate]. cbn [andThen].
  destruct (jsEqb (jsOfNode node) v) eqn:same; [|discriminate].
  intros [= <-]. symmetry. now apply jsEqb_eq.
Qed.

Lemma mapSet_fresh m k v :
  Forall (fun e => sameValueZero (fst e) k = false) m -> mapSet m k v = m ++ [(k, v)].
Proof.
  induction 1 as [|[k' v'] m fresh _ IH]; simpl; [reflexivity|].
  simpl in fresh. now rewrite fresh, IH.
Qed.

Lemma newMapFrom_pairs (m seen : JsMap.t string ConversationNode) :
  NoDup (JsMap.keys (seen ++ m)) ->
  newMapFrom (map (fun e => JArr [JStr (fst e); jsOfNode (snd e)]) m)
             (map (fun e => (JStr (fst e), jsOfNode (snd e))) seen)
  = Some (map (fun e => (JStr (fst e), jsOfNode (snd e))) (seen ++ m)).
Proof.
  revert seen. induction m as [|[k n] m IH]; intros seen distinct; simpl.
  - now rewrite app_nil_r.
  - rewrite mapSet_fresh.
    + change (map (fun e => (JStr (fst e), jsOfNode (snd e))) seen ++ [(JStr k, jsOfNode n)])
        with (map (fun e => (JStr (fst e), jsOfNode (snd e))) seen
              ++ map (fun e : string * ConversationNode => (JStr (fst e), jsOfNode (snd e)))
                     [(k, n)]).
      rewrite <- map_app, IH; rewrite <- app_assoc; [reflexivity | exact distinct].
    + apply Forall_forall. intros [k' v'] listed. apply in_map_iff in listed.
      destruct listed as ([k0 n0] & [= <- <-] & listed). simpl.
      apply String.eqb_neq. intros ->.
      unfold JsMap.keys in distinct. rewrite map_app in distinct. simpl in distinct.
      apply NoDup_remove_2 in distinct. apply distinct, in_or_app. left.
      apply in_map_iff. now exists (k, n0).
Qed.

Lemma nodeEntries_pairs (m : JsMap.t string ConversationNode) :
  nodeEntries (map (fun e => (JStr (fst e), jsOfNode (snd e))) m) = Some m.
Proof.
  induction m as [|[k n] m IH]; [reflexivity|].
  cbn [nodeEntries map fst snd asString andThen].
  now rewrite typedNode_jsOfNode, IH.
Qed.

(** A typed tree that was loaded is the tree whose image was stored. *)
Lemma nodeEntries_image entries : forall loaded,
  nodeEntries entries = Some loaded ->
  entries = map (fun e => (JStr (fst e), jsOfNode (snd e))) loaded.
Proof.
  induction entries as [|[k v] entries IH]; intros loaded; simpl.
  - now intros [= <-].
  - destruct k as [| | | |key| | |]; try discriminate. cbn [asString andThen].
    destruct (typedNode v) as [node|] eqn:typed; [|discriminate]. cbn [andThen].
    destruct (nodeEntries entries) as [more|]; [|discriminate]. cbn [andThen].
    intros [= <-]. simpl. now rewrite (typedNode_image v node typed), (IH more eq_refl).
Qed.

Lemma allOf_asString_strings l : allOf (map asString (map JStr l)) = Some l.
Proof. apply allOf_map. reflexivity. Qed.

Section Loading.
Variable env : Env.

Lemma allOf_asString_image roots : forall ids,
  allOf (map asString roots) = Some ids -> roots = map JStr ids.
Proof.
  induction roots as [|v roots IH]; intros ids; simpl.
  - now intros [= <-].
  - destruct v as [| | | |i| | |]; try discriminate. cbn [asString andThen].
    destruct (allOf (map asString roots)) as [more|]; [|discriminate]. cbn [andThen].
    intros [= <-]. simpl. now rewrite (IH more eq_refl).
Qed.

(** The typed tree [loadSession] leaves for a stored session is the tree
    whose objects the session holds, and no other. *)
Lemma loadSession_tree_image sessionId w session w' :
  sessionAt w sessionId = Some session ->
  loadSession env sessionId w = LoadedTree w' ->
  newMap (storedNodes (s_tree session))
    = Some (map (fun e => (JStr (fst e), jsOfNode (snd e))) (nodes (treeOf w'))) /\
  spread (storedRootIds (s_tree session)) = Some (map JStr (rootIds (treeOf w'))) /\
  currentSessionId (store w') = Some sessionId.
Proof.
  unfold sessionAt, loadSession. intros held. rewrite held.
  destruct (newMap (storedNodes (s_tree session))) as [entries|]; [|discriminate].
  destruct (spread (storedRootIds (s_tree session))) as [roots|]; [|discriminate].
  destruct (nodeEntries entries) as [loaded|] eqn:typed; [|discriminate].
  destruct (allOf (map asString roots)) as [rootIds|] eqn:strings; [|discriminate].
  intros [= <-]. unfold treeOf. simpl.
  rewrite (nodeEntries_image entries loaded typed), (allOf_asString_image roots rootIds strings).
  repeat split.
Qed.

(** X7. [loadSession] of a session that holds what a save stored for a
    tree makes that tree the live tree and the session the active one. *)
Theorem loadSession_restores sessionId w session t :
  sessionAt w sessionId = Some session ->
  s_tree session = storedImage t ->
  NoDup (JsMap.keys (nodes t)) ->
  exists w',
    loadSession env sessionId w = LoadedTree w' /\
    treeOf w' = t /\
    currentSessionId (store w') = Some sessionId.
Proof.
  unfold sessionAt, loadSession. intros held image distinct. rewrite held, image.
  unfold storedImage. cbn [storedNodes storedRootIds newMap].
  pose proof (newMapFrom_pairs (nodes t) [] distinct) as built. simpl in built.
  rewrite built. unfold jsOfStrings. cbn [spread].
  rewrite nodeEntries_pairs, allOf_asString_strings.
  eexists. split; [reflexivity|]. split; [|reflexivity].
  unfold treeOf. simpl. now destruct t.
Qed.

(** X8. Leaving a session for a new one and coming back: when the
    active session holds the live tree, [createNewSession] followed by
    [loadSession] of the session that was active gives the tree back. *)
Theorem createNewSession_then_loadSession sessionId w session :
  currentSessionId (store w) = Some sessionId ->
  sessionAt w sessionId = Some session ->
  s_tree session = storedImage (treeOf w) ->
  NoDup (JsMap.keys (nodes (treeOf w))) ->
  fst (createNewSession env w) <> sessionId ->
  treeOf (snd (createNewSession env w)) = initialTree /\
  exists w',
    loadSession env sessionId (snd (createNewSession env w)) = LoadedTree w' /\
    treeOf w' = treeOf w /\
    currentSessionId (store w') = Some sessionId.
Proof.
  intros active held image distinct apart.
  set (w1 := snd (createNewSession env w)).
  assert (tree1 : treeOf w1 = initialTree).
  { unfold w1, createNewSession, newSessionIdentifier, reading, treeOf.
    destruct (truthyId (currentSessionId (store w)));
      [destruct (0 <? JsMap.size (nodes (tree (store w))))%nat|]; reflexivity. }
  assert (active1 : currentSessionId (store w1) = Some (fst (createNewSession env w)))
    by apply createNewSession_current.
  assert (held1 : sessionAt w1 sessionId = Some session).
  { revert apart. unfold w1, sessionAt in *.
    unfold createNewSession, newSessionIdentifier, reading.
    destruct (truthyId (currentSessionId (store w)));
      [destruct (0 <? JsMap.size (nodes (tree (store w))))%nat|]; simpl;
      intros apart; (rewrite get_set_other; [exact held | congruence]). }
  split; [exact tree1|].
  unfold loadSession. unfold sessionAt in held1. rewrite held1.
  unfold treeOf in tree1. rewrite tree1. cbn [initialTree nodes JsMap.size JsMap.empty].
  replace (match truthyId (currentSessionId (store w1)) with
           | Some _ => if (0 <? @List.length (string * ConversationNode) [])%nat
                       then snd (saveCurrentSession env None w1) else w1
           | None => w1
           end) with w1 by (now destruct (truthyId (currentSessionId (store w1)))).
  rewrite image. unfold storedImage. cbn [storedNodes storedRootIds newMap].
  pose proof (newMapFrom_pairs (nodes (treeOf w)) [] distinct) as built. simpl in built.
  rewrite built. unfold jsOfStrings. cbn [spread].
  rewrite nodeEntries_pairs, allOf_asString_strings.
  eexists. split; [reflexivity|]. split; [|reflexivity].
  unfold treeOf. simpl. now destruct (tree (store w)).
Qed.

End Loading.

Lemma loadSession_restores_witness :
  sessionAt worldAB sessionAB <> None /\
  exists w',
    loadSession sampleEnv sessionAB worldAB = LoadedTree w' /\
    treeOf w' = treeOf worldAB /\
    currentSessionId (store w') = Some sessionAB.
Proof.
  split; [vm_compute; discriminate|].
  destruct (sessionAt worldAB sessionAB) as [session|] eqn:held;
    [|vm_compute in held; discriminate].
  apply (loadSession_restores sampleEnv sessionAB worldAB session (treeOf worldAB) held).
  - vm_compute in held. injection held as <-. reflexivity.
  - exact (wf_keys _ WellFormed_worldAB).
Defined.

Lemma createNewSession_then_loadSession_witness :
  currentSessionId (store worldAB) = Some sessionAB /\
  fst (createNewSession sampleEnv worldAB) <> sessionAB /\
  exists w',
    loadSession sampleEnv sessionAB (snd (createNewSession sampleEnv worldAB)) = LoadedTree w' /\
    treeOf w' = treeOf worldAB /\
    currentSessionId (store w') = Some sessionAB.
Proof.
  split; [reflexivity|]. split; [vm_compute; discriminate|].
  destruct (sessionAt worldAB sessionAB) as [session|] eqn:held;
    [|vm_compute in held; discriminate].
  apply (createNewSession_then_loadSession sampleEnv sessionAB worldAB session eq_refl held).
  - vm_compute in held. injection held as <-. reflexivity.
  - exact (wf_keys _ WellFormed_worldAB).
  - vm_compute. discriminate.
Defined.

(* ------------------------------------------------------------------ *)
(** * The layout of a well-formed tree                                 *)
(* ------------------------------------------------------------------ *)

Lemma NoDup_keys_placeLevel depth ids : forall index positions,
  NoDup (JsMap.keys positions) ->
  NoDup (JsMap.keys (placeLevel depth ids index positions)).
Proof.
  induction ids as [|k ids IH]; intros index positions distinct; [assumption|].
  cbn [placeLevel]. apply IH. now apply NoDup_keys_set.
Qed.

Lemma NoDup_keys_placeLevels nodesByDepth depths : forall positions,
  NoDup (JsMap.keys positions) ->
  NoDup (JsMap.keys (placeLevels nodesByDepth depths positions)).
Proof.
  unfold placeLevels.
  induction depths as [|d depths IH]; intros positions distinct; [assumption|].
  simpl. apply IH. now apply NoDup_keys_placeLevel.
Qed.

Lemma NoDup_keys_calculateAutoLayout fuel t positions :
  calculateAutoLayout fuel t = Some positions -> NoDup (JsMap.keys positions).
Proof.
  unfold calculateAutoLayout, calculateSimpleLayout.
  destruct (Nat.eqb (JsMap.size (nodes t)) 0); [intros [= <-]; constructor|].
  destruct (groupByDepth fuel t (nodes t) JsMap.empty JsMap.empty) as [[levels memo]|];
    [|discriminate].
  intros [= <-]. apply NoDup_keys_placeLevels. constructor.
Qed.

Lemma calculateAutoLayout_placed t depthOf :
  NoDup (nodeIds t) ->
  (forall k n, nodeAt t k = Some n -> id n = k) ->
  (forall k, In k (nodeIds t) -> Depth t k (depthOf k)) ->
  exists fuel0 positions,
    (forall fuel, (fuel0 <= fuel)%nat ->
       calculateAutoLayout fuel t = Some positions) /\
    (forall k, In k (JsMap.keys positions) <-> In k (nodeIds t)) /\
    (forall k i,
       nth_error (depthGroup depthOf t (depthOf k)) i = Some k ->
       JsMap.get positions k = Some (placed (depthOf k) (Z.of_nat i))).
Proof.
  intros once keyed depths.
  set (fuel0 := S (list_max (map (fun k => Z.to_nat (depthOf k)) (nodeIds t)))).
  assert (enough : forall k, In k (nodeIds t) -> (Z.to_nat (depthOf k) < fuel0)%nat).
  { intros k listed.
    assert (le : (list_max (map (fun k => Z.to_nat (depthOf k)) (nodeIds t))
                  <= list_max (map (fun k => Z.to_nat (depthOf k)) (nodeIds t)))%nat)
      by lia.
    rewrite list_max_le, Forall_forall in le.
    specialize (le (Z.to_nat (depthOf k))). subst fuel0.
    apply Nat.lt_succ_r, le, in_map_iff. eauto. }
  destruct (groupByDepth_levels t depthOf fuel0 (nodes t)) with
    (seen := @nil string) (nodesByDepth := @JsMap.empty Z (list string))
    (depthMap := @JsMap.empty string Z)
    as (nodesByDepth & depthMap & grouped & levels).
  { intros k n listed.
    assert (inIds : In k (nodeIds t)).
    { unfold nodeIds, JsMap.keys. apply in_map_iff. now exists (k, n). }
    split; [|split; auto]. apply keyed. unfold nodeAt.
    now apply in_entries_get. }
  { intros d. reflexivity. }
  { intros k d. discriminate. }
  simpl in levels. change (map fst (nodes t)) with (nodeIds t) in levels.
  assert (filed : forall k, In k (nodeIds t) ->
            In (depthOf k) (sortAscending (JsMap.keys nodesByDepth))).
  { intros k listed.
    apply (Permutation_in _ (sortAscending_permutation _)).
    destruct (JsMap.get nodesByDepth (depthOf k)) as [level|] eqn:e.
    - eapply get_some_in_keys; eauto.
    - rewrite (levels (depthOf k)) in e.
      assert (inLevel : In k (levelOf depthOf (nodeIds t) (depthOf k)))
        by (apply in_levelOf; auto).
      destruct (levelOf depthOf (nodeIds t) (depthOf k)); [contradiction|discriminate]. }
  exists fuel0.
  exists (if Nat.eqb (JsMap.size (nodes t)) 0 then JsMap.empty
          else placeLevels nodesByDepth (sortAscending (JsMap.keys nodesByDepth))
                 JsMap.empty).
  split; [|split].
  - intros fuel le. apply calculateAutoLayout_more_fuel with fuel0; [|assumption].
    unfold calculateAutoLayout, calculateSimpleLayout.
    destruct (Nat.eqb (JsMap.size (nodes t)) 0); [reflexivity|].
    now rewrite grouped.
  - intros k. destruct (Nat.eqb (JsMap.size (nodes t)) 0) eqn:none.
    + apply Nat.eqb_eq in none. unfold nodeIds, JsMap.keys.
      destruct (nodes t); [tauto|discriminate].
    + rewrite (placeLevels_keys depthOf (nodeIds t) nodesByDepth levels). split.
      * intros [(d & _ & inLevel)|[]]. now apply in_levelOf in inLevel.
      * intros listed. left. exists (depthOf k). split; [auto|].
        apply in_levelOf. auto.
  - intros k i found.
    assert (listed : In k (nodeIds t)).
    { apply nth_error_In in found. now apply in_levelOf in found. }
    destruct (Nat.eqb (JsMap.size (nodes t)) 0) eqn:none.
    + apply Nat.eqb_eq in none. unfold nodeIds, JsMap.keys in listed.
      destruct (nodes t); [contradiction|discriminate].
    + apply (placeLevels_placed depthOf (nodeIds t) nodesByDepth once levels); auto.
Qed.

Lemma choose_depths (l : list string) (P : string -> Z -> Prop) :
  (forall k, In k l -> exists d, P k d) -> exists f, forall k, In k l -> P k (f k).
Proof.
  induction l as [|a l IH]; intros each.
  - exists (fun _ => 0). contradiction.
  - destruct IH as [f chosen]; [intros k listed; apply each; now right|].
    destruct (each a (or_introl eq_refl)) as [d holds].
    exists (fun k => if String.eqb k a then d else f k).
    intros k listed. destruct (String.eqb_spec k a) as [->|apart]; [assumption|].
    destruct listed as [<-|listed]; [contradiction|auto].
Qed.

Lemma Hops_Depth t k h :
  WellFormed t -> Hops (nodes t) k h -> Depth t k (Z.of_nat h).
Proof.
  intros wf. induction 1 as [i n held root|i n p h held link hops IH].
  - apply Depth_root with n; [assumption|]. now rewrite root.
  - replace (Z.of_nat (S h)) with (Z.of_nat h + 1) by lia.
    apply Depth_child with n p; [assumption| |assumption].
    rewrite link. apply truthyId_nonempty.
    now destruct (wf_parent t wf i n p held link).
Qed.

(** The layout of a well-formed tree: the depth of a node is the number
    of [parentId] links up to its root. *)
Lemma calculateAutoLayout_well_formed t :
  WellFormed t ->
  exists depthOf fuel0 positions,
    (forall k h, Hops (nodes t) k h -> depthOf k = Z.of_nat h) /\
    (forall fuel, (fuel0 <= fuel)%nat -> calculateAutoLayout fuel t = Some positions) /\
    (forall k, In k (JsMap.keys positions) <-> In k (nodeIds t)) /\
    (forall k i,
       nth_error (depthGroup depthOf t (depthOf k)) i = Some k ->
       JsMap.get positions k = Some (placed (depthOf k) (Z.of_nat i))).
Proof.
  intros wf.
  destruct (choose_depths (nodeIds t) (fun k d => exists h, Hops (nodes t) k h /\ d = Z.of_nat h))
    as [depthOf chosen].
  { intros k listed. apply in_keys_get in listed. destruct listed as [n held].
    destruct (wf_rooted t wf k n held) as [h hops]. eauto. }
  assert (counted : forall k h, Hops (nodes t) k h -> depthOf k = Z.of_nat h).
  { intros k h hops.
    assert (listed : In k (nodeIds t)).
    { inversion hops; subst; eapply get_some_in_keys; eauto. }
    destruct (chosen k listed) as (h' & hops' & ->).
    now rewrite (Hops_functional _ _ _ _ hops hops'). }
  destruct (calculateAutoLayout_placed t depthOf (wf_keys t wf) (wf_id t wf))
    as (fuel0 & positions & returns & keys & places).
  { intros k listed. destruct (chosen k listed) as (h & hops & ->).
    now apply Hops_Depth. }
  exists depthOf, fuel0, positions. auto.
Qed.

Lemma placed_of_node t depthOf positions k :
  (forall k i,
     nth_error (depthGroup depthOf t (depthOf k)) i = Some k ->
     JsMap.get positions k = Some (placed (depthOf k) (Z.of_nat i))) ->
  In k (nodeIds t) ->
  exists i,
    nth_error (depthGroup depthOf t (depthOf k)) i = Some k /\
    JsMap.get positions k = Some (placed (depthOf k) (Z.of_nat i)).
Proof.
  intros places listed.
  assert (inLevel : In k (depthGroup depthOf t (depthOf k)))
    by (apply in_levelOf; auto).
  destruct (In_nth_error _ _ inLevel) as [i found]. eauto.
Qed.

(** X9. The layout of a well-formed tree: every node gets a position;
    a root lies in the row at [y = 100] and a child in the row 350 below
    the row of its parent; two different nodes of one row are at least
    the width of a node and the horizontal spacing (900) apart in [x]. *)
Theorem calculateAutoLayout_rows t :
  WellFormed t ->
  exists fuel0 positions,
    (forall fuel, (fuel0 <= fuel)%nat -> calculateAutoLayout fuel t = Some positions) /\
    (forall k n, nodeAt t k = Some n ->
       exists p, JsMap.get positions k = Some p /\
         (parentId n = None -> y p = 100) /\
         (forall parent, parentId n = Some parent ->
            exists pp, JsMap.get positions parent = Some pp /\ y p = y pp + 350)) /\
    (forall k1 k2 p1 p2,
       k1 <> k2 ->
       JsMap.get positions k1 = Some p1 -> JsMap.get positions k2 = Some p2 ->
       y p1 = y p2 -> NODE_WIDTH + HORIZONTAL_SPACING <= Z.abs (x p1 - x p2)).
Proof.
  intros wf.
  destruct (calculateAutoLayout_well_formed t wf)
    as (depthOf & fuel0 & positions & counted & returns & keys & places).
  exists fuel0, positions. split; [exact returns|]. split.
  - intros k n held.
    assert (listed : In k (nodeIds t)) by (eapply get_some_in_keys; eauto).
    destruct (placed_of_node t depthOf positions k places listed) as (i & _ & at_k).
    exists (placed (depthOf k) (Z.of_nat i)). split; [exact at_k|]. split.
    + intros root. rewrite (counted k 0%nat) by (eapply Hops_root; eauto).
      reflexivity.
    + intros parent link.
      destruct (wf_parent t wf k n parent held link) as (_ & pn & heldp & _).
      destruct (wf_rooted t wf parent pn heldp) as [h hops].
      assert (listedp : In parent (nodeIds t)) by (eapply get_some_in_keys; eauto).
      destruct (placed_of_node t depthOf positions parent places listedp)
        as (j & _ & at_p).
      exists (placed (depthOf parent) (Z.of_nat j)). split; [exact at_p|].
      rewrite (counted parent h hops).
      rewrite (counted k (S h)) by (eapply Hops_child; eauto).
      unfold placed. cbn [y]. lia.
  - intros k1 k2 p1 p2 apart at1 at2 row.
    assert (listed1 : In k1 (nodeIds t)) by (apply keys; eapply get_some_in_keys; eauto).
    assert (listed2 : In k2 (nodeIds t)) by (apply keys; eapply get_some_in_keys; eauto).
    destruct (placed_of_node t depthOf positions k1 places listed1) as (i1 & found1 & e1).
    destruct (placed_of_node t depthOf positions k2 places listed2) as (i2 & found2 & e2).
    rewrite at1 in e1. rewrite at2 in e2. injection e1 as ->. injection e2 as ->.
    unfold placed in *. cbn [x y] in *.
    assert (level : depthOf k1 = depthOf k2) by lia.
    rewrite level in *.
    assert (i1 <> i2) by (intros ->; congruence).
    unfold NODE_WIDTH, HORIZONTAL_SPACING. lia.
Qed.

Lemma calculateAutoLayout_rows_witness :
  exists positions,
    calculateAutoLayout 3 (treeOf worldAB) = Some positions /\
    exists pa pb,
      JsMap.get positions "a" = Some pa /\ JsMap.get positions "b" = Some pb /\
      y pa = 100 /\ y pb = y pa + 350.
Proof.
  destruct (calculateAutoLayout_rows (treeOf worldAB) WellFormed_worldAB)
    as (fuel0 & positions & returns & rows & _).
  exists positions.
  assert (run : calculateAutoLayout (fuel0 + 3) (treeOf worldAB) = Some positions)
    by (apply returns; lia).
  assert (ran : calculateAutoLayout 3 (treeOf worldAB) <> None)
    by (vm_compute; discriminate).
  destruct (calculateAutoLayout 3 (treeOf worldAB)) as [found|] eqn:three;
    [|contradiction].
  rewrite (calculateAutoLayout_more_fuel 3 (fuel0 + 3) _ _ three) in run by lia.
  injection run as ->. split; [reflexivity|].
  destruct (rows "a" (withChildren nodeA ["b"]) eq_refl) as (pa & at_a & root & _).
  destruct (rows "b" (withChildren nodeB []) eq_refl) as (pb & at_b & _ & child).
  destruct (child "a" eq_refl) as (pa' & at_a' & below).
  exists pa, pb. rewrite at_a in at_a'. injection at_a' as <-.
  split; [exact at_a|]. split; [exact at_b|]. split; [exact (root eq_refl) | exact below].
Defined.

Lemma applyPositions_get positions :
  NoDup (JsMap.keys positions) ->
  forall m k,
    JsMap.get (applyPositions positions m) k =
    match JsMap.get m k with
    | None => None
    | Some n =>
        Some (match JsMap.get positions k with
              | Some p => withPosition n p
              | None => n
              end)
    end.
Proof.
  induction positions as [|[k0 p0] positions IH]; intros distinct m k.
  - simpl. now destruct (JsMap.get m k).
  - inversion distinct as [|? ? fresh distinct']; subst.
    cbn [applyPositions fold_left fst snd].
    change (fold_left _ positions ?m1) with (applyPositions positions m1).
    rewrite (IH distinct'). cbn [JsMap.get].
    destruct (keyb_spec k0 k) as [<-|apart].
    + assert (unplaced : JsMap.get positions k0 = None).
      { destruct (JsMap.get positions k0) eqn:e; [|reflexivity].
        apply get_some_in_keys in e. contradiction. }
      rewrite unplaced.
      destruct (JsMap.get m k0) as [node|] eqn:held.
      * now rewrite get_set_same.
      * now rewrite held.
    + destruct (JsMap.get m k0) as [node|] eqn:held; [|reflexivity].
      now rewrite get_set_other by congruence.
Qed.

Lemma applyPositions_keys positions : forall m,
  JsMap.keys (applyPositions positions m) = JsMap.keys m.
Proof.
  induction positions as [|[k0 p0] positions IH]; intros m; [reflexivity|].
  cbn [applyPositions fold_left fst snd].
  change (fold_left _ positions ?m1) with (applyPositions positions m1).
  rewrite IH. destruct (JsMap.get m k0) as [node|] eqn:held; [|reflexivity].
  apply keys_set_present. eapply get_some_in_keys; eauto.
Qed.

(** X10. [applyAutoLayout] on a well-formed tree returns; it gives every
    node the position of the layout and changes nothing else: the ids,
    their order, the roots and every other field of every node are as
    they were, and the tree is still well formed. *)
Theorem applyAutoLayout_moves_only env w :
  WellFormed (treeOf w) ->
  exists fuel0 positions,
    forall fuel, (fuel0 <= fuel)%nat ->
      calculateAutoLayout fuel (treeOf w) = Some positions /\
      exists w',
        applyAutoLayout env fuel w = Some w' /\
        nodeIds (treeOf w') = nodeIds (treeOf w) /\
        rootIds (treeOf w') = rootIds (treeOf w) /\
        (forall k n, nodeAt (treeOf w) k = Some n ->
           exists p, JsMap.get positions k = Some p /\
                     nodeAt (treeOf w') k =
                     Some {| id := id n; name := name n; question := question n;
                             answer := answer n; answerSections := answerSections n;
                             parentId := parentId n; childrenIds := childrenIds n;
                             context := context n; timestamp := timestamp n;
                             position := p; isCollapsed := isCollapsed n;
                             selectedSectionIndexFromParent :=
                               selectedSectionIndexFromParent n |}) /\
        WellFormed (treeOf w').
Proof.
  intros wf.
  destruct (calculateAutoLayout_well_formed (treeOf w) wf)
    as (depthOf & fuel0 & positions & _ & returns & keys & _).
  exists fuel0, positions. intros fuel le.
  pose proof (returns fuel le) as run. split; [exact run|].
  pose proof (NoDup_keys_calculateAutoLayout _ _ _ run) as distinct.
  unfold applyAutoLayout. fold (treeOf w). rewrite run.
  eexists. split; [reflexivity|].
  rewrite tree_saveToStorage. unfold treeOf at 1 3 5 7. cbn [setState store assign onlyTree
    p_tree tree orElse].
  set (t' := {| nodes := applyPositions positions (nodes (treeOf w));
                rootIds := rootIds (treeOf w) |}).
  assert (moved : forall k n, nodeAt (treeOf w) k = Some n ->
            exists p, JsMap.get positions k = Some p /\
                      nodeAt t' k = Some (withPosition n p)).
  { intros k n held. unfold nodeAt, t'. cbn [nodes].
    rewrite (applyPositions_get positions distinct). unfold nodeAt in held. rewrite held.
    assert (listed : In k (JsMap.keys positions))
      by (apply keys; eapply get_some_in_keys; eauto).
    apply in_keys_get in listed. destruct listed as [p at_k].
    exists p. now rewrite at_k. }
  split; [|split; [|split]].
  - unfold nodeIds, t'. cbn [nodes]. apply applyPositions_keys.
  - reflexivity.
  - exact moved.
  - apply (WellFormed_same_shape (treeOf w) t' wf).
    + unfold t'. cbn [nodes]. rewrite applyPositions_keys. apply (wf_keys _ wf).
    + reflexivity.
    + intros k n held. destruct (moved k n held) as (p & _ & held').
      exists (withPosition n p). auto.
    + intros k n' held'. unfold nodeAt, t' in held'. cbn [nodes] in held'.
      rewrite (applyPositions_get positions distinct) in held'.
      destruct (JsMap.get (nodes (treeOf w)) k) as [n|] eqn:held; [|discriminate].
      exists n. split; [exact held|]. injection held' as <-.
      now destruct (JsMap.get positions k).
Qed.

Lemma applyAutoLayout_moves_only_witness :
  exists fuel w' a b,
    applyAutoLayout sampleEnv fuel worldAB = Some w' /\
    nodeIds (treeOf w') = ["a"; "b"] /\
    position (withChildren nodeA ["b"]) = {| x := 0; y := 0 |} /\
    nodeAt (treeOf w') "a" = Some a /\ position a = {| x := 300; y := 100 |} /\
    nodeAt (treeOf w') "b" = Some b /\ position b = {| x := 800; y := 450 |} /\
    question a = "first" /\ parentId b = Some "a" /\
    WellFormed (treeOf w').
Proof.
  destruct (applyAutoLayout_moves_only sampleEnv worldAB WellFormed_worldAB)
    as (fuel0 & positions & moves).
  destruct (moves (fuel0 + 3)%nat (Nat.le_add_r fuel0 3))
    as (run & w' & applied & ids & _ & moved & wf').
  assert (ran : calculateAutoLayout 3 (treeOf worldAB) <> None)
    by (vm_compute; discriminate).
  destruct (calculateAutoLayout 3 (treeOf worldAB)) as [found|] eqn:three;
    [|contradiction].
  rewrite (calculateAutoLayout_more_fuel 3 (fuel0 + 3) _ _ three) in run by lia.
  injection run as <-. vm_compute in three. injection three as <-.
  destruct (moved "a" (withChildren nodeA ["b"]) eq_refl) as (pa & at_a & held_a).
  destruct (moved "b" (withChildren nodeB []) eq_refl) as (pb & at_b & held_b).
  injection at_a as <-. injection at_b as <-.
  exists (fuel0 + 3)%nat, w'. eexists. eexists.
  split; [exact applied|]. split; [exact ids|]. split; [reflexivity|].
  split; [exact held_a|]. split; [reflexivity|].
  split; [exact held_b|]. split; [reflexivity|].
  split; [reflexivity|]. split; [reflexivity | exact wf'].
Defined.

(* ------------------------------------------------------------------ *)
(** * The sections a node was continued from                           *)
(* ------------------------------------------------------------------ *)

Lemma spawnedFrom_app t seen more i :
  spawnedFrom t (seen ++ more) i = spawnedFrom t seen i ++ spawnedFrom t more i.
Proof. apply filter_app. Qed.

Lemma sectionsOk_skip t seen usedSections sectionToChildMap childId :
  (forall i, spawnedFrom t [childId] i = []) ->
  sectionsOk t seen usedSections sectionToChildMap ->
  sectionsOk t (seen ++ [childId]) usedSections sectionToChildMap.
Proof.
  intros skipped (once & ok). split; [assumption|]. intros i.
  rewrite spawnedFrom_app, skipped, app_nil_r. apply ok.
Qed.

Lemma sectionsOk_spawned t seen usedSections sectionToChildMap childId childNode sectionIndex :
  nodeAt t childId = Some childNode ->
  selectedSectionIndexFromParent childNode = Some sectionIndex ->
  sectionsOk t seen usedSections sectionToChildMap ->
  let filed :=
    if JsMap.has sectionToChildMap sectionIndex then sectionToChildMap
    else JsMap.set sectionToChildMap sectionIndex [] in
  sectionsOk t (seen ++ [childId])
    (if existsb (Z.eqb sectionIndex) usedSections then usedSections
     else usedSections ++ [sectionIndex])
    (JsMap.set filed sectionIndex (orElse (JsMap.get filed sectionIndex) [] ++ [childId])).
Proof.
  intros held selected (once & ok) filed.
  assert (one : forall i, spawnedFrom t [childId] i
                          = if sectionIndex =? i then [childId] else []).
  { intros i. unfold spawnedFrom. cbn [filter]. rewrite held, selected.
    now destruct (sectionIndex =? i). }
  assert (before : orElse (JsMap.get filed sectionIndex) [] = spawnedFrom t seen sectionIndex).
  { subst filed. unfold JsMap.has.
    destruct (JsMap.get sectionToChildMap sectionIndex) as [g|] eqn:e.
    - rewrite e. simpl. rewrite (proj1 (ok sectionIndex)) in e.
      destruct (spawnedFrom t seen sectionIndex); congruence.
    - rewrite get_set_same. simpl. rewrite (proj1 (ok sectionIndex)) in e.
      now destruct (spawnedFrom t seen sectionIndex). }
  split.
  - destruct (existsb (Z.eqb sectionIndex) usedSections) eqn:used; [assumption|].
    apply NoDup_app; [assumption | repeat constructor; auto |].
    intros i listed [<-|[]].
    assert (existsb (Z.eqb sectionIndex) usedSections = true); [|congruence].
    apply existsb_exists. exists sectionIndex. split; [assumption | apply Z.eqb_refl].
  - intros i. rewrite spawnedFrom_app, one, get_set, before. split.
    + key_cases.
      * rewrite Z.eqb_refl. now destruct (spawnedFrom t seen sectionIndex).
      * replace (sectionIndex =? i) with false by (symmetry; now apply Z.eqb_neq).
        rewrite app_nil_r, <- (proj1 (ok i)). subst filed. unfold JsMap.has.
        destruct (JsMap.get sectionToChildMap sectionIndex); [reflexivity|].
        now apply get_set_other.
    + destruct (Z.eqb_spec sectionIndex i) as [<-|apart].
      * split; [intros _ e; now apply app_eq_nil in e|]. intros _.
        destruct (existsb (Z.eqb sectionIndex) usedSections) eqn:used.
        -- apply existsb_exists in used. destruct used as (j & listed & same).
           apply Z.eqb_eq in same. now subst j.
        -- apply in_or_app. right. now left.
      * rewrite app_nil_r, <- (proj2 (ok i)).
        destruct (existsb (Z.eqb sectionIndex) usedSections); [reflexivity|].
        rewrite in_app_iff. simpl. tauto.
Qed.

Lemma sectionsWithChildren_ok t childrenIds : forall seen usedSections sectionToChildMap,
  sectionsOk t seen usedSections sectionToChildMap ->
  sectionsOk t (seen ++ childrenIds)
    (fst (sectionsWithChildren t childrenIds usedSections sectionToChildMap))
    (snd (sectionsWithChildren t childrenIds usedSections sectionToChildMap)).
Proof.
  induction childrenIds as [|childId rest IH]; intros seen usedSections sectionToChildMap ok.
  - simpl. now rewrite app_nil_r.
  - replace (seen ++ childId :: rest) with ((seen ++ [childId]) ++ rest)
      by now rewrite <- app_assoc.
    cbn [sectionsWithChildren].
    destruct (JsMap.get (nodes t) childId) as [childNode|] eqn:held;
      [destruct (selectedSectionIndexFromParent childNode) as [sectionIndex|] eqn:selected|].
    + apply IH. now apply sectionsOk_spawned with childNode.
    + apply IH, sectionsOk_skip; [|assumption].
      intros i. unfold spawnedFrom, nodeAt. cbn [filter]. now rewrite held, selected.
    + apply IH, sectionsOk_skip; [|assumption].
      intros i. unfold spawnedFrom, nodeAt. cbn [filter]. now rewrite held.
Qed.

(** X11. What the node component computes of the children of a node
    ([sectionsWithChildren]): the map has, under a section index, the
    children that the tree holds and that were spawned from that
    section, in the order of [childrenIds], and no entry for a section
    without such a child; the set of the sections in use holds exactly
    the indices that have an entry, each once. *)
Theorem sectionsWithChildren_spawned t childrenIds :
  let usedSections := fst (sectionsWithChildren t childrenIds [] JsMap.empty) in
  let sectionToChildMap := snd (sectionsWithChildren t childrenIds [] JsMap.empty) in
  NoDup usedSections /\
  forall i,
    JsMap.get sectionToChildMap i =
      match spawnedFrom t childrenIds i with
      | [] => None
      | spawned => Some spawned
      end /\
    (In i usedSections <-> spawnedFrom t childrenIds i <> []).
Proof.
  apply (sectionsWithChildren_ok t childrenIds [] [] JsMap.empty).
  split; [constructor|]. intros i. split; [reflexivity|]. simpl. tauto.
Qed.

(* ------------------------------------------------------------------ *)
(** * What an import stores                                            *)
(* ------------------------------------------------------------------ *)

Lemma lookupField_assignField_same fields k v :
  lookupField (assignField fields k v) k = v.
Proof.
  induction fields as [|[k' v'] fields IH]; simpl.
  - now rewrite String.eqb_refl.
  - destruct (String.eqb_spec k' k) as [->|apart]; simpl.
    + now rewrite String.eqb_refl.
    + now destruct (String.eqb_spec k' k).
Qed.

Lemma lookupField_assignField_other fields k v p :
  p <> k -> lookupField (assignField fields k v) p = lookupField fields p.
Proof.
  intros apart. induction fields as [|[k' v'] fields IH]; simpl.
  - now destruct (String.eqb_spec k p); [subst; contradiction|].
  - destruct (String.eqb_spec k' k) as [->|apart']; simpl.
    + now destruct (String.eqb_spec k p); [subst; contradiction|].
    + now rewrite IH.
Qed.

Lemma generateNodeName_truthy parentId state :
  truthy (JStr (generateNodeName parentId state)) = true.
Proof.
  unfold generateNodeName.
  destruct parentId as [| | | |p| | |]; try reflexivity;
    try (destruct (JsMap.get (nodes (tree state)) p)); reflexivity.
Qed.

Lemma backfillName_backfilled state k node node' :
  backfillName state node = Some node' -> backfilled (k, node) (k, node').
Proof.
  unfold backfillName, backfilled. cbn [fst snd].
  destruct (getProp node "name") as [current|] eqn:named; [|discriminate].
  destruct (truthy current) eqn:given.
  - intros [= <-]. split; [reflexivity|]. split; [reflexivity|]. split; [reflexivity|].
    intros fields ->. simpl in named. congruence.
  - destruct (getProp node "parentId") as [parent|]; [|discriminate].
    destruct node as [| | | | |items|fields|entries]; try discriminate; intros [= <-].
    + split; [reflexivity|]. split; [reflexivity|]. split; [reflexivity|]. discriminate.
    + split; [reflexivity|]. split; [|split].
      * intros p apart. simpl. now rewrite lookupField_assignField_other.
      * intros current' [= <-]. congruence.
      * intros fields' [= <-]. rewrite lookupField_assignField_same.
        apply generateNodeName_truthy.
    + split; [reflexivity|]. split; [reflexivity|]. split; [reflexivity|]. discriminate.
Qed.

Lemma backfillNames_backfilled state entries : forall named,
  backfillNames state entries = Some named -> Forall2 backfilled entries named.
Proof.
  induction entries as [|[k node] entries IH]; intros named; simpl.
  - intros [= <-]. constructor.
  - destruct (backfillName state node) as [node'|] eqn:one; [|discriminate].
    destruct (backfillNames state entries) as [rest|]; [|discriminate].
    intros [= <-]. constructor; [|now apply IH].
    now apply backfillName_backfilled with state.
Qed.

Section Importing.
Variable env : Env.

Lemma importSession_registers sessionData w sessionId w' :
  importSession env sessionData w = (Returned sessionId, w') ->
  exists data importedTree entries named session,
    JSON_parse env sessionData = Some data /\
    sessionTree data = Some importedTree /\
    newMap (nodesArrayIn importedTree) = Some entries /\
    backfillNames (store w) entries = Some named /\
    sessionId = fst (newSessionIdentifier env w) /\
    sessions (store w') = JsMap.set (sessions (store w)) sessionId session /\
    s_id session = sessionId /\
    storedNodes (s_tree session) = JMap named /\
    currentSessionId (store w') = currentSessionId (store w) /\
    treeOf w' = treeOf w.
Proof.
  unfold importSession. intros returned.
  destruct (JSON_parse env sessionData) as [data|] eqn:parsed; [|discriminate].
  destruct (getProp data "session") as [importedSession|] eqn:hasSession; [|discriminate].
  destruct (truthy importedSession) eqn:validSession; [|discriminate]. cbn [negb] in returned.
  destruct (getProp importedSession "tree") as [importedTree|] eqn:hasTree; [|discriminate].
  destruct (truthy importedTree) eqn:validTree; [|discriminate]. cbn [negb] in returned.
  fold (nodesArrayIn importedTree) in returned.
  destruct (newMap (nodesArrayIn importedTree)) as [entries|] eqn:built; [|discriminate].
  destruct (backfillNames (store w) entries) as [named|] eqn:filled; [|discriminate].
  assert (valid : sessionTree data = Some importedTree).
  { unfold sessionTree. now rewrite hasSession, validSession, hasTree, validTree. }
  exists data, importedTree, entries, named.
  unfold newSessionIdentifier, reading in *. cbn [fst snd] in *.
  destruct (truthy (orElse (getProp importedSession "name") JUndefined));
    destruct (truthy (orElse (getProp importedSession "createdAt") JUndefined));
    cbn in returned; injection returned as <- <-;
    eexists; (split; [reflexivity|]); (split; [exact valid|]); (split; [exact built|]);
    (split; [exact filled|]); repeat (split; [reflexivity|]); reflexivity.
Qed.

(** X12. A session that [importSession] has registered holds its nodes
    as a map in which every object has a name: the entries are those of
    the imported document, with the same keys in the same order; a value
    that came with a name is stored as it came, and a value without one
    differs from what came in its [name] only. *)
Theorem importSession_names_nodes sessionData w sessionId w' :
  importSession env sessionData w = (Returned sessionId, w') ->
  exists data importedTree entries named session,
    JSON_parse env sessionData = Some data /\
    sessionTree data = Some importedTree /\
    newMap (nodesArrayIn importedTree) = Some entries /\
    sessionAt w' sessionId = Some session /\
    storedNodes (s_tree session) = JMap named /\
    Forall2 backfilled entries named.
Proof.
  intros returned.
  destruct (importSession_registers sessionData w sessionId w' returned)
    as (data & importedTree & entries & named & session & parsed & valid & built & filled &
        _ & registered & _ & stored & _).
  exists data, importedTree, entries, named, session.
  repeat (split; [assumption|]). split; [|split; [assumption|]].
  - unfold sessionAt. rewrite registered. apply get_set_same.
  - now apply backfillNames_backfilled with (store w).
Qed.

End Importing.

Lemma importSession_names_nodes_witness :
  exists sessionId w' session,
    importSession sampleEnv (Json.stringify documentUnnamed) initialWorld
      = (Returned sessionId, w') /\
    sessionAt w' sessionId = Some session /\
    storedNodes (s_tree session) =
      JMap [(JStr "a", JObj [("id", JStr "a"); ("parentId", JNull);
                             ("name", JStr "Question 1")])].
Proof.
  destruct (importSession sampleEnv (Json.stringify documentUnnamed) initialWorld)
    as [[sessionId|message] w'] eqn:returned; [|vm_compute in returned; discriminate].
  destruct (importSession_names_nodes sampleEnv _ _ _ _ returned)
    as (_ & _ & _ & _ & session & _ & _ & _ & held & _).
  exists sessionId, w', session. split; [reflexivity|]. split; [exact held|].
  vm_compute in returned. injection returned as <- <-.
  vm_compute in held. injection held as <-. reflexivity.
Defined.

(* ------------------------------------------------------------------ *)
(** * Export and import of a session that holds a map                  *)
(* ------------------------------------------------------------------ *)

Lemma distinctKeys_fresh seen k v rest :
  distinctKeys (seen ++ (k, v) :: rest) ->
  Forall (fun e => sameValueZero (fst e) k = false) seen.
Proof.
  induction seen as [|[k' v'] seen IH]; simpl; [constructor|].
  intros (fresh & distinct). constructor; [|now apply IH].
  apply (fresh k v), in_or_app. right. now left.
Qed.

Lemma newMapFrom_entries entries : forall seen,
  distinctKeys (seen ++ entries) ->
  newMapFrom (map (fun e => JArr [fst e; snd e]) entries) seen = Some (seen ++ entries).
Proof.
  induction entries as [|[k v] entries IH]; intros seen distinct; simpl.
  - now rewrite app_nil_r.
  - rewrite (mapSet_fresh seen k v (distinctKeys_fresh seen k v entries distinct)).
    rewrite IH; rewrite <- app_assoc; [reflexivity | exact distinct].
Qed.

Lemma backfillNames_named state entries :
  (forall k v, In (k, v) entries -> namedObject v) ->
  backfillNames state entries = Some entries.
Proof.
  induction entries as [|[k v] entries IH]; intros named; [reflexivity|].
  destruct (named k v (or_introl eq_refl)) as (fields & -> & given).
  cbn [backfillNames backfillName getProp]. rewrite given, IH; [reflexivity|].
  intros k' v' listed. apply (named k' v'). now right.
Qed.

Section ExportImport.
Variable env : Env.

(** X13. Export and import of a session that holds its nodes as a map
    (an imported session does) of distinct keys and named objects, when
    [JSON.parse] reads back what [JSON.stringify] wrote of it: the
    export returns, the import of what it returned returns and registers
    a session with the same entries in the same order, the root ids
    (or the empty array, if they were falsy), and the name and the
    creation time, if they were truthy. *)
Theorem roundTrip_of_map sessionId w session entries :
  sessionAt w sessionId = Some session ->
  storedNodes (s_tree session) = JMap entries ->
  distinctKeys entries ->
  (forall k v, In (k, v) entries -> namedObject v) ->
  (let document :=
     exportDocument session (JArr (map (fun e => JArr [fst e; snd e]) entries))
       (Date_now env (readings w)) in
   JSON_parse env (JSON_stringify env document) = Some document) ->
  exists newSessionId w' imported,
    roundTrip env sessionId w = (Returned newSessionId, w') /\
    sessionAt w' newSessionId = Some imported /\
    storedNodes (s_tree imported) = JMap entries /\
    storedRootIds (s_tree imported) = jsOr (storedRootIds (s_tree session)) (JArr []) /\
    (truthy (s_name session) = true -> s_name imported = s_name session) /\
    (truthy (createdAt session) = true -> createdAt imported = createdAt session).
Proof.
  unfold sessionAt, roundTrip, exportSession.
  intros held stored distinct named readsBack. rewrite held, stored.
  cbn [entriesArray reading]. cbv zeta in readsBack.
  unfold exportDocument in readsBack.
  unfold importSession. rewrite readsBack.
  cbn [getProp lookupField String.eqb Ascii.eqb Bool.eqb truthy negb orElse jsOr].
  pose proof (newMapFrom_entries entries [] distinct) as built. simpl in built.
  cbn [newMap]. rewrite built.
  cbn [store]. rewrite (backfillNames_named _ entries named).
  unfold newSessionIdentifier, reading. cbn [fst snd store readings].
  destruct (truthy (s_name session)) eqn:hasName;
    destruct (truthy (createdAt session)) eqn:hasCreated;
    cbn; do 3 eexists; (split; [reflexivity|]); simpl; rewrite get_set_same;
    (split; [reflexivity|]); cbn [s_tree storedNodes storedRootIds s_name createdAt];
    repeat split; congruence.
Qed.

End ExportImport.

Lemma roundTrip_of_map_witness :
  sessionAt worldWithMap "stored" = Some sessionOfMap /\
  exists newSessionId w' imported,
    roundTrip sampleEnv "stored" worldWithMap = (Returned newSessionId, w') /\
    sessionAt w' newSessionId = Some imported /\
    storedNodes (s_tree imported) = JMap [(JStr "a", jsOfNode nodeA)].
Proof.
  split; [reflexivity|].
  destruct (roundTrip_of_map sampleEnv "stored" worldWithMap sessionOfMap
              [(JStr "a", jsOfNode nodeA)] eq_refl eq_refl)
    as (newSessionId & w' & imported & returned & held & stored & _).
  - split; [intros k' v' []|exact I].
  - intros k v [[= <- <-]|[]]. eexists. split; reflexivity.
  - vm_compute. reflexivity.
  - exists newSessionId, w', imported. auto.
Defined.

(* ------------------------------------------------------------------ *)
(** * The active session is a stored session                           *)
(* ------------------------------------------------------------------ *)

Section Active.
Variable env : Env.

Lemma sessionAt_set_held (m : JsMap.t string Session) k session i :
  JsMap.get m i <> None -> JsMap.get (JsMap.set m k session) i <> None.
Proof. rewrite get_set. now key_cases. Qed.

(** X14. The active session is a stored session: [createNewSession]
    and [saveCurrentSession] make it so, and [renameSession],
    [importSession], [loadSession] (whether it installs a typed tree,
    installs the stored values as they are, or throws) and the
    [deleteSession] of a session that is not the active one keep it
    so. *)
Theorem activeRegistered_kept :
  (forall w, activeRegistered (snd (createNewSession env w))) /\
  (forall name w, activeRegistered (snd (saveCurrentSession env name w))) /\
  (forall sessionId newName w,
     activeRegistered w -> activeRegistered (renameSession env sessionId newName w)) /\
  (forall sessionData w,
     activeRegistered w -> activeRegistered (snd (importSession env sessionData w))) /\
  (forall sessionId w,
     activeRegistered w -> activeRegistered (storeAfter (loadSession env sessionId w))) /\
  (forall sessionId w,
     activeRegistered w -> currentSessionId (store w) <> Some sessionId ->
     activeRegistered (deleteSession env sessionId w)).
Proof.
  assert (registered : forall w active,
            currentSessionId (store w) = Some active ->
            sessionAt w active <> None -> activeRegistered w).
  { intros w active current held. destruct (sessionAt w active) as [session|] eqn:e;
      [|contradiction]. now exists active, session. }
  assert (saved : forall name w, activeRegistered (snd (saveCurrentSession env name w))).
  { intros name w.
    destruct (saveCurrentSession_stores env name w) as (current & (session & held & _) & _).
    now exists (fst (saveCurrentSession env name w)), session. }
  split; [|split; [exact saved|split; [|split; [|split]]]].
  - intros w. apply registered with (fst (createNewSession env w));
      [apply createNewSession_current|].
    unfold sessionAt, createNewSession, newSessionIdentifier, reading.
    destruct (truthyId (currentSessionId (store w)));
      [destruct (0 <? JsMap.size (nodes (tree (store w))))%nat|];
      simpl; rewrite get_set_same; discriminate.
  - intros sessionId newName w (active & session & current & held).
    unfold renameSession.
    destruct (JsMap.get (sessions (store w)) sessionId) as [renamed|];
      [|now exists active, session].
    apply registered with active; [exact current|].
    unfold sessionAt in *. simpl. apply sessionAt_set_held. congruence.
  - intros sessionData w (active & session & current & held).
    destruct (importSession env sessionData w) as [[sessionId|message] w'] eqn:outcome.
    + destruct (importSession_registers env sessionData w sessionId w' outcome)
        as (_ & _ & _ & _ & imported & _ & _ & _ & _ & _ & sessions' & _ & _ & current' & _).
      apply registered with active; [simpl; congruence|].
      unfold sessionAt in *. simpl. rewrite sessions'. apply sessionAt_set_held. congruence.
    + apply importSession_thrown in outcome. simpl. subst w'. now exists active, session.
  - intros sessionId w kept. unfold loadSession.
    destruct (JsMap.get (sessions (store w)) sessionId) as [session|] eqn:held;
      [|exact kept].
    set (w1 := match truthyId (currentSessionId (store w)) with
               | Some _ => if (0 <? JsMap.size (nodes (tree (store w))))%nat
                           then snd (saveCurrentSession env None w) else w
               | None => w
               end).
    assert (kept1 : activeRegistered w1).
    { unfold w1. destruct (truthyId (currentSessionId (store w))); [|exact kept].
      destruct (0 <? JsMap.size (nodes (tree (store w))))%nat; [apply saved | exact kept]. }
    assert (held1 : sessionAt w1 sessionId <> None).
    { unfold w1, sessionAt.
      destruct (truthyId (currentSessionId (store w))); [|congruence].
      destruct (0 <? JsMap.size (nodes (tree (store w))))%nat; [|congruence].
      unfold saveCurrentSession, newSessionIdentifier, reading.
      destruct (truthyId (currentSessionId (store w))); simpl;
        repeat match goal with
               | |- context [match ?o with Some _ => _ | None => _ end] => destruct o; simpl
               | |- context [if ?b then _ else _] => destruct b; simpl
               end; apply sessionAt_set_held; congruence. }
    destruct (newMap (storedNodes (s_tree session))) as [entries|]; [|exact kept1].
    destruct (spread (storedRootIds (s_tree session))) as [roots|]; [|exact kept1].
    destruct (nodeEntries entries) as [loaded|];
      [destruct (allOf (map asString roots)) as [rootIds|]|];
      cbn [storeAfter]; (apply registered with sessionId; [reflexivity | exact held1]).
  - intros sessionId w (active & session & current & held) other.
    unfold deleteSession.
    replace (sameId (currentSessionId (store w)) sessionId) with false.
    + apply registered with active; [exact current|].
      unfold sessionAt in *. simpl. rewrite get_delete_other; congruence.
    + rewrite current. simpl. symmetry. apply String.eqb_neq. congruence.
Qed.

End Active.

Lemma activeRegistered_kept_witness :
  activeRegistered worldAB /\
  activeRegistered (renameSession sampleEnv sessionAB "renamed" worldAB) /\
  fst (roundTrip sampleEnv sessionAB worldAB) = Returned sessionRoundTrip /\
  (exists entries roots w',
     loadSession sampleEnv sessionRoundTrip worldRoundTrip = LoadedAsIs entries roots w' /\
     map fst entries = [JNum 0; JNum 1] /\
     currentSessionId (store w') = Some sessionRoundTrip) /\
  activeRegistered (storeAfter (loadSession sampleEnv sessionRoundTrip worldRoundTrip)).
Proof.
  assert (active : activeRegistered worldAB).
  { eexists. eexists. split; reflexivity. }
  assert (active' : activeRegistered worldRoundTrip).
  { eexists. eexists. split; vm_compute; reflexivity. }
  split; [exact active|]. split; [|split; [|split]].
  - exact (proj1 (proj2 (proj2 (activeRegistered_kept sampleEnv))) sessionAB "renamed"
             worldAB active).
  - vm_compute. reflexivity.
  - eexists. eexists. eexists. split; [vm_compute; reflexivity|]. split; reflexivity.
  - exact (proj1 (proj2 (proj2 (proj2 (proj2 (activeRegistered_kept sampleEnv)))))
             sessionRoundTrip worldRoundTrip active').
Defined.

(* ------------------------------------------------------------------ *)
(** * The chains of the summary view                                   *)
(* ------------------------------------------------------------------ *)

Lemma isProcessed_In processed k : isProcessed processed k = true <-> In k processed.
Proof.
  unfold isProcessed. rewrite existsb_exists. split.
  - intros (j & listed & same). apply String.eqb_eq in same. now subst.
  - intros listed. exists k. split; [assumption | apply String.eqb_refl].
Qed.

Lemma isProcessed_app processed added k :
  isProcessed (processed ++ added) k = isProcessed processed k || isProcessed added k.
Proof. apply existsb_app. Qed.

Lemma filter_length_lt {A} (f g : A -> bool) l k :
  (forall a, f a = true -> g a = true) ->
  In k l -> f k = false -> g k = true ->
  (List.length (filter f l) < List.length (filter g l))%nat.
Proof.
  intros weaker.
  assert (le : forall l, (List.length (filter f l) <= List.length (filter g l))%nat).
  { intros l'. induction l' as [|a l' IH]; simpl; [lia|].
    destruct (f a) eqn:fa; [rewrite (weaker a fa); simpl; lia|].
    destruct (g a); simpl; lia. }
  induction l as [|a l IH]; [contradiction|].
  intros [->|listed] out within; simpl.
  - rewrite out, within. simpl. specialize (le l). lia.
  - specialize (IH listed out within).
    destruct (f a) eqn:fa; [rewrite (weaker a fa); simpl; lia|].
    destruct (g a); simpl; lia.
Qed.

Lemma unseen_app t processed added : (unseen t (processed ++ added) <= unseen t processed)%nat.
Proof.
  unfold unseen. induction (nodeIds t) as [|a l IH]; simpl; [lia|].
  rewrite isProcessed_app.
  destruct (isProcessed processed a); simpl; [assumption|].
  destruct (isProcessed added a); simpl; lia.
Qed.

Lemma unseen_add t processed k :
  In k (nodeIds t) -> isProcessed processed k = false ->
  (unseen t (processed ++ [k]) < unseen t processed)%nat.
Proof.
  intros listed fresh. unfold unseen. apply filter_length_lt with k.
  - intros a. rewrite isProcessed_app. now destruct (isProcessed processed a).
  - assumption.
  - rewrite isProcessed_app. simpl. rewrite String.eqb_refl. now rewrite orb_true_r.
  - now rewrite fresh.
Qed.

Lemma unseen_size t processed : (unseen t processed <= JsMap.size (nodes t))%nat.
Proof.
  unfold unseen, nodeIds, JsMap.keys, JsMap.size.
  rewrite <- (length_map fst (nodes t)). apply filter_length_le.
Qed.

Lemma nodesOf_app t ids more : nodesOf t (ids ++ more) = nodesOf t ids ++ nodesOf t more.
Proof. apply flat_map_app. Qed.

Section Walk.
Variable t : ConversationTree.

(** The walk over the children, given what a walk from one node does. *)
Lemma forEachOpt_traverse fuel :
  (forall nodeId processed chain pending,
     NoDup processed -> closedExcept t pending processed ->
     (unseen t processed < fuel)%nat ->
     exists added,
       traverse fuel t nodeId (processed, chain)
       = Some (processed ++ added, chain ++ nodesOf t added) /\
       NoDup (processed ++ added) /\
       closedExcept t pending (processed ++ added) /\
       In nodeId (processed ++ added)) ->
  forall children processed chain pending,
    NoDup processed -> closedExcept t pending processed ->
    (unseen t processed < fuel)%nat ->
    exists added,
      forEachOpt (traverse fuel t) children (processed, chain)
      = Some (processed ++ added, chain ++ nodesOf t added) /\
      NoDup (processed ++ added) /\
      closedExcept t pending (processed ++ added) /\
      (forall c, In c children -> In c (processed ++ added)).
Proof.
  intros walk. induction children as [|child rest IH];
    intros processed chain pending distinct closed enough.
  - exists []. simpl. rewrite !app_nil_r. repeat split; auto. contradiction.
  - destruct (walk child processed chain pending distinct closed enough)
      as (added1 & run1 & distinct1 & closed1 & listed1).
    destruct (IH (processed ++ added1) (chain ++ nodesOf t added1) pending distinct1 closed1)
      as (added2 & run2 & distinct2 & closed2 & listed2).
    { pose proof (unseen_app t processed added1). lia. }
    exists (added1 ++ added2). cbn [forEachOpt]. rewrite run1, run2.
    rewrite nodesOf_app, !app_assoc. split; [reflexivity|].
    rewrite <- !app_assoc in *. split; [assumption|]. split; [assumption|].
    intros c [<-|listed]; [|now apply listed2].
    rewrite app_assoc. apply in_or_app. now left.
Qed.

Lemma traverse_walks fuel : forall nodeId processed chain pending,
  NoDup processed -> closedExcept t pending processed ->
  (unseen t processed < fuel)%nat ->
  exists added,
    traverse fuel t nodeId (processed, chain)
    = Some (processed ++ added, chain ++ nodesOf t added) /\
    NoDup (processed ++ added) /\
    closedExcept t pending (processed ++ added) /\
    In nodeId (processed ++ added) /\
    (if isProcessed processed nodeId then added = []
     else exists more, added = nodeId :: more).
Proof.
  induction fuel as [|fuel IH]; intros nodeId processed chain pending distinct closed enough;
    [lia|].
  cbn [traverse]. destruct (isProcessed processed nodeId) eqn:seen.
  - exists []. rewrite !app_nil_r. repeat split; auto. now apply isProcessed_In.
  - assert (fresh : ~ In nodeId processed).
    { intros listed. apply isProcessed_In in listed. congruence. }
    assert (distinct1 : NoDup (processed ++ [nodeId])).
    { apply NoDup_app; [assumption | repeat constructor; auto |].
      intros k listed [<-|[]]. contradiction. }
    destruct (JsMap.get (nodes t) nodeId) as [node|] eqn:held.
    + assert (closed1 : closedExcept t (nodeId :: pending) (processed ++ [nodeId])).
      { intros p pn c listed out heldp child. apply in_or_app. left.
        apply in_app_or in listed. destruct listed as [listed|[<-|[]]].
        - apply (closed p pn c); auto. intros pend. apply out. now right.
        - exfalso. apply out. now left. }
      destruct (forEachOpt_traverse fuel) with
        (children := childrenIds node) (processed := processed ++ [nodeId])
        (chain := chain ++ [node]) (pending := nodeId :: pending)
        as (added & run & distinct2 & closed2 & listed2); auto.
      { intros k P c G dP cP eP.
        destruct (IH k P c G dP cP eP) as (a & r & d & cl & l & _). eauto. }
      { pose proof (unseen_add t processed nodeId (get_some_in_keys _ _ _ held) seen). lia. }
      exists (nodeId :: added). rewrite run.
      assert (one : nodesOf t (nodeId :: added) = node :: nodesOf t added).
      { unfold nodesOf, nodeAt. cbn [flat_map]. now rewrite held. }
      rewrite one. rewrite <- !app_assoc in *. cbn [app] in *.
      split; [reflexivity|]. split; [assumption|]. split; [|split].
      * intros p pn c listed out heldp child.
        destruct (String.eqb_spec p nodeId) as [->|apart].
        -- unfold nodeAt in heldp. rewrite held in heldp. injection heldp as <-.
           now apply listed2.
        -- apply (closed2 p pn c); auto. intros [<-|pend]; [congruence|contradiction].
      * apply in_or_app. right. now left.
      * eauto.
    + exists [nodeId]. unfold nodesOf, nodeAt. cbn [flat_map]. rewrite held.
      cbn [app]. rewrite app_nil_r. split; [reflexivity|]. split; [assumption|].
      split; [|split].
      * intros p pn c listed out heldp child. apply in_or_app. left.
        apply in_app_or in listed. destruct listed as [listed|[<-|[]]].
        -- apply (closed p pn c); auto.
        -- unfold nodeAt in heldp. congruence.
      * apply in_or_app. right. now left.
      * eauto.
Qed.

End Walk.

Section Chains.
Variable t : ConversationTree.
Variable fuel : nat.
Hypothesis enough : (JsMap.size (nodes t) < fuel)%nat.

Lemma chainsFrom_walks : forall roots processed found,
  NoDup processed -> closedExcept t [] processed ->
  flat_map chainNodes found = nodesOf t processed ->
  Forall (fun c => hd_error (chainNodes c) = Some (rootNode c) /\
                   exists r, In r (rootIds t) /\ nodeAt t r = Some (rootNode c)) found ->
  incl roots (rootIds t) ->
  exists processed' found',
    forEachOpt (chainsFrom fuel t) roots (processed, found) = Some (processed', found') /\
    NoDup processed' /\ closedExcept t [] processed' /\
    flat_map chainNodes found' = nodesOf t processed' /\
    Forall (fun c => hd_error (chainNodes c) = Some (rootNode c) /\
                     exists r, In r (rootIds t) /\ nodeAt t r = Some (rootNode c)) found' /\
    incl processed processed' /\
    (forall r, In r roots -> nodeAt t r <> None -> In r processed').
Proof.
  induction roots as [|rootId roots IH];
    intros processed found distinct closed holds starts among.
  - exists processed, found. repeat split; auto using incl_refl. contradiction.
  - assert (among' : incl roots (rootIds t)) by (intros r listed; apply among; now right).
    cbn [forEachOpt chainsFrom].
    destruct (JsMap.get (nodes t) rootId) as [root|] eqn:held.
    + destruct (traverse_walks t fuel rootId processed [] [] distinct closed)
        as (added & run & distinct1 & closed1 & listed1 & first).
      { pose proof (unseen_size t processed). lia. }
      rewrite run. cbn [app].
      set (found1 := if (0 <? List.length (nodesOf t added))%nat
                     then found ++ [{| chainNodes := nodesOf t added; rootNode := root |}]
                     else found).
      assert (holds1 : flat_map chainNodes found1 = nodesOf t (processed ++ added)).
      { rewrite nodesOf_app, <- holds. unfold found1.
        destruct (nodesOf t added) as [|n l] eqn:walked; simpl; [now rewrite app_nil_r|].
        rewrite flat_map_app. simpl. now rewrite app_nil_r. }
      assert (starts1 : Forall (fun c => hd_error (chainNodes c) = Some (rootNode c) /\
                          exists r, In r (rootIds t) /\ nodeAt t r = Some (rootNode c))
                          found1).
      { unfold found1. destruct (0 <? List.length (nodesOf t added))%nat eqn:some;
          [|assumption].
        apply Forall_app. split; [assumption|]. repeat constructor; cbn [chainNodes rootNode].
        - destruct (isProcessed processed rootId).
          + subst added. discriminate.
          + destruct first as (more & ->). unfold nodesOf, nodeAt. cbn [flat_map].
            now rewrite held.
        - exists rootId. split; [apply among; now left | exact held]. }
      destruct (IH (processed ++ added) found1 distinct1 closed1 holds1 starts1 among')
        as (processed' & found' & run' & distinct' & closed' & holds' & starts' & grown &
            reached).
      exists processed', found'. split; [exact run'|]. repeat split; auto.
      * intros k listed. apply grown, in_or_app. now left.
      * intros r [<-|listed] present; [now apply grown | now apply reached].
    + destruct (IH processed found distinct closed holds starts among')
        as (processed' & found' & run' & distinct' & closed' & holds' & starts' & grown &
            reached).
      exists processed', found'. split; [exact run'|]. repeat split; auto.
      intros r [<-|listed] present; [|now apply reached].
      unfold nodeAt in present. congruence.
Qed.

Lemma nodesOf_entries : NoDup (nodeIds t) ->
  forall entries, incl entries (nodes t) -> nodesOf t (map fst entries) = map snd entries.
Proof.
  intros distinct. induction entries as [|[k n] entries IH]; intros among; [reflexivity|].
  cbn [map fst snd]. unfold nodesOf in *. cbn [flat_map]. unfold nodeAt at 1.
  rewrite (in_entries_get (nodes t) k n distinct) by (apply among; now left).
  cbn [app]. f_equal. apply IH. intros e listed. apply among. now right.
Qed.

Lemma nodesOf_held ids :
  nodesOf t ids = nodesOf t (filter (fun k => JsMap.has (nodes t) k) ids).
Proof.
  unfold nodesOf. induction ids as [|k ids IH]; [reflexivity|].
  cbn [flat_map filter]. unfold JsMap.has, nodeAt at 1.
  destruct (JsMap.get (nodes t) k) as [n|] eqn:held; [|exact IH].
  cbn [flat_map]. replace (nodeAt t k) with (Some n) by (symmetry; exact held).
  cbn [app]. now f_equal.
Qed.

(** X15. The conversation chains of the summary view, for a well-formed
    tree and a recursion depth beyond the number of its nodes: the walk
    returns; every chain begins with its root node, which is a node
    without parent that the tree holds under a root id; and the chains
    together hold every node of the tree exactly once. *)
Theorem chains_hold_every_node_once :
  WellFormed t ->
  exists found,
    chains fuel t = Some found /\
    Forall (fun c => hd_error (chainNodes c) = Some (rootNode c) /\
                     parentId (rootNode c) = None /\
                     exists r, In r (rootIds t) /\ nodeAt t r = Some (rootNode c)) found /\
    Permutation (flat_map chainNodes found) (map snd (nodes t)).
Proof.
  intros wf.
  destruct (chainsFrom_walks (rootIds t) [] []) as
    (processed & found & run & distinct & closed & holds & starts & _ & reached);
    [constructor | intros p pn c [] | reflexivity | constructor | apply incl_refl |].
  exists found. unfold chains. rewrite run. split; [reflexivity|]. split.
  - apply (Forall_impl _ (P := fun c => hd_error (chainNodes c) = Some (rootNode c) /\
                          exists r, In r (rootIds t) /\ nodeAt t r = Some (rootNode c)));
      [|exact starts].
    intros c (first & r & listed & held). split; [exact first|]. split; [|eauto].
    apply (wf_roots t wf) in listed. destruct listed as (n & held' & root). congruence.
  - assert (all : forall k h, Hops (nodes t) k h -> In k processed).
    { intros k h hops. induction hops as [i n held root|i n p h held link hops IH].
      - apply reached; [|unfold nodeAt; congruence].
        apply (wf_roots t wf). eauto.
      - destruct (wf_parent t wf i n p held link) as (_ & pn & heldp & child).
        apply (closed p pn i); auto. }
    rewrite holds, nodesOf_held.
    rewrite <- (nodesOf_entries (wf_keys t wf) (nodes t) (incl_refl _)).
    apply Permutation_flat_map, NoDup_Permutation.
    + now apply NoDup_filter.
    + apply (wf_keys t wf).
    + intros k. rewrite filter_In. unfold JsMap.has. split.
      * intros (_ & present).
        destruct (JsMap.get (nodes t) k) eqn:held; [|discriminate].
        eapply get_some_in_keys; eauto.
      * intros listed. apply in_keys_get in listed. destruct listed as [n held].
        rewrite held. split; [|reflexivity].
        destruct (wf_rooted t wf k n held) as [h hops]. now apply (all k h).
Qed.

End Chains.

Lemma chains_hold_every_node_once_witness :
  exists found,
    chains 3 (treeOf worldAB) = Some found /\
    flat_map chainNodes found = [withChildren nodeA ["b"]; withChildren nodeB []].
Proof.
  destruct (chains_hold_every_node_once (treeOf worldAB) 3) as (found & run & _ & _).
  - vm_compute. lia.
  - exact WellFormed_worldAB.
  - exists found. split; [exact run|].
    vm_compute in run. injection run as <-. reflexivity.
Defined.

(* ------------------------------------------------------------------ *)
(** * Adding a node and deleting it again                              *)
(* ------------------------------------------------------------------ *)

Section MapUndo.
Context {V : Type}.
Implicit Types (m : JsMap.t string V).

Lemma delete_set_fresh m k v : ~ In k (JsMap.keys m) -> JsMap.delete (JsMap.set m k v) k = m.
Proof.
  induction m as [|[k' v'] m IH]; simpl; intros fresh.
  - now rewrite keyb_same.
  - destruct (keyb_spec k' k) as [->|apart]; [tauto|]. simpl.
    destruct (keyb_spec k' k); [contradiction|]. rewrite IH; tauto.
Qed.

Lemma delete_set_other m k p v :
  p <> k -> JsMap.delete (JsMap.set m p v) k = JsMap.set (JsMap.delete m k) p v.
Proof.
  intros apart. induction m as [|[k' v'] m IH]; simpl.
  - now destruct (keyb_spec p k).
  - destruct (keyb_spec k' p) as [->|apart']; simpl.
    + destruct (keyb_spec p k); [contradiction|]. simpl. now rewrite keyb_same.
    + destruct (keyb_spec k' k) as [->|apart'']; [assumption|]. simpl.
      destruct (keyb_spec k' p); [contradiction|]. now rewrite IH.
Qed.

End MapUndo.

Lemma without_absent i ids : ~ In i ids -> without i ids = ids.
Proof.
  unfold without. induction ids as [|j ids IH]; simpl; [reflexivity|]. intros fresh.
  destruct (String.eqb_spec j i) as [->|apart]; [tauto|]. simpl. rewrite IH; tauto.
Qed.

Lemma without_added i ids : ~ In i ids -> without i (ids ++ [i]) = ids.
Proof.
  intros fresh. unfold without. rewrite filter_app. simpl. rewrite String.eqb_refl. simpl.
  rewrite app_nil_r. now apply without_absent.
Qed.

Lemma truthyId_some o p : truthyId o = Some p -> o = Some p /\ p <> EmptyString.
Proof.
  unfold truthyId. destruct o as [q|]; [|discriminate].
  destruct (String.eqb_spec q EmptyString); [discriminate|]. now intros [= <-].
Qed.

Lemma addNodeTree_deleteNodeTree node t :
  WellFormed t ->
  nodeAt t (id node) = None ->
  parentId node <> Some (id node) ->
  nodeAt (addNodeTree node t) (id node) = Some node /\
  deleteNodeTree (id node) node (addNodeTree node t) = t.
Proof.
  intros wf fresh other.
  assert (absent : ~ In (id node) (JsMap.keys (nodes t))).
  { intros listed. apply in_keys_get in listed. destruct listed as [n held].
    unfold nodeAt in fresh. congruence. }
  assert (noRoot : ~ In (id node) (rootIds t)).
  { intros listed. apply (wf_roots t wf) in listed. destruct listed as (n & held & _).
    congruence. }
  unfold addNodeTree, deleteNodeTree, nodeAt in *.
  destruct (truthyId (parentId node)) as [p|] eqn:parent.
  - destruct (truthyId_some _ _ parent) as (link & _).
    assert (apart : p <> id node) by congruence.
    rewrite get_set_other by congruence.
    destruct (JsMap.get (nodes t) p) as [pn|] eqn:held; cbn [nodes rootIds].
    + split; [rewrite get_set_other by assumption; apply get_set_same|].
      rewrite delete_set_other, delete_set_fresh by assumption.
      rewrite get_set_same, set_set. cbn [withChildren childrenIds].
      rewrite without_added.
      * replace (withChildren (withChildren pn (childrenIds pn ++ [id node])) (childrenIds pn))
          with pn by (now destruct pn).
        rewrite (set_held _ _ _ held), (without_absent _ _ noRoot). now destruct t.
      * intros child. destruct (wf_child t wf p pn (id node) held child) as (cn & heldc & _).
        unfold nodeAt in heldc. congruence.
    + split; [apply get_set_same|].
      rewrite delete_set_fresh by assumption. rewrite held.
      rewrite (without_absent _ _ noRoot). now destruct t.
  - cbn [nodes rootIds]. split; [apply get_set_same|].
    rewrite delete_set_fresh by assumption. rewrite (without_added _ _ noRoot).
    now destruct t.
Qed.

(** X16. [deleteNode] undoes [addNode]: after [addNode] of a node
    without children, under an id the well-formed tree does not hold
    and with a parent other than itself, [deleteNode] of that id returns
    and the tree is the one before the [addNode]. *)
Theorem deleteNode_undoes_addNode env fuel node w :
  WellFormed (treeOf w) ->
  nodeAt (treeOf w) (id node) = None ->
  childrenIds node = [] ->
  parentId node <> Some (id node) ->
  exists w',
    deleteNode env (S fuel) (id node) (addNode env node w) = Some w' /\
    treeOf w' = treeOf w.
Proof.
  intros wf fresh leaf other.
  destruct (addNodeTree_deleteNodeTree node (treeOf w) wf fresh other) as (held & undone).
  destruct (deleteNode_leaf env fuel (id node) (addNode env node w)) as [w' run].
  { intros n. rewrite tree_addNode, held. now intros [= <-]. }
  exists w'. split; [exact run|].
  rewrite (tree_deleteNode env _ _ _ _ run), tree_addNode, held. exact undone.
Qed.

Lemma deleteNode_undoes_addNode_witness :
  exists w',
    deleteNode sampleEnv 1 "orphan" (addNode sampleEnv (sampleNode "orphan" "q" "a" (Some "b")) worldAB)
    = Some w' /\
    treeOf w' = treeOf worldAB.
Proof.
  apply (deleteNode_undoes_addNode sampleEnv 0 (sampleNode "orphan" "q" "a" (Some "b")) worldAB).
  - exact WellFormed_worldAB.
  - reflexivity.
  - reflexivity.
  - discriminate.
Defined.
